(** * Cell Avenue RAG: the cleaning, chunking and query pipeline

    A shallow embedding of the pure and stateful parts of
    [scripts/clean_raw_data.py], [scripts/chunk_semantic.py],
    [app/rag/retriever.py] and [app/api/main.py], followed by the
    properties of the pipeline that the specification states.

    Python values are modelled as follows.
    - [str] is a list of Unicode code points ([N]); [len] counts code
      points, as Python does.
    - [int] is [Z].
    - A raised exception is the [Raise] case of [result].
    - The calls that leave the process (the semantic splitter, the
      embedding retriever, the chat model, the UUID generator and the clock)
      are oracles: section variables that receive the log of the calls made
      so far, so that two calls with the same argument may answer
      differently. *)

From stdpp Require Import base list strings gmap numbers pretty.

Open Scope Z_scope.

(** ** Python built-ins *)

Module Py.

Abbreviation str := (list N).

(** [len(s)] *)
Definition len {A} (l : list A) : Z := Z.of_nat (length l).

(** Truthiness of a sequence: [if s:] holds when [s] is not empty. *)
Definition truthy {A} (l : list A) : bool :=
  match l with [] => false | _ => true end.

(** Decoding of the UTF-8 bytes of a literal of this file into code
    points. *)
Fixpoint utf8_decode (bs : list N) : str :=
  match bs with
  | [] => []
  | b0 :: r0 =>
    if (b0 <? 128)%N then b0 :: utf8_decode r0
    else match r0 with
    | [] => []
    | b1 :: r1 =>
      if (b0 <? 224)%N
      then ((b0 - 192) * 64 + (b1 - 128))%N :: utf8_decode r1
      else match r1 with
      | [] => []
      | b2 :: r2 =>
        if (b0 <? 240)%N
        then ((b0 - 224) * 4096 + (b1 - 128) * 64 + (b2 - 128))%N
               :: utf8_decode r2
        else match r2 with
        | [] => []
        | b3 :: r3 =>
          ((b0 - 240) * 262144 + (b1 - 128) * 4096
           + (b2 - 128) * 64 + (b3 - 128))%N :: utf8_decode r3
        end
      end
    end
  end.

(** A string literal of the source. *)
Definition lit (s : string) : str :=
  utf8_decode (map Ascii.N_of_ascii (String.list_ascii_of_string s)).

Definition NL : N := 10.
Definition CR : N := 13.
Definition TAB : N := 9.
Definition SP : N := 32.
Definition QUOTE : N := 34.

(** [str(n)] for an integer. *)
Definition str_of_int (n : Z) : str := lit (pretty n).

(** [sep.join(l)] *)
Fixpoint join (sep : str) (l : list str) : str :=
  match l with
  | [] => []
  | x :: r =>
    match r with
    | [] => x
    | _ :: _ => x ++ sep ++ join sep r
    end
  end.

(** [s.split(c)] for a separator of one character: never the empty list. *)
Fixpoint split (c : N) (s : str) : list str :=
  match s with
  | [] => [[]]
  | x :: r =>
    if (x =? c)%N then [] :: split c r
    else match split c r with
         | l :: ls => (x :: l) :: ls
         | [] => [[x]]
         end
  end.

(** [c.isspace()]: the characters that [str.strip()] removes and that the
    pattern [\s] matches on a [str]. *)
Definition isspace (c : N) : bool :=
  ((9 <=? c) && (c <=? 13) || (28 <=? c) && (c <=? 32)
   || (c =? 133) || (c =? 160) || (c =? 5760)
   || (8192 <=? c) && (c <=? 8202)
   || (c =? 8232) || (c =? 8233) || (c =? 8239) || (c =? 8287)
   || (c =? 12288))%N.

Fixpoint dropwhile {A} (p : A -> bool) (l : list A) : list A :=
  match l with
  | [] => []
  | x :: r => if p x then dropwhile p r else l
  end.

Definition lstrip (s : str) : str := dropwhile isspace s.
Definition rstrip (s : str) : str := rev (dropwhile isspace (rev s)).
Definition strip (s : str) : str := rstrip (lstrip s).

(** [l[-n:]] for [n > 0]: the last [n] elements, all of [l] when it has
    fewer. *)
Definition last_n {A} (n : nat) (l : list A) : list A :=
  drop (length l - n) l.

(** [c.lower()], exact on every character whose lower case contains an
    ASCII character: the capitals, the Kelvin sign and the dotted capital I.
    The sources compare lowered text only with ASCII and Arabic literals,
    and no other character lowers to one of those. *)
Definition lower_char (c : N) : str :=
  if ((65 <=? c) && (c <=? 90))%N then [(c + 32)%N]
  else if (c =? 8490)%N then [107%N]
  else if (c =? 304)%N then [105%N; 775%N]
  else [c].

Definition lower (s : str) : str := concat (map lower_char s).

Definition str_eqb (a b : str) : bool := bool_decide (a = b).

(** [s.startswith(p)] *)
Fixpoint startswith (p s : str) : bool :=
  match p, s with
  | [], _ => true
  | _ :: _, [] => false
  | a :: p', b :: s' => (a =? b)%N && startswith p' s'
  end.

(** [sub in s] *)
Fixpoint contains (sub s : str) : bool :=
  startswith sub s ||
  match s with
  | [] => false
  | _ :: r => contains sub r
  end.

(** Outcome of a call that may raise; the exception carries its message. *)
Inductive result (A : Type) : Type :=
| Ok (a : A)
| Raise (e : str).
Arguments Ok {A} a.
Arguments Raise {A} e.

End Py.
Import Py.

(** ** Regular expressions

    The patterns of the cleaner use no back-reference and no look-around,
    so whether one matches is a question about a regular language, answered
    here with derivatives. Lazy and greedy quantifiers accept the same
    strings. *)

Module Re.

Inductive re :=
| Void
| Eps
| Chr (p : N -> bool)
| Cat (a b : re)
| Alt (a b : re)
| Star (a : re).

(** The strings that a pattern matches in full. *)
Inductive lang : re -> str -> Prop :=
| lang_eps : lang Eps []
| lang_chr (p : N -> bool) (c : N) : p c = true -> lang (Chr p) [c]
| lang_cat (a b : re) (s t : str) :
    lang a s -> lang b t -> lang (Cat a b) (s ++ t)
| lang_alt_l (a b : re) (s : str) : lang a s -> lang (Alt a b) s
| lang_alt_r (a b : re) (s : str) : lang b s -> lang (Alt a b) s
| lang_star_nil (a : re) : lang (Star a) []
| lang_star_cons (a : re) (s t : str) :
    lang a s -> lang (Star a) t -> lang (Star a) (s ++ t).

Fixpoint nullable (r : re) : bool :=
  match r with
  | Void => false
  | Eps => true
  | Chr _ => false
  | Cat a b => nullable a && nullable b
  | Alt a b => nullable a || nullable b
  | Star _ => true
  end.

(** Constructors that drop the dead branches of a derivative. *)
Definition cat (a b : re) : re :=
  match a, b with
  | Void, _ => Void
  | _, Void => Void
  | Eps, _ => b
  | _, _ => Cat a b
  end.

Definition alt (a b : re) : re :=
  match a, b with
  | Void, _ => b
  | _, Void => a
  | _, _ => Alt a b
  end.

Fixpoint deriv (c : N) (r : re) : re :=
  match r with
  | Void => Void
  | Eps => Void
  | Chr p => if p c then Eps else Void
  | Cat a b =>
    if nullable a then alt (cat (deriv c a) b) (deriv c b)
    else cat (deriv c a) b
  | Alt a b => alt (deriv c a) (deriv c b)
  | Star a => cat (deriv c a) (Star a)
  end.

(** [pattern.fullmatch(s) is not None] *)
Fixpoint fullmatch (r : re) (s : str) : bool :=
  match s with
  | [] => nullable r
  | c :: s' => fullmatch (deriv c r) s'
  end.

(** [pattern.match(s) is not None]: some prefix of [s] matches. *)
Fixpoint matches (r : re) (s : str) : bool :=
  nullable r ||
  match s with
  | [] => false
  | c :: s' => matches (deriv c r) s'
  end.

(** [pattern.search(s)]: the start of the leftmost match. *)
Fixpoint search (r : re) (s : str) : option nat :=
  if matches r s then Some O
  else match s with
       | [] => None
       | _ :: s' => S <$> search r s'
       end.

(** A literal character, and one under [re.IGNORECASE]: the ASCII letters
    match both cases, and [i], [k] and [s] also match the dotted and
    dotless I, the Kelvin sign and the long s. *)
Definition chr (a : N) : re := Chr (N.eqb a).

Definition ascii_lower (c : N) : N :=
  if ((65 <=? c) && (c <=? 90))%N then (c + 32)%N else c.

Definition ci_eqb (a c : N) : bool :=
  let a := ascii_lower a in
  ((ascii_lower c =? a)
   || (a =? 105) && ((c =? 304) || (c =? 305))
   || (a =? 107) && (c =? 8490)
   || (a =? 115) && (c =? 383))%N.

Definition chr_i (a : N) : re := Chr (ci_eqb a).

(** A literal string. *)
Definition text (s : str) : re := foldr (fun a r => Cat (chr a) r) Eps s.
Definition text_i (s : str) : re := foldr (fun a r => Cat (chr_i a) r) Eps s.

(** [.]: any character except a newline. *)
Definition dot : re := Chr (fun c => negb (c =? NL)%N).
(** [\s] *)
Definition space : re := Chr isspace.
Definition opt (r : re) : re := Alt r Eps.
Definition plus (r : re) : re := Cat r (Star r).
(** [r1 r2 ... rn] *)
Definition seq (rs : list re) : re := foldr Cat Eps rs.
(** [$] outside of [re.MULTILINE]: the end of the string, or the newline
    that ends it. *)
Definition eos : re := opt (chr NL).
(** What may follow a match that need not reach the end of the string. *)
Definition rest : re := Star (Chr (fun _ => true)).

End Re.

(** ** scripts/clean_raw_data.py *)

Module Cleaner.

Import Re.

Definition CLEANING_VERSION : str := lit "v1.1".

(** The patterns start with [^], so [pat.search] finds a match only at the
    start of the line. Each is written here as a pattern for the whole
    line: one that ends with [$] ends with [eos], and one that does not is
    followed by [rest]. *)
Definition BANNER_LINE_PATTERNS : list re := [
  seq [Star space; text_i (lit "dear customers"); opt (chr 44); Star space; eos];
  seq [Star space; text_i (lit "dear customer kindly note that all placed orders");
       rest];
  seq [Star space; text_i (lit "thank you for shopping at cell avenue store");
       opt (chr 46); Star space; eos];
  seq [Star space; text_i (lit "العملاء الأعزاء"); rest];
  seq [Star space; text_i (lit "كل عام و انتم بخير"); rest];
  seq [Star space; text_i (lit "يرجى ملاحظة أن جميع الطلبات"); rest];
  seq [Star space; text_i (lit "شكرًا لكم للتسوق في متجر سيل أفينيو"); rest]
].

Definition NOISE_SUBSTRINGS : list str := [
  lit "shopping cart";
  lit "scroll up";
  lit "start typing to see products you are looking for";
  lit "ابدا بالكتابة لترى المنتجات التي تبحث عنها";
  lit "protected by **recaptcha**";
  lit "recaptcha requires verification";
  lit "google.com/intl/en/policies/privacy";
  lit "google.com/intl/en/policies/terms";
  lit "do not follow this link or you will be banned from the site";
  lit "blackhole=";
  lit "facebook social link";
  lit "linkedin social link";
  lit "add to wishlist";
  lit "quick view";
  lit "read more description";
  lit "load more products";
  lit "show sidebar"
].

(** [\[.*?\]] and [\(.*?\)] *)
Definition bracketed : re := seq [chr 91; Star dot; chr 93].
Definition parenthesized : re := seq [chr 40; Star dot; chr 41].
(** [\(https?://.*?\)] *)
Definition http_target : re :=
  seq [chr 40; text (lit "http"); opt (chr 115); text (lit "://");
       Star dot; chr 41].
(** [!\[.*?\]\(.*?\)] *)
Definition image : re := seq [chr 33; bracketed; parenthesized].
(** [\[!\[.*?\]\(.*?\)\]\(.*?\)] *)
Definition linked_image : re := seq [chr 91; image; chr 93; parenthesized].

Definition LINK_ONLY_RE : re :=
  seq [Star space; bracketed; http_target; Star space; eos].
Definition IMAGE_LINE_RE : re :=
  seq [Star space; image; Star space; eos].
Definition LINKED_IMAGE_LINE_RE : re :=
  seq [Star space; linked_image; Star space; eos].
Definition MULTI_IMAGE_ONLY_RE : re :=
  seq [Star space; plus (seq [image; Star space]); eos].
Definition MULTI_LINKED_IMAGE_ONLY_RE : re :=
  seq [Star space; plus (seq [linked_image; Star space]); eos].
Definition LISTING_LINK_RE : re :=
  seq [Star space; chr 45; Star space; bracketed; http_target; Star space; eos].
Definition SHORTCODE_RE : re :=
  seq [opt (chr 92); chr 91;
       foldr Alt Void
         (map text_i [lit "vc_"; lit "la_"; lit "contact-form-7"; lit "wpum_";
                      lit "ultimatemember"; lit "/vc_"; lit "/la_"]);
       Star dot].
(** [^\s*\|?(?:\s*:?-{2,}:?\s*\|)+\s*$] *)
Definition TABLE_SEPARATOR_RE : re :=
  seq [Star space; opt (chr 124);
       plus (seq [Star space; opt (chr 58); chr 45; chr 45; Star (chr 45);
                  opt (chr 58); Star space; chr 124]);
       Star space; eos].

(** [re.sub(r"[ \t]+", " ", text)]: each run of spaces and tabs becomes one
    space. [in_run] tells that the previous character belonged to a run. *)
Fixpoint collapse_blanks (in_run : bool) (s : str) : str :=
  match s with
  | [] => []
  | c :: r =>
    if ((c =? SP) || (c =? TAB))%N
    then (if in_run then collapse_blanks true r
          else SP :: collapse_blanks true r)
    else c :: collapse_blanks false r
  end.

(** [re.sub(r"\n{3,}", "\n\n", text)]: a run of three newlines or more
    becomes two. [k] counts the newlines of the current run already kept. *)
Fixpoint squeeze_newlines (k : nat) (s : str) : str :=
  match s with
  | [] => []
  | c :: r =>
    if (c =? NL)%N
    then (if (k <? 2)%nat then NL :: squeeze_newlines (S k) r
          else squeeze_newlines k r)
    else c :: squeeze_newlines O r
  end.

(** [text.replace("\r\n", "\n")] *)
Fixpoint replace_crlf (s : str) : str :=
  match s with
  | [] => []
  | c :: r =>
    match r with
    | d :: r' =>
      if ((c =? CR) && (d =? NL))%N then NL :: replace_crlf r'
      else c :: replace_crlf r
    | [] => [c]
    end
  end.

(** [text.replace("\r", "\n")] *)
Definition replace_cr (s : str) : str :=
  map (fun c => if (c =? CR)%N then NL else c) s.

Definition normalize_whitespace (text : str) : str :=
  let text := replace_cr (replace_crlf text) in
  let text := collapse_blanks false text in
  let text := squeeze_newlines O text in
  strip text.

Definition should_drop_line (line : str) : bool :=
  let s := strip line in
  if negb (truthy s) then false
  else
    let s_lower := lower s in
    if existsb (str_eqb s) [[10005%N]; [10006%N]; lit "x"] then true
    else if existsb (fun pat => fullmatch pat s) BANNER_LINE_PATTERNS then true
    else if matches SHORTCODE_RE s then true
    else if contains (lit "<base64-image-removed>") s_lower then true
    else if fullmatch IMAGE_LINE_RE s then true
    else if fullmatch LINKED_IMAGE_LINE_RE s then true
    else if fullmatch MULTI_IMAGE_ONLY_RE s then true
    else if fullmatch MULTI_LINKED_IMAGE_ONLY_RE s then true
    else if fullmatch TABLE_SEPARATOR_RE s then true
    else if fullmatch LISTING_LINK_RE s then true
    else if existsb (fun sub => contains sub s_lower) NOISE_SUBSTRINGS then true
    else if fullmatch LINK_ONLY_RE s
            && existsb (fun k => contains k s_lower)
                       [lit "privacy"; lit "terms"; lit "close"] then true
    else if existsb (str_eqb s_lower)
              [lit "close"; lit "search"; lit "menu"; lit "loading...";
               lit "previous"; lit "next"] then true
    else false.

(** The two headings that open the related-products tail:
    [\n###\s*Related products\s*\n] and its Arabic form. *)
Definition RELATED_PATTERNS : list re := [
  seq [chr NL; text (lit "###"); Star space; text_i (lit "Related products");
       Star space; chr NL];
  seq [chr NL; text (lit "###"); Star space; text_i (lit "منتجات ذات صلة");
       Star space; chr NL]
].

(** One turn of the loop over the patterns; the state is [cut_idx]. *)
Definition cut_step (text : str) (cut_idx : option nat) (pat : re) : option nat :=
  match search pat text with
  | Some start =>
    match cut_idx with
    | None => Some start
    | Some i => Some (Nat.min i start)
    end
  | None => cut_idx
  end.

Definition strip_related_products_block (text page_type : str) : str :=
  if negb (str_eqb page_type (lit "product")) then text
  else
    match fold_left (cut_step text) RELATED_PATTERNS None with
    | Some cut_idx => rstrip (take cut_idx text)
    | None => text
    end.

(** One turn of the loop of [dedupe_consecutive]; the state is
    [(out, prev)]. *)
Definition dedupe_step (st : list str * option str) (line : str)
  : list str * option str :=
  let '(out, prev) := st in
  if bool_decide (Some line = prev) && truthy (strip line) then (out, prev)
  else (out ++ [line], Some line).

Definition dedupe_consecutive (lines : list str) : list str :=
  fst (fold_left dedupe_step lines ([], None)).

Definition clean_markdown (markdown page_type : str) : str :=
  let text := normalize_whitespace markdown in
  let text := strip_related_products_block text page_type in
  let lines := split NL text in
  let kept := List.filter (fun line => negb (should_drop_line line)) lines in
  let kept := dedupe_consecutive kept in
  let cleaned := join [NL] kept in
  normalize_whitespace cleaned.

(** A JSON value: a string, an integer, or another value, kept as its
    text. *)
Inductive json :=
| JStr (s : str)
| JInt (n : Z)
| JOther (repr : str).

(** A line of a raw shard, after [line.strip()]: empty, not the text of a
    JSON object, or a JSON object. *)
Inductive raw_line :=
| Blank
| NotAnObject (e : str)
| Object (obj : gmap str json).

(** The counters that [process_file] returns. *)
Record counters := {
  read_records : Z;
  written_records : Z;
  raw_chars : Z;
  clean_chars : Z
}.

(** [obj.get("page_type", "other")]; a value that is not a string is
    kept only for its comparison with ["product"], which fails. *)
Definition get_page_type (obj : gmap str json) : str :=
  match default (JStr (lit "other")) (obj !! lit "page_type") with
  | JStr p => p
  | _ => []
  end.

(** [out], the record written for [obj]. *)
Definition out_record (obj : gmap str json) (raw_text text cleaned_at : str)
  : gmap str json :=
  <[lit "clean_char_count" := JInt (len text)]>
  (<[lit "raw_char_count" := JInt (len raw_text)]>
  (<[lit "cleaning_version" := JStr CLEANING_VERSION]>
  (<[lit "cleaned_at" := JStr cleaned_at]>
  (<[lit "text" := JStr text]>
  (delete (lit "markdown") obj))))).

(** The loop of [process_file] over the lines of [src]; [dst] is what has
    been written so far. An exception leaves the loop and keeps what was
    written. A [markdown] that is not a string makes
    [normalize_whitespace] raise. *)
Fixpoint process_lines (cleaned_at : str) (src : list raw_line)
    (dst : list (gmap str json)) (c : counters)
  : list (gmap str json) * result counters :=
  match src with
  | [] => (dst, Ok c)
  | Blank :: src' => process_lines cleaned_at src' dst c
  | NotAnObject e :: _ =>
    (dst, Raise e)
  | Object obj :: src' =>
    let c := {| read_records := read_records c + 1;
                written_records := written_records c;
                raw_chars := raw_chars c; clean_chars := clean_chars c |} in
    match default (JStr []) (obj !! lit "markdown") with
    | JStr raw_text =>
      let page_type := get_page_type obj in
      let text := clean_markdown raw_text page_type in
      let c := {| read_records := read_records c;
                  written_records := written_records c;
                  raw_chars := raw_chars c + len raw_text;
                  clean_chars := clean_chars c + len text |} in
      if len text <? 40 then process_lines cleaned_at src' dst c
      else
        let out := out_record obj raw_text text cleaned_at in
        process_lines cleaned_at src' (dst ++ [out])
          {| read_records := read_records c;
             written_records := written_records c + 1;
             raw_chars := raw_chars c; clean_chars := clean_chars c |}
    | _ => (dst, Raise (lit "AttributeError"))
    end
  end.

Definition process_file (cleaned_at : str) (src : list raw_line)
  : list (gmap str json) * result counters :=
  process_lines cleaned_at src []
    {| read_records := 0; written_records := 0;
       raw_chars := 0; clean_chars := 0 |}.

End Cleaner.

(** ** scripts/chunk_semantic.py *)

Module Chunker.

Definition MIN_DOC_CHARS : Z := 100.
Definition MIN_CHUNK_CHARS : Z := 50.

(** The separator ["\n\n"] of the merge step. *)
Definition SEP : str := [NL; NL].

Record cleaned_record := {
  rec_text : option str;
  rec_url : option str;
  rec_page_type : option str;
  rec_language : option str;
  rec_title : option str;
  rec_crawled_at : option str
}.

Record chunk_record := {
  doc_id : str;
  chunk_id : str;
  chunk_index : Z;
  url : str;
  language : str;
  page_type : str;
  source_title : str;
  crawled_at : str;
  text : str;
  char_count : Z
}.

(** [record.get(key, d)] *)
Definition get_or (field : option str) (d : str) : str := default d field.

(** One turn of the loop of [merge_small_chunks]; the state is
    [(merged, buf)]. *)
Definition merge_step (min_chars : Z) (st : list str * str) (chunk : str)
  : list str * str :=
  let '(merged, buf) := st in
  let buf := if truthy buf then buf ++ SEP ++ chunk else chunk in
  if len buf >=? min_chars then (merged ++ [buf], []) else (merged, buf).

(** [merged[-1] = merged[-1] + "\n\n" + buf], when [merged] is not empty. *)
Definition attach_to_last (merged : list str) (buf : str) : list str :=
  match last merged with
  | Some l => <[pred (length merged) := l ++ SEP ++ buf]> merged
  | None => merged
  end.

Definition merge_small_chunks (chunks : list str) (min_chars : Z) : list str :=
  if negb (truthy chunks) then chunks
  else
    let '(merged, buf) := fold_left (merge_step min_chars) chunks ([], []) in
    if truthy buf then
      if truthy merged then attach_to_last merged buf
      else merged ++ [buf]
    else merged.

Section WithSplitter.

(** [hashlib.sha256(url.encode()).hexdigest()]. The records come from
    JSON lines files written as UTF-8, whose text encodes without error. *)
Variable sha256_hexdigest : str -> str.

(** [chunker.create_documents([text])], as the list of the page contents of
    the documents returned. The first argument is the log of the texts sent
    to the splitter before this call. *)
Variable create_documents : list str -> str -> result (list str).

Definition make_doc_id (page_type url : str) : str :=
  page_type ++ lit "_" ++ take 8 (sha256_hexdigest url).

Definition mk_chunk (record : cleaned_record) (doc_id url page_type : str)
    (idx : Z) (chunk_text : str) : chunk_record :=
  {| doc_id := doc_id;
     chunk_id := doc_id ++ lit "_c" ++ str_of_int idx;
     chunk_index := idx;
     url := url;
     language := get_or (rec_language record) [];
     page_type := page_type;
     source_title := get_or (rec_title record) [];
     crawled_at := get_or (rec_crawled_at record) [];
     text := chunk_text;
     char_count := len chunk_text |}.

(** [process_record(record, chunker)]: the chunks or the exception, and the
    log of the splitter calls extended by the call made, if any. *)
Definition process_record (record : cleaned_record) (calls : list str)
  : result (list chunk_record) * list str :=
  let text := get_or (rec_text record) [] in
  let url := get_or (rec_url record) [] in
  let page_type := get_or (rec_page_type record) (lit "other") in
  let doc_id := make_doc_id page_type url in
  if len text <? MIN_DOC_CHARS then
    (Ok [mk_chunk record doc_id url page_type 0 text], calls)
  else
    match create_documents calls text with
    | Raise e => (Raise e, calls ++ [text])
    | Ok raw_chunks =>
      let chunks := merge_small_chunks raw_chunks MIN_CHUNK_CHARS in
      (Ok (imap (fun idx chunk_text =>
                   mk_chunk record doc_id url page_type (Z.of_nat idx) chunk_text)
                chunks),
       calls ++ [text])
    end.

(** The body of the loop of [main] for one record: the chunks are written
    to [out_f]; a record whose processing raises is skipped. *)
Definition emit_record (record : cleaned_record)
    (out_f : list chunk_record) (calls : list str)
  : list chunk_record * list str :=
  match process_record record calls with
  | (Ok chunks, calls') => (out_f ++ chunks, calls')
  | (Raise _, calls') => (out_f, calls')
  end.

End WithSplitter.

End Chunker.

(** ** app/rag/retriever.py *)

Module Retriever.

Definition MAX_HISTORY_TURNS : Z := 10.

(** One entry of a session history: [{"role": role, "content": content}]. *)
Record message := { role : str; content : str }.

(** LangChain messages handed to the chat model. *)
Inductive lc_message :=
| SystemMessage (content : str)
| HumanMessage (content : str)
| AIMessage (content : str).

(** A retrieved document; the metadata is a dictionary. *)
Record Document := { page_content : str; metadata : gmap str str }.

(** What [llm.invoke] receives: the rewrite prompt or a message list. *)
Inductive llm_input :=
| Prompt (text : str)
| Messages (messages : list lc_message).

(** The calls that leave the process, in the order they are made. *)
Inductive call :=
| CallUuid4
| CallLlmInvoke (input : llm_input)
| CallLlmStream (messages : list lc_message)
| CallRetriever (search_query : str)
| CallNow.

(** The fields of [CellAvenueRAG] that change after start-up, and the log of
    the external calls. *)
Record CellAvenueRAG := {
  _sessions : gmap str (list message);
  calls : list call
}.

Definition set_sessions (s : gmap str (list message)) (w : CellAvenueRAG) : CellAvenueRAG :=
  {| _sessions := s; calls := calls w |}.

(** Computations that read and write the [CellAvenueRAG] object and may raise. *)
Definition M (A : Type) : Type := CellAvenueRAG -> result A * CellAvenueRAG.

Definition ret {A} (a : A) : M A := fun w => (Ok a, w).

Definition bind {A B} (m : M A) (k : A -> M B) : M B :=
  fun w =>
    match m w with
    | (Ok a, w') => k a w'
    | (Raise e, w') => (Raise e, w')
    end.

Notation "'let*' x ':=' m 'in' k" := (bind m (fun x => k))
  (at level 10, x name, m at level 100, k at level 200, only parsing).

(** An external call: logged, and answered by its oracle from the log of the
    earlier calls. *)
Definition external {A} (c : call) (answer : list call -> result A) : M A :=
  fun w =>
    (answer (calls w), {| _sessions := _sessions w; calls := calls w ++ [c] |}).

Definition SYSTEM_PROMPT (context : str) : str :=
  lit "You are the Cell Avenue Store AI assistant.
You help customers with questions about products, pricing, shipping, returns, and store policies.

RULES — follow these strictly:
1. Answer ONLY from the provided context below. Never invent information.
2. If the answer is not in the context, say: "
  ++ [QUOTE]
  ++ lit "I'm sorry, I don't have that information. Please contact Cell Avenue support for help."
  ++ [QUOTE]
  ++ lit "
3. Include the source URL(s) for every claim you make. Place them naturally in your answer or list them at the end as "
  ++ [QUOTE] ++ lit "Sources:" ++ [QUOTE]
  ++ lit ".
4. Match the language of the user's question. If they ask in Arabic, reply in Arabic. If in English, reply in English.
5. Be concise, friendly, and professional.
6. When listing products or prices, use bullet points for clarity.
7. Always mention the currency (KWD/دينار كويتي) when discussing prices.

CONTEXT:
" ++ context ++ [NL].

Definition REWRITE_PROMPT (chat_history question : str) : str :=
  lit "Given the following conversation history and a follow-up question, rewrite the follow-up question as a standalone question that captures the full intent. Keep it concise.

Conversation history:
" ++ chat_history ++ lit "

Follow-up question: " ++ question ++ lit "

Standalone question:".

(** [meta.get(key, d)] *)
Definition meta_get (meta : gmap str str) (key d : str) : str :=
  default d (meta !! key).

Definition format_doc (i : Z) (doc : Document) : str :=
  let meta := metadata doc in
  let title := meta_get meta (lit "source_title") (lit "Untitled") in
  let url := meta_get meta (lit "url") [] in
  let lang := meta_get meta (lit "language") [] in
  let page_type := meta_get meta (lit "page_type") [] in
  lit "--- Document " ++ str_of_int i ++ lit " ---" ++ [NL]
  ++ lit "Title: " ++ title ++ [NL]
  ++ lit "URL: " ++ url ++ [NL]
  ++ lit "Type: " ++ page_type ++ lit " | Language: " ++ lang ++ [NL; NL]
  ++ page_content doc ++ [NL].

Definition _format_docs (docs : list Document) : str :=
  join [NL] (imap (fun i doc => format_doc (Z.of_nat i + 1) doc) docs).

(** One turn of the loop of [_extract_citations]; the state is
    [(seen, urls)]. *)
Definition citation_step (st : gset str * list str) (doc : Document)
  : gset str * list str :=
  let '(seen, urls) := st in
  let url := meta_get (metadata doc) (lit "url") [] in
  if truthy url && negb (bool_decide (url ∈ seen))
  then ({[url]} ∪ seen, urls ++ [url])
  else (seen, urls).

Definition _extract_citations (docs : list Document) : list str :=
  snd (fold_left citation_step docs (∅, [])).

Definition format_history_line (msg : message) : str :=
  let r := if bool_decide (role msg = lit "user")
           then lit "User" else lit "Assistant" in
  r ++ lit ": " ++ content msg.

Definition _format_history_for_rewrite (history : list message) : str :=
  join [NL] (map format_history_line history).

(** The conversion of the recent history into LangChain messages. *)
Definition history_msg (msg : message) : lc_message :=
  if bool_decide (role msg = lit "user")
  then HumanMessage (content msg)
  else AIMessage (content msg).

(** [any("؀" <= c <= "ۿ" for c in question)] *)
Definition detect_language (question : str) : str :=
  if existsb (fun c => (1536 <=? c) && (c <=? 1791))%N question
  then lit "ar" else lit "en".

(** The value returned by [query]; [query_stream] yields the same fields
    without the answer as its final item. *)
Record response := {
  answer : str;
  citations : list str;
  language : str;
  as_of : str;
  chunks_used : Z;
  session_id : str
}.

Record stream_metadata := {
  meta_citations : list str;
  meta_language : str;
  meta_as_of : str;
  meta_chunks_used : Z;
  meta_session_id : str
}.

(** The items that the generator [query_stream] yields. *)
Inductive item :=
| Token (t : str)
| Metadata (m : stream_metadata).

Section WithServices.

(** [uuid.uuid4().hex] *)
Variable uuid4_hex : list call -> str.

(** [self.llm.invoke(input).content], or the exception raised. *)
Variable llm_invoke : list call -> llm_input -> result str.

(** [self.llm.stream(messages)]: the contents of the chunks that the
    iteration delivers, and how it ends: normally ([None]) or by raising. *)
Variable llm_stream : list call -> list lc_message -> list str * option str.

(** [self.retriever.invoke(search_query)], or the exception raised. *)
Variable retriever_invoke : list call -> str -> result (list Document).

(** [datetime.now(timezone.utc).isoformat()] *)
Variable now_isoformat : list call -> str.

Definition create_session : M str :=
  let* hex := external CallUuid4 (fun cs => Ok (uuid4_hex cs)) in
  let session_id := take 12 hex in
  fun w => (Ok session_id, set_sessions (<[session_id := []]> (_sessions w)) w).

(** [list(self._sessions.get(session_id, []))]: a copy; the dictionary is
    not touched. *)
Definition get_session_history (session_id : str) : M (list message) :=
  fun w => (Ok (default [] (_sessions w !! session_id)), w).

(** [self._sessions[session_id]] on the [defaultdict(list)]: a missing key
    is inserted with the empty list. *)
Definition sessions_getitem (session_id : str) (s : gmap str (list message))
  : list message * gmap str (list message) :=
  match s !! session_id with
  | Some history => (history, s)
  | None => ([], <[session_id := []]> s)
  end.

Definition _append_to_session (session_id role content : str) : M unit :=
  fun w =>
    let '(history, s) := sessions_getitem session_id (_sessions w) in
    (* history.append(...), on the list that the dictionary holds *)
    let history := history ++ [{| role := role; content := content |}] in
    let s := <[session_id := history]> s in
    let s :=
      if len history >? MAX_HISTORY_TURNS * 2
      then <[session_id := last_n (Z.to_nat (MAX_HISTORY_TURNS * 2)) history]> s
      else s in
    (Ok tt, set_sessions s w).

Definition _rewrite_with_context (question : str) (history : list message)
  : M str :=
  if negb (truthy history) then ret question
  else
    let history_text := _format_history_for_rewrite (last_n 6 history) in
    let input := Prompt (REWRITE_PROMPT history_text question) in
    let* rewrite_resp := external (CallLlmInvoke input)
                                  (fun cs => llm_invoke cs input) in
    let rewritten := strip rewrite_resp in
    ret (if truthy rewritten then rewritten else question).

(** [if not session_id: session_id = self.create_session()] *)
Definition resolve_session (session_id : option str) : M str :=
  match session_id with
  | Some s => if truthy s then ret s else create_session
  | None => create_session
  end.

(** What [query] and [query_stream] both do before they call the chat
    model. *)
Record prepared := {
  p_session_id : str;
  p_docs : list Document;
  p_citations : list str;
  p_language : str;
  p_messages : list lc_message
}.

Definition prepare (question : str) (session_id : option str) : M prepared :=
  let* session_id := resolve_session session_id in
  let* history := get_session_history session_id in
  let* search_query := _rewrite_with_context question history in
  let* docs := external (CallRetriever search_query)
                        (fun cs => retriever_invoke cs search_query) in
  let context := _format_docs docs in
  let citations := _extract_citations docs in
  let language := detect_language question in
  let system_msg := SystemMessage (SYSTEM_PROMPT context) in
  let history_msgs := map history_msg (last_n 6 history) in
  let messages := [system_msg] ++ history_msgs ++ [HumanMessage question] in
  ret {| p_session_id := session_id; p_docs := docs;
         p_citations := citations; p_language := language;
         p_messages := messages |}.

Definition query (question : str) (session_id : option str) : M response :=
  let* p := prepare question session_id in
  let input := Messages (p_messages p) in
  let* response_content := external (CallLlmInvoke input)
                                    (fun cs => llm_invoke cs input) in
  let* _ := _append_to_session (p_session_id p) (lit "user") question in
  let* _ := _append_to_session (p_session_id p) (lit "assistant")
                               response_content in
  let* now := external CallNow (fun cs => Ok (now_isoformat cs)) in
  ret {| answer := response_content;
         citations := p_citations p;
         language := p_language p;
         as_of := now;
         chunks_used := len (p_docs p);
         session_id := p_session_id p |}.

(** *** The generator [query_stream]

    A generator object is a state, and [next] a step on it. Nothing of the
    body runs before the first [next]. *)

Inductive gen_state :=
| GenCreated (question : str) (session_id : option str)
| GenStreaming (question : str) (p : prepared) (full_response : str)
               (pending : list str) (ending : option str)
| GenYieldedMetadata
| GenFinished.

Inductive next_result :=
| Yield (i : item)
| StopIteration
| Raised (e : str).

(** The [for chunk in self.llm.stream(messages)] loop, from the chunk that
    follows the last yield up to the next yield, and what follows the loop
    when the stream ends. *)
Fixpoint stream_loop (question : str) (p : prepared) (full_response : str)
    (pending : list str) (ending : option str) (w : CellAvenueRAG)
  : next_result * gen_state * CellAvenueRAG :=
  match pending with
  | token :: pending' =>
    if truthy token then
      let full_response := full_response ++ token in
      (Yield (Token token),
       GenStreaming question p full_response pending' ending, w)
    else stream_loop question p full_response pending' ending w
  | [] =>
    match ending with
    | Some e => (Raised e, GenFinished, w)
    | None =>
      let save :=
        let* _ := _append_to_session (p_session_id p) (lit "user") question in
        let* _ := _append_to_session (p_session_id p) (lit "assistant")
                                     full_response in
        let* now := external CallNow (fun cs => Ok (now_isoformat cs)) in
        ret {| meta_citations := p_citations p;
               meta_language := p_language p;
               meta_as_of := now;
               meta_chunks_used := len (p_docs p);
               meta_session_id := p_session_id p |} in
      match save w with
      | (Ok m, w') => (Yield (Metadata m), GenYieldedMetadata, w')
      | (Raise e, w') => (Raised e, GenFinished, w')
      end
    end
  end.

(** [next(gen)] *)
Definition gen_next (g : gen_state) (w : CellAvenueRAG) : next_result * gen_state * CellAvenueRAG :=
  match g with
  | GenCreated question session_id =>
    let start :=
      let* p := prepare question session_id in
      let* script := external (CallLlmStream (p_messages p))
                              (fun cs => Ok (llm_stream cs (p_messages p))) in
      ret (p, script) in
    match start w with
    | (Ok (p, (chunks, ending)), w') =>
      stream_loop question p [] chunks ending w'
    | (Raise e, w') => (Raised e, GenFinished, w')
    end
  | GenStreaming question p full_response pending ending =>
    stream_loop question p full_response pending ending w
  | GenYieldedMetadata => (StopIteration, GenFinished, w)
  | GenFinished => (StopIteration, GenFinished, w)
  end.

Definition query_stream (question : str) (session_id : option str) : gen_state :=
  GenCreated question session_id.

(** A consumer that calls [next] at most [n] times and stops at the first
    result that is not a yield: the results obtained, in order. *)
Fixpoint consume (n : nat) (g : gen_state) (w : CellAvenueRAG)
  : list next_result * gen_state * CellAvenueRAG :=
  match n with
  | O => ([], g, w)
  | S n' =>
    match gen_next g w with
    | (Yield i, g', w') =>
      let '(rs, g'', w'') := consume n' g' w' in (Yield i :: rs, g'', w'')
    | (r, g', w') => ([r], g', w')
    end
  end.

End WithServices.

End Retriever.
(** ** app/api/main.py *)

Module Api.

Import Retriever.

(** The body of a request, validated by the framework before the handler
    runs. *)
Record ChatRequest := {
  question : str;
  req_session_id : option str
}.

Inductive http_result (A : Type) :=
| Http200 (body : A)
| HTTPException (status_code : Z) (detail : str).
Arguments Http200 {A} body.
Arguments HTTPException {A} status_code detail.

(** The lines that [event_generator] sends: [0:] with a token, [d:] with
    the metadata, [e:] with an error. *)
Inductive frame :=
| TextFrame (token : str)
| DataFrame (meta : stream_metadata)
| ErrorFrame (error : str).

Section WithServices.

Variable uuid4_hex : list call -> str.
Variable llm_invoke : list call -> llm_input -> result str.
Variable llm_stream : list call -> list lc_message -> list str * option str.
Variable retriever_invoke : list call -> str -> result (list Document).
Variable now_isoformat : list call -> str.

(** [chat(request)]; the global [rag] is [None] until start-up is over. *)
Definition chat (rag : option CellAvenueRAG) (request : ChatRequest)
  : http_result response * option CellAvenueRAG :=
  match rag with
  | None => (HTTPException 503 (lit "RAG chain not initialized"), None)
  | Some w =>
    match query uuid4_hex llm_invoke retriever_invoke now_isoformat
                (question request) (req_session_id request) w with
    | (Ok result, w') => (Http200 result, Some w')
    | (Raise e, w') =>
      (HTTPException 500 (lit "Error processing query: " ++ e), Some w')
    end
  end.

Definition frame_of (r : next_result) : list frame :=
  match r with
  | Yield (Token t) => [TextFrame t]
  | Yield (Metadata m) => [DataFrame m]
  | Raised e => [ErrorFrame e]
  | StopIteration => []
  end.

(** [event_generator()] read by a client that takes at most [n] items of
    [query_stream]: the frames sent. *)
Definition event_generator (n : nat) (w : CellAvenueRAG) (request : ChatRequest)
  : list frame * CellAvenueRAG :=
  let '(rs, _, w') :=
    consume uuid4_hex llm_invoke llm_stream retriever_invoke now_isoformat n
            (query_stream (question request) (req_session_id request)) w in
  (concat (map frame_of rs), w').

End WithServices.

End Api.

(** ** scripts/chunk_semantic.py: the loop of [main] *)

Module ChunkerMain.

Import Chunker.

(** [s.encode()], and the writing of [s] to a file opened with
    [encoding="utf-8"], succeed unless [s] holds a surrogate code point. *)
Definition encodable (s : str) : bool :=
  forallb (fun c => negb ((55296 <=? c) && (c <=? 57343)))%N s.

(** [out_f.write(json.dumps(chunk, ensure_ascii=False) + "\n")] succeeds
    when every string of the chunk can be encoded. *)
Definition writable (c : chunk_record) : bool :=
  encodable (doc_id c) && encodable (chunk_id c) && encodable (url c)
  && encodable (language c) && encodable (page_type c)
  && encodable (source_title c) && encodable (crawled_at c)
  && encodable (text c).

(** A line of a cleaned shard, after [line.strip()]: empty; text that
    [json.loads] rejects, with the message of its exception; JSON that is
    not an object (a list, a number, a string, [null]), with the message of
    the [AttributeError] that [.get] raises on it; or an object whose fields
    [text], [url], [page_type], [language], [title] and [crawled_at], where
    it has them, are strings. Objects that hold another kind of value in
    one of these fields are not among the lines considered. *)
Inductive line :=
| Blank
| NotJson (e : str)
| NotObject (e : str)
| Rec (record : cleaned_record).

(** Where an exception that ends the loop is raised. *)
Inductive stop :=
| AtLoads (e : str)
| AtHandler (e : str)
| AtPrint (e : str)
| AtWrite (chunk : chunk_record).

Inductive outcome :=
| Finished (file_records file_chunks : Z)
| Stopped (why : stop).

Section WithSplitter.

Variable sha256_hexdigest : str -> str.
Variable create_documents : list str -> str -> result (list str).

(** The message of the [UnicodeEncodeError] that [url.encode()] raises. *)
Variable encode_error : str -> str.

(** [print(text)]: the console takes the text ([None]) or raises. *)
Variable print_raises : str -> option str.

(** [process_record(record, chunker)] on an object: [make_doc_id] encodes
    the url before anything else is done. *)
Definition try_process_record (record : cleaned_record) (calls : list str)
  : result (list chunk_record) * list str :=
  let url := get_or (rec_url record) [] in
  if encodable url
  then process_record sha256_hexdigest create_documents record calls
  else (Raise (encode_error url), calls).

(** The text printed by the handler of the [try]. *)
Definition warning (line_no : Z) (record : cleaned_record) (e : str) : str :=
  lit "  WARN: skipping record " ++ str_of_int line_no ++ lit " ("
  ++ get_or (rec_url record) (lit "?") ++ lit "): " ++ e.

Definition progress (file_records file_chunks : Z) : str :=
  lit "  " ++ str_of_int file_records ++ lit " records → "
  ++ str_of_int file_chunks ++ lit " chunks so far …".

(** [for chunk in chunks: out_f.write(...); file_chunks += 1]: the output
    and the counter after the loop, and the chunk at which a write raised,
    if any. *)
Fixpoint write_chunks (chunks : list chunk_record) (out_f : list chunk_record)
    (file_chunks : Z) : list chunk_record * Z * option chunk_record :=
  match chunks with
  | [] => (out_f, file_chunks, None)
  | chunk :: chunks' =>
    if writable chunk
    then write_chunks chunks' (out_f ++ [chunk]) (file_chunks + 1)
    else (out_f, file_chunks, Some chunk)
  end.

(** The loop over the lines of one source file, from the line numbered
    [line_no]. The state is the output written so far, the log of the
    splitter calls, and the counters [file_records] and [file_chunks].
    Only the call of [process_record] is inside the [try]. *)
Fixpoint process_source (lines : list line) (line_no : Z)
    (out_f : list chunk_record) (calls : list str)
    (file_records file_chunks : Z)
  : list chunk_record * list str * outcome :=
  match lines with
  | [] => (out_f, calls, Finished file_records file_chunks)
  | Blank :: lines' =>
    process_source lines' (line_no + 1) out_f calls file_records file_chunks
  | NotJson e :: _ => (out_f, calls, Stopped (AtLoads e))
  | NotObject e :: _ => (out_f, calls, Stopped (AtHandler e))
  | Rec record :: lines' =>
    let file_records := file_records + 1 in
    match try_process_record record calls with
    | (Raise e, calls') =>
      match print_raises (warning line_no record e) with
      | Some e' => (out_f, calls', Stopped (AtPrint e'))
      | None =>
        process_source lines' (line_no + 1) out_f calls' file_records
                       file_chunks
      end
    | (Ok chunks, calls') =>
      match write_chunks chunks out_f file_chunks with
      | (out_f, _, Some chunk) => (out_f, calls', Stopped (AtWrite chunk))
      | (out_f, file_chunks, None) =>
        if file_records mod 10 =? 0 then
          match print_raises (progress file_records file_chunks) with
          | Some e' => (out_f, calls', Stopped (AtPrint e'))
          | None =>
            process_source lines' (line_no + 1) out_f calls' file_records
                           file_chunks
          end
        else
          process_source lines' (line_no + 1) out_f calls' file_records
                         file_chunks
      end
    end
  end.

End WithSplitter.

End ChunkerMain.

(** ** Vocabulary of the properties

    The notions in which the properties below are stated. *)

Module Spec.

Import Chunker Retriever.

(** The spans that a state of the loop stands for: those flushed, then the
    buffer if it holds something. *)
Definition pending (st : list str * str) : list str :=
  fst st ++ (if truthy (snd st) then [snd st] else []).

(** The history that [get_session_history] reads. *)
Definition history_of (w : CellAvenueRAG) (session_id : str) : list message :=
  default [] (_sessions w !! session_id).

Definition LIMIT : nat := Z.to_nat (MAX_HISTORY_TURNS * 2).

(** The store after a successful request on session [k]: the question and
    the reply follow the history, and the last 20 messages are kept. *)
Definition saved (w : CellAvenueRAG) (k question reply : str)
  : gmap str (list message) :=
  <[k := last_n 20
           (history_of w k
            ++ [{| role := lit "user"; content := question |};
                {| role := lit "assistant"; content := reply |}])]>
    (_sessions w).

(** The messages sent to the chat model when the history is empty. *)
Definition fresh_messages (docs : list Document) (question : str)
  : list lc_message :=
  [SystemMessage (SYSTEM_PROMPT (_format_docs docs)); HumanMessage question].

(** Results of [next] that carry the final metadata item. *)
Definition yields_metadata (r : next_result) : bool :=
  match r with
  | Yield (Metadata _) => true
  | _ => false
  end.

Definition token_results (chunks : list str) : list next_result :=
  map (fun t => Yield (Token t)) (List.filter truthy chunks).

(** Text in which a run of spaces and tabs is a single space; [prev_blank]
    tells that the character before the text is a space. *)
Fixpoint collapsed (prev_blank : bool) (s : str) : bool :=
  match s with
  | [] => true
  | c :: r =>
    if ((c =? SP) || (c =? TAB))%N
    then (c =? SP)%N && negb prev_blank && collapsed true r
    else collapsed false r
  end.

(** Text without three newlines in a row; [k] newlines precede the text. *)
Fixpoint squeezed (k : nat) (s : str) : bool :=
  match s with
  | [] => true
  | c :: r =>
    if (c =? NL)%N then (k <? 2)%nat && squeezed (S k) r
    else squeezed O r
  end.

Definition no_cr (s : str) : Prop := Forall (fun c => c ≠ CR) s.

(** The whitespace-normal texts: those that [normalize_whitespace] leaves
    as they are. *)
Definition normal (s : str) : Prop :=
  no_cr s /\ collapsed false s = true /\ squeezed O s = true /\ strip s = s.

(** Text in which the cleaner finds nothing to remove: no related-products
    tail, no line to drop, no line that repeats the one before. *)
Definition already_clean (text page_type : str) : Prop :=
  Cleaner.strip_related_products_block text page_type = text
  /\ Forall (fun line => Cleaner.should_drop_line line = false) (split NL text)
  /\ Cleaner.dedupe_consecutive (split NL text) = split NL text.

(** The cleaned text of a raw record, once its [markdown] is known to be
    the string [raw_text]. *)
Definition cleaned_text (obj : gmap str Cleaner.json) (raw_text : str) : str :=
  Cleaner.clean_markdown raw_text (Cleaner.get_page_type obj).

(** The record [out] was written for an object of [src] whose cleaned text
    has 40 characters or more. *)
Definition written_for (cleaned_at : str) (src : list Cleaner.raw_line)
    (out : gmap str Cleaner.json) : Prop :=
  exists obj raw_text,
    Cleaner.Object obj ∈ src
    /\ default (Cleaner.JStr []) (obj !! lit "markdown") = Cleaner.JStr raw_text
    /\ out = Cleaner.out_record obj raw_text (cleaned_text obj raw_text)
                                    cleaned_at
    /\ out !! lit "text" = Some (Cleaner.JStr (cleaned_text obj raw_text))
    /\ 40 <= len (cleaned_text obj raw_text).

End Spec.

(** ** Concrete services and stores

    The inputs at which the properties are exercised. *)

Module Scenario.

Import Retriever.

Definition KEY : str := lit "0123456789ab".
Definition QUESTION : str := lit "What phones do you have?".
Definition FOLLOW_UP : str := lit "Tell me more about them".

(** A generator of identifiers whose draw starts with [KEY], and one whose
    draw does not. *)
Definition uuid_key (_ : list call) : str :=
  lit "0123456789abcdef0123456789abcdef".
Definition uuid_other (_ : list call) : str :=
  lit "fedcba9876543210fedcba9876543210".

Definition llm_answers (_ : list call) (_ : llm_input) : result str :=
  Ok (lit "We have two phones.").
Definition llm_blank (_ : list call) (_ : llm_input) : result str :=
  Ok [SP; NL; TAB].
Definition llm_down (_ : list call) (_ : llm_input) : result str :=
  Raise (lit "timeout").

Definition phones_page : Document :=
  {| page_content := lit "Phones from 99 KWD.";
     metadata := {[ lit "url" := lit "https://cellavenue.example/phones" ]} |}.

Definition retriever_finds (_ : list call) (_ : str) : result (list Document) :=
  Ok [phones_page].
Definition retriever_down (_ : list call) (_ : str) : result (list Document) :=
  Raise (lit "index unavailable").

Definition stream_whole (_ : list call) (_ : list lc_message)
  : list str * option str :=
  ([lit "We have "; []; lit "two phones."], None).
Definition stream_broken (_ : list call) (_ : list lc_message)
  : list str * option str :=
  ([lit "We have "], Some (lit "connection reset")).

Definition clock_text : str := lit "2026-01-01T00:00:00+00:00".
Definition clock (_ : list call) : str := clock_text.

Definition empty_rag : CellAvenueRAG := {| _sessions := ∅; calls := [] |}.

(** The object after one turn on the session [KEY], whose id the client
    chose. *)
Definition one_turn : CellAvenueRAG :=
  snd (query uuid_other llm_answers retriever_finds clock
             QUESTION (Some KEY) empty_rag).

Definition short_record : Chunker.cleaned_record :=
  {| Chunker.rec_text := Some (lit "short page");
     Chunker.rec_url := None; Chunker.rec_page_type := None;
     Chunker.rec_language := None; Chunker.rec_title := None;
     Chunker.rec_crawled_at := None |}.

(** A text that the cleaner changes twice: the line [x] is dropped, and
    only then does the final strip make the two lines before it equal. *)
Definition TWICE : str := lit "a" ++ [NL] ++ lit "a " ++ [NL] ++ lit "x".

Definition PLAIN : str := lit "Phones" ++ [NL] ++ lit "from 99 KWD".

Definition LONG_PAGE : str :=
  lit "Cell Avenue ships every order within two working days.".

(** A raw shard of three lines: a page too short to keep, an empty line,
    and a page that is kept. *)
Definition raw_shard : list Cleaner.raw_line :=
  [Cleaner.Object {[ lit "markdown" := Cleaner.JStr (lit "Menu") ]};
   Cleaner.Blank;
   Cleaner.Object {[ lit "markdown" := Cleaner.JStr LONG_PAGE ]}].

End Scenario.

(** ** Further vocabulary

    Notions for the properties of the functions around the claims. *)

Module Notions.

Import Cleaner.

(** [s] occurs in [t] as a run of consecutive characters. *)
Definition factor (s t : str) : Prop := exists a b, t = a ++ s ++ b.

(** Tidy text: no carriage return, no tab, no two spaces in a row, no three
    newlines in a row, no white space at either end. *)
Definition tidy (t : str) : Prop :=
  (CR ∉ t) /\ (TAB ∉ t)
  /\ ~ factor [SP; SP] t
  /\ ~ factor [NL; NL; NL] t
  /\ (forall c r, t = c :: r -> isspace c = false)
  /\ (forall r c, t = r ++ [c] -> isspace c = false).

(** [dedupe_consecutive] as a recursion on the lines, [prev] being the last
    line kept. *)
Fixpoint dedupe_from (prev : option str) (lines : list str) : list str :=
  match lines with
  | [] => []
  | line :: rest =>
    if bool_decide (Some line = prev) && truthy (strip line)
    then dedupe_from prev rest
    else line :: dedupe_from (Some line) rest
  end.

(** No line with text repeats the line before it; [prev] is the line
    before the first. *)
Fixpoint deduped (prev : option str) (lines : list str) : bool :=
  match lines with
  | [] => true
  | line :: rest =>
    negb (bool_decide (Some line = prev) && truthy (strip line))
    && deduped (Some line) rest
  end.

(** The two patterns of [RELATED_PATTERNS]. *)
Definition related_en : Re.re := hd Re.Void RELATED_PATTERNS.
Definition related_ar : Re.re := hd Re.Void (tl RELATED_PATTERNS).

(** The number of JSON objects among the lines of a shard. *)
Definition objects (src : list raw_line) : Z :=
  len (List.filter (fun l => match l with Object _ => true | _ => false end) src).

(** The texts of the records of a shard that are sent to the splitter:
    those of [MIN_DOC_CHARS] characters or more, of records whose url can be
    encoded. *)
Definition split_texts (lines : list ChunkerMain.line) : list str :=
  omap (fun l =>
          match l with
          | ChunkerMain.Rec record =>
            let text := Chunker.get_or (Chunker.rec_text record) [] in
            if ChunkerMain.encodable (Chunker.get_or (Chunker.rec_url record) [])
               && negb (len text <? Chunker.MIN_DOC_CHARS)
            then Some text else None
          | _ => None
          end) lines.

Definition records (lines : list ChunkerMain.line) : Z :=
  len (List.filter (fun l => match l with ChunkerMain.Rec _ => true | _ => false end)
                   lines).

(** A field that is absent, or a string that can be encoded. *)
Definition field_ok (field : option str) : bool :=
  match field with
  | Some s => ChunkerMain.encodable s
  | None => true
  end.

(** An empty line, or an object whose strings can be encoded. *)
Definition well_formed (l : ChunkerMain.line) : bool :=
  match l with
  | ChunkerMain.Blank => true
  | ChunkerMain.Rec record =>
    field_ok (Chunker.rec_text record) && field_ok (Chunker.rec_url record)
    && field_ok (Chunker.rec_page_type record)
    && field_ok (Chunker.rec_language record)
    && field_ok (Chunker.rec_title record)
    && field_ok (Chunker.rec_crawled_at record)
  | _ => false
  end.

(** A console that takes every text. *)
Definition console (_ : str) : option str := None.

(** A splitter whose service fails. *)
Definition splitter_down (_ : list str) (_ : str) : result (list str) :=
  Raise (lit "rate limit").

(** What a state [(merged, buf)] of the merge loop will give at least:
    the chunks flushed, and one more for a buffer that holds something. *)
Definition weight (st : list str * str) : nat :=
  (length (fst st) + if truthy (snd st) then 1 else 0)%nat.

(** The bytes of a string are ASCII characters. *)
Definition ascii_string (s : string) : Prop :=
  Forall (fun b => (b < 128)%N)
         (map Ascii.N_of_ascii (String.list_ascii_of_string s)).

(** A page of 120 characters, and a splitter that cuts a text in two after
    60 characters. *)
Definition ABOUT_PAGE : Chunker.cleaned_record :=
  {| Chunker.rec_text := Some (replicate 120 120%N);
     Chunker.rec_url := Some (lit "https://cellavenue.example/about-us");
     Chunker.rec_page_type := Some (lit "policy_support");
     Chunker.rec_language := Some (lit "en");
     Chunker.rec_title := None; Chunker.rec_crawled_at := None |}.

Definition in_two (_ : list str) (text : str) : result (list str) :=
  Ok [take 60 text; drop 60 text].

(** A cleaned shard: a short page, an empty line, and a page of 120
    characters. *)
Definition SHARD : list ChunkerMain.line :=
  [ChunkerMain.Rec Scenario.short_record;
   ChunkerMain.Blank;
   ChunkerMain.Rec ABOUT_PAGE].

(** [doc.metadata.get("url", "")] *)
Definition url_of (doc : Retriever.Document) : str :=
  Retriever.meta_get (Retriever.metadata doc) (lit "url") [].

(** No session of the store holds more than 20 messages. *)
Definition bounded (s : gmap str (list Retriever.message)) : Prop :=
  forall k h, s !! k = Some h -> (length h <= 20)%nat.

(** The store [s'] differs from [s] at most in the session [k], and has
    every session that [s] has. *)
Definition touches_only (k : str) (s s' : gmap str (list Retriever.message))
  : Prop :=
  (forall k', k' ≠ k -> s' !! k' = s !! k')
  /\ (forall k', is_Some (s !! k') -> is_Some (s' !! k')).

(** The tokens among the results of [next]. *)
Definition tokens_of (rs : list Retriever.next_result) : list str :=
  omap (fun r => match r with
                 | Retriever.Yield (Retriever.Token t) => Some t
                 | _ => None
                 end) rs.

(** The session id that a request runs with: the one supplied, or the
    first 12 characters of a new [uuid4().hex]. *)
Definition resolved (uuid4_hex : list Retriever.call -> str)
    (session_id : option str) (w : Retriever.CellAvenueRAG) : str :=
  match session_id with
  | Some s => if truthy s then s else take 12 (uuid4_hex (Retriever.calls w))
  | None => take 12 (uuid4_hex (Retriever.calls w))
  end.

(** The last frames of a stream: nothing, the metadata, or an error. *)
Definition terminal (fs : list Api.frame) : Prop :=
  fs = [] \/ (exists m, fs = [Api.DataFrame m]) \/ (exists e, fs = [Api.ErrorFrame e]).

(** The turn that a request adds to its session. *)
Definition turn (question reply : str) : list Retriever.message :=
  [{| Retriever.role := lit "user"; Retriever.content := question |};
   {| Retriever.role := lit "assistant"; Retriever.content := reply |}].

(** A conversation of four turns, and its last three turns. *)
Definition LONG_CHAT : list Retriever.message :=
  turn (lit "hello") (lit "Welcome to Cell Avenue")
  ++ turn Scenario.QUESTION (lit "We have the A1 and the B2.")
  ++ turn (lit "prices?") (lit "A1: 99 KWD, B2: 120 KWD")
  ++ turn (lit "colours?") (lit "Black and blue").

Definition RECENT_CHAT : list Retriever.message := drop 2 LONG_CHAT.

(** A history of 20 messages. *)
Definition FULL_CHAT : list Retriever.message :=
  LONG_CHAT ++ LONG_CHAT ++ take 4 LONG_CHAT.

Definition rag_with (h : list Retriever.message) : Retriever.CellAvenueRAG :=
  {| Retriever._sessions := {[ Scenario.KEY := h ]}; Retriever.calls := [] |}.

(** A page made of navigation lines only. *)
Definition NAVIGATION_PAGE : str :=
  lit "Menu" ++ [NL] ++ lit "  Scroll up" ++ [NL] ++ lit "Add to wishlist".

End Notions.

(** * Properties *)

(** ** The matcher decides the language of a pattern *)

Module ReFacts.

Import Re.

Lemma lang_void (s : str) : ~ lang Void s.
Proof. intros H. inversion H. Qed.

Lemma lang_eps_inv (u : str) : lang Eps u -> u = [].
Proof. intros H. inversion H. reflexivity. Qed.

Lemma lang_chr_inv (p : N -> bool) (u : str) :
  lang (Chr p) u -> exists c, u = [c] /\ p c = true.
Proof. intros H. inversion H; subst. eauto. Qed.

Lemma lang_cat_inv (a b : re) (u : str) :
  lang (Cat a b) u -> exists s t, u = s ++ t /\ lang a s /\ lang b t.
Proof.
  intros H. inversion H; subst. eexists _, _.
  split; [reflexivity|]. split; assumption.
Qed.

Lemma lang_alt_inv (a b : re) (u : str) :
  lang (Alt a b) u -> lang a u \/ lang b u.
Proof. intros H. inversion H; subst; auto. Qed.

Lemma nullable_spec (r : re) : nullable r = true <-> lang r [].
Proof.
  induction r as [| |p|a IHa b IHb|a IHa b IHb|a IHa]; simpl; split; intros H.
  - discriminate.
  - destruct (lang_void _ H).
  - constructor.
  - reflexivity.
  - discriminate.
  - apply lang_chr_inv in H as (c & E & _). discriminate.
  - apply andb_prop in H as [Ha Hb].
    change (@nil N) with (@nil N ++ []).
    constructor; [apply IHa | apply IHb]; assumption.
  - apply lang_cat_inv in H as (s & t & E & Ha & Hb).
    symmetry in E. apply app_eq_nil in E as [-> ->].
    apply andb_true_intro. split; [apply IHa | apply IHb]; assumption.
  - apply orb_prop in H as [H|H];
      [apply lang_alt_l, IHa | apply lang_alt_r, IHb]; assumption.
  - apply lang_alt_inv in H as [H|H]; apply orb_true_intro;
      [left; apply IHa | right; apply IHb]; assumption.
  - constructor.
  - reflexivity.
Qed.

Lemma cat_spec (a b : re) (s : str) : lang (cat a b) s <-> lang (Cat a b) s.
Proof.
  assert (Hl : forall b, ~ lang (Cat Void b) s).
  { intros b' H. apply lang_cat_inv in H as (u & t & _ & H & _).
    destruct (lang_void _ H). }
  assert (Hr : forall a, ~ lang (Cat a Void) s).
  { intros a' H. apply lang_cat_inv in H as (u & t & _ & _ & H).
    destruct (lang_void _ H). }
  assert (He : forall b, lang b s <-> lang (Cat Eps b) s).
  { intros b'. split; intros H.
    - change s with ([] ++ s). constructor; [constructor | exact H].
    - apply lang_cat_inv in H as (u & t & -> & Hu & Ht).
      apply lang_eps_inv in Hu. subst u. exact Ht. }
  destruct a; destruct b; simpl;
    try tauto;
    try apply He;
    try (split; intros H; [destruct (lang_void _ H) | destruct (Hl _ H)]);
    try (split; intros H; [destruct (lang_void _ H) | destruct (Hr _ H)]).
Qed.

Lemma alt_spec (a b : re) (s : str) : lang (alt a b) s <-> lang (Alt a b) s.
Proof.
  assert (Hl : forall b, lang b s <-> lang (Alt Void b) s).
  { intros b'. split; intros H; [apply lang_alt_r; exact H|].
    apply lang_alt_inv in H as [H|H]; [destruct (lang_void _ H) | exact H]. }
  assert (Hr : forall a, lang a s <-> lang (Alt a Void) s).
  { intros a'. split; intros H; [apply lang_alt_l; exact H|].
    apply lang_alt_inv in H as [H|H]; [exact H | destruct (lang_void _ H)]. }
  destruct a; destruct b; simpl; try tauto; try apply Hl; try apply Hr.
Qed.

Lemma star_cons_inv (a : re) (c : N) (s : str) :
  lang (Star a) (c :: s) ->
  exists s1 s2, s = s1 ++ s2 /\ lang a (c :: s1) /\ lang (Star a) s2.
Proof.
  intros H. remember (Star a) as r eqn:Er. remember (c :: s) as u eqn:Eu.
  revert s Eu. induction H as [| | | | | |a' s' t Hs _ Ht IH]; intros u Eu;
    try discriminate.
  inversion Er; subst a'. destruct s' as [|x s'].
  - apply IH; [reflexivity | exact Eu].
  - simpl in Eu. inversion Eu; subst. exists s', t. auto.
Qed.

Lemma deriv_spec (c : N) (r : re) (s : str) :
  lang (deriv c r) s <-> lang r (c :: s).
Proof.
  revert s. induction r as [| |p|a IHa b IHb|a IHa b IHb|a IHa]; intros s; simpl.
  - split; intros H; destruct (lang_void _ H).
  - split; intros H; [destruct (lang_void _ H)|].
    apply lang_eps_inv in H. discriminate.
  - destruct (p c) eqn:E; split; intros H.
    + apply lang_eps_inv in H. subst s. constructor. exact E.
    + apply lang_chr_inv in H as (x & Ex & _). inversion Ex; subst. constructor.
    + destruct (lang_void _ H).
    + apply lang_chr_inv in H as (x & Ex & Hp). inversion Ex; subst. congruence.
  - assert (Hcat : lang (Cat (deriv c a) b) s <->
                   exists s1 t, s = s1 ++ t /\ lang a (c :: s1) /\ lang b t).
    { split.
      - intros H. apply lang_cat_inv in H as (s1 & t & -> & Ha & Hb).
        exists s1, t. split; [reflexivity|]. split; [apply IHa|]; assumption.
      - intros (s1 & t & -> & Ha & Hb). constructor; [apply IHa|]; assumption. }
    assert (Hinv : lang (Cat a b) (c :: s) ->
                   (lang a [] /\ lang b (c :: s))
                   \/ exists s1 t, s = s1 ++ t /\ lang a (c :: s1) /\ lang b t).
    { intros H. apply lang_cat_inv in H as (s0 & t & E & Ha & Hb).
      destruct s0 as [|x s0]; simpl in E.
      - subst t. left. auto.
      - inversion E; subst. right. eauto. }
    destruct (nullable a) eqn:En.
    + rewrite alt_spec. split.
      * intros H. apply lang_alt_inv in H as [H|H].
        -- apply cat_spec, Hcat in H as (s1 & t & -> & Ha & Hb).
           change (c :: s1 ++ t) with ((c :: s1) ++ t). constructor; assumption.
        -- change (c :: s) with ([] ++ c :: s).
           constructor; [apply nullable_spec; exact En | apply IHb; assumption].
      * intros H. apply Hinv in H as [[_ Hb]|H].
        -- apply lang_alt_r, IHb. exact Hb.
        -- apply lang_alt_l, cat_spec, Hcat. exact H.
    + rewrite cat_spec. split.
      * intros H. apply Hcat in H as (s1 & t & -> & Ha & Hb).
        change (c :: s1 ++ t) with ((c :: s1) ++ t). constructor; assumption.
      * intros H. apply Hinv in H as [[Ha _]|H].
        -- apply nullable_spec in Ha. congruence.
        -- apply Hcat. exact H.
  - rewrite alt_spec. split; intros H; apply lang_alt_inv in H as [H|H];
      solve [apply lang_alt_l, IHa; assumption | apply lang_alt_r, IHb; assumption].
  - rewrite cat_spec. split.
    + intros H. apply lang_cat_inv in H as (s1 & t & -> & Ha & Hs).
      change (c :: s1 ++ t) with ((c :: s1) ++ t).
      constructor; [apply IHa|]; assumption.
    + intros H. apply star_cons_inv in H as (s1 & s2 & -> & Ha & Hs).
      constructor; [apply IHa|]; assumption.
Qed.

(** [fullmatch] accepts the language of the pattern, [matches] the strings
    with a prefix in it. *)
Lemma fullmatch_spec (r : re) (s : str) : fullmatch r s = true <-> lang r s.
Proof.
  revert r. induction s as [|c s IH]; intros r; simpl.
  - apply nullable_spec.
  - rewrite IH. apply deriv_spec.
Qed.

Lemma matches_spec (r : re) (s : str) :
  matches r s = true <-> exists p t, s = p ++ t /\ lang r p.
Proof.
  revert r. induction s as [|c s IH]; intros r; simpl.
  - rewrite orb_false_r, nullable_spec. split.
    + intros H. exists [], []. auto.
    + intros (p & t & E & H). symmetry in E. apply app_eq_nil in E as [-> _]. exact H.
  - split.
    + intros H. apply orb_prop in H as [H|H].
      * exists [], (c :: s). split; [reflexivity | apply nullable_spec; exact H].
      * apply IH in H as (p & t & -> & H). exists (c :: p), t.
        split; [reflexivity | apply deriv_spec; exact H].
    + intros (p & t & E & H). apply orb_true_intro. destruct p as [|x p].
      * left. apply nullable_spec. exact H.
      * right. simpl in E. inversion E; subst. apply IH. exists p, t.
        split; [reflexivity | apply deriv_spec; exact H].
Qed.

(** [search] returns the leftmost position at which a match starts. *)
Lemma search_spec (r : re) (s : str) (i : nat) :
  search r s = Some i ->
  matches r (drop i s) = true
  /\ forall j, (j < i)%nat -> matches r (drop j s) = false.
Proof.
  revert i. induction s as [|c s IH]; intros i H.
  - cbn [search] in H. destruct (matches r []) eqn:E; [|discriminate].
    inversion H; subst. split; [exact E | intros j Hj; lia].
  - cbn [search] in H. destruct (matches r (c :: s)) eqn:E.
    + inversion H; subst. split; [exact E | intros j Hj; lia].
    + apply fmap_Some in H as (i' & Hi & ->).
      destruct (IH i' Hi) as [Hm Hleast]. split; [exact Hm|].
      intros [|j] Hj; [exact E|]. apply Hleast. lia.
Qed.

End ReFacts.

(** ** Joining and splitting *)

Section JoinFacts.

Context (sep : str).

Lemma join_cons_nonempty (x : str) (l : list str) :
  l ≠ [] -> join sep (x :: l) = x ++ sep ++ join sep l.
Proof. destruct l; [congruence | reflexivity]. Qed.

Lemma join_app_nonempty (l1 l2 : list str) :
  l1 ≠ [] -> l2 ≠ [] ->
  join sep (l1 ++ l2) = join sep l1 ++ sep ++ join sep l2.
Proof.
  induction l1 as [|x l1 IH]; intros H1 H2; [congruence|].
  destruct l1 as [|y l1].
  - simpl app. rewrite join_cons_nonempty by assumption. reflexivity.
  - change ((x :: y :: l1) ++ l2) with (x :: (y :: l1) ++ l2).
    rewrite join_cons_nonempty by (simpl; congruence).
    rewrite IH by (assumption || congruence).
    rewrite (join_cons_nonempty x (y :: l1)) by congruence.
    rewrite <- !app_assoc. reflexivity.
Qed.

Lemma join_snoc (l : list str) (x : str) :
  l ≠ [] -> join sep (l ++ [x]) = join sep l ++ sep ++ x.
Proof. intros H. rewrite join_app_nonempty by (assumption || congruence). reflexivity. Qed.

(** Two lists with the same joined text stay so when the same lines
    follow, provided they are empty together. *)
Lemma join_app_congr (a b l : list str) :
  join sep a = join sep b -> (a = [] <-> b = []) ->
  join sep (a ++ l) = join sep (b ++ l).
Proof.
  intros Hj He. destruct l as [|y l].
  - rewrite !app_nil_r. exact Hj.
  - destruct a as [|xa a].
    + rewrite (proj1 He eq_refl). reflexivity.
    + destruct b as [|xb b]; [destruct He as [_ He]; discriminate (He eq_refl)|].
      rewrite !join_app_nonempty by congruence. rewrite Hj. reflexivity.
Qed.

End JoinFacts.

Lemma split_nonempty (c : N) (s : str) : split c s ≠ [].
Proof.
  destruct s as [|x s]; simpl; [discriminate|].
  destruct (x =? c)%N; [discriminate|].
  destruct (split c s); discriminate.
Qed.

Lemma join_split (c : N) (s : str) : join [c] (split c s) = s.
Proof.
  induction s as [|x s IH]; [reflexivity|].
  pose proof (split_nonempty c s) as Hne.
  simpl split. destruct (N.eqb_spec x c) as [->|Hx].
  - rewrite join_cons_nonempty by assumption. rewrite IH. reflexivity.
  - destruct (split c s) as [|l ls]; [congruence|].
    destruct ls as [|l' ls].
    + simpl in IH |- *. rewrite IH. reflexivity.
    + rewrite join_cons_nonempty by congruence.
      rewrite join_cons_nonempty in IH by congruence.
      rewrite <- IH. reflexivity.
Qed.

Lemma len_app {A} (a b : list A) : len (a ++ b) = len a + len b.
Proof. unfold len. rewrite length_app. lia. Qed.

Lemma len_nonneg {A} (a : list A) : 0 <= len a.
Proof. unfold len. lia. Qed.

Lemma truthy_true {A} (l : list A) : truthy l = true <-> l ≠ [].
Proof. destruct l; simpl; split; congruence. Qed.

Lemma truthy_false {A} (l : list A) : truthy l = false <-> l = [].
Proof. destruct l; simpl; split; congruence. Qed.

(** ** The merge step of the chunker *)

Module ChunkerFacts.

Import Chunker Spec.

Lemma merge_step_pending (m : Z) (st : list str * str) (chunk : str) :
  chunk ≠ [] ->
  join SEP (pending (merge_step m st chunk)) = join SEP (pending st ++ [chunk])
  /\ pending (merge_step m st chunk) ≠ [].
Proof.
  intros Hc. destruct st as [merged buf]. unfold merge_step. cbv zeta.
  set (buf' := if truthy buf then buf ++ SEP ++ chunk else chunk).
  assert (Hb : truthy buf' = true).
  { apply truthy_true. subst buf'. destruct buf; simpl; [assumption | discriminate]. }
  assert (Hj : join SEP (merged ++ [buf'])
               = join SEP (pending (merged, buf) ++ [chunk])).
  { subst buf'. unfold pending. cbn [fst snd]. destruct buf as [|b buf]; cbn [truthy].
    - rewrite app_nil_r. reflexivity.
    - rewrite (join_snoc SEP (merged ++ [b :: buf])) by (destruct merged; discriminate).
      destruct merged as [|x merged]; [reflexivity|].
      rewrite !join_snoc by congruence. rewrite <- !app_assoc. reflexivity. }
  assert (Hn : merged ++ [buf'] ≠ []) by (destruct merged; discriminate).
  destruct (len buf' >=? m); unfold pending at 1 3; cbn [fst snd].
  - cbn [truthy]. rewrite app_nil_r. split; assumption.
  - rewrite Hb. split; assumption.
Qed.

Lemma merge_fold_pending (m : Z) (chunks : list str) (st : list str * str) :
  Forall (fun c => c ≠ []) chunks ->
  join SEP (pending (fold_left (merge_step m) chunks st))
  = join SEP (pending st ++ chunks).
Proof.
  revert st. induction chunks as [|c chunks IH]; intros st Hne.
  - simpl. rewrite app_nil_r. reflexivity.
  - inversion Hne as [|? ? Hc Hrest]; subst. cbn [fold_left].
    rewrite IH by assumption.
    destruct (merge_step_pending m st c Hc) as [Hj Hnil].
    change (pending st ++ c :: chunks) with (pending st ++ [c] ++ chunks).
    rewrite app_assoc. apply join_app_congr; [exact Hj|].
    split; intros E; [contradiction | destruct (pending st); discriminate].
Qed.

Lemma attach_to_last_snoc (l : list str) (x buf : str) :
  attach_to_last (l ++ [x]) buf = l ++ [x ++ SEP ++ buf].
Proof.
  unfold attach_to_last. rewrite last_snoc, length_app. simpl length.
  replace (Init.Nat.pred (length l + 1)) with (length l + 0)%nat by lia.
  rewrite insert_app_r. reflexivity.
Qed.

Lemma attach_to_last_join (merged : list str) (buf : str) :
  merged ≠ [] ->
  join SEP (attach_to_last merged buf) = join SEP (merged ++ [buf]).
Proof.
  intros Hne. destruct (exists_last Hne) as [l [x ->]].
  rewrite attach_to_last_snoc. destruct l as [|y l].
  - reflexivity.
  - rewrite !join_snoc by (try congruence; destruct l; discriminate).
    rewrite <- !app_assoc. reflexivity.
Qed.

(** The result of the merge, from the final state of the loop. *)
Lemma merge_small_chunks_pending (chunks : list str) (m : Z) :
  join SEP (merge_small_chunks chunks m)
  = join SEP (pending (fold_left (merge_step m) chunks ([], []))).
Proof.
  unfold merge_small_chunks. destruct chunks as [|c chunks]; [reflexivity|].
  simpl negb. cbv iota.
  destruct (fold_left (merge_step m) (c :: chunks) ([], [])) as [merged buf].
  unfold pending. simpl fst. simpl snd.
  destruct (truthy buf) eqn:Eb; [|rewrite app_nil_r; reflexivity].
  destruct (truthy merged) eqn:Em; [|reflexivity].
  apply attach_to_last_join. apply truthy_true. exact Em.
Qed.

(** Every span flushed by the loop reaches the threshold. *)
Lemma merge_fold_flushed (m : Z) (chunks : list str) (st : list str * str) :
  Forall (fun c => m <= len c) (fst st) ->
  Forall (fun c => m <= len c) (fst (fold_left (merge_step m) chunks st)).
Proof.
  revert st. induction chunks as [|c chunks IH]; intros [merged buf] H; [exact H|].
  cbn [fold_left]. apply IH. unfold merge_step. cbv zeta.
  set (buf' := if truthy buf then buf ++ SEP ++ c else c).
  destruct (Z.geb_spec (len buf') m) as [Hge|Hlt]; cbn [fst].
  - cbn [fst] in H. apply Forall_app. split; [exact H|].
    constructor; [lia | constructor].
  - exact H.
Qed.

Lemma merge_small_chunks_sizes (chunks : list str) (m : Z) :
  length (merge_small_chunks chunks m) = 1%nat
  \/ Forall (fun c => m <= len c) (merge_small_chunks chunks m).
Proof.
  unfold merge_small_chunks. destruct chunks as [|c chunks]; [right; constructor|].
  simpl negb. cbv iota.
  pose proof (merge_fold_flushed m (c :: chunks) ([], []) (Forall_nil_2 _)) as H.
  destruct (fold_left (merge_step m) (c :: chunks) ([], [])) as [merged buf].
  simpl in H.
  destruct (truthy buf) eqn:Eb; [|right; exact H].
  destruct (truthy merged) eqn:Em.
  - right. apply truthy_true in Em.
    destruct (exists_last Em) as [l [x ->]]. rewrite attach_to_last_snoc.
    apply Forall_app in H as [Hl Hx]. apply Forall_app. split; [exact Hl|].
    inversion Hx; subst. constructor; [|constructor].
    rewrite len_app. pose proof (len_nonneg (SEP ++ buf)). lia.
  - left. apply truthy_false in Em. subst merged. reflexivity.
Qed.

End ChunkerFacts.

Section ChunkerClaims.

Import Chunker Spec ChunkerFacts.

Variable sha256_hexdigest : str -> str.
Variable create_documents : list str -> str -> result (list str).

Local Abbreviation process_record := (process_record sha256_hexdigest create_documents).

Lemma imap_chunk_index {A} (f : nat -> A -> chunk_record) (l : list A) (k : nat) :
  (forall i x, chunk_index (f i x) = Z.of_nat (k + i)) ->
  map chunk_index (imap f l) = map Z.of_nat (seq k (length l)).
Proof.
  revert f k. induction l as [|x l IH]; intros f k Hf; [reflexivity|].
  simpl. rewrite Hf, Nat.add_0_r. f_equal.
  apply IH. intros i y. unfold compose. rewrite Hf. f_equal. lia.
Qed.

(** C4. The chunks that [process_record] returns for a document, which are
    the records that [main] writes for it, carry the indices 0, 1, ..., n-1
    in this order, and each of them has at least [MIN_CHUNK_CHARS]
    characters unless it is the only chunk of the document. The call fails
    only when the splitter does, and nothing is written then. *)
Theorem C4_chunk_indices_and_sizes (record : cleaned_record)
    (out_f : list chunk_record) (calls : list str) :
  match fst (process_record record calls) with
  | Ok chunks =>
    fst (emit_record sha256_hexdigest create_documents record out_f calls)
    = out_f ++ chunks
    /\ map chunk_index chunks = map Z.of_nat (seq 0 (length chunks))
    /\ (length chunks = 1%nat
        \/ Forall (fun c => MIN_CHUNK_CHARS <= len (text c)) chunks)
  | Raise e =>
    fst (emit_record sha256_hexdigest create_documents record out_f calls)
    = out_f
    /\ create_documents calls (get_or (rec_text record) []) = Raise e
  end.
Proof.
  unfold emit_record, Chunker.process_record.
  destruct (len (get_or (rec_text record) []) <? MIN_DOC_CHARS).
  - simpl. split; [reflexivity|]. split; [reflexivity | left; reflexivity].
  - destruct (create_documents calls (get_or (rec_text record) []))
      as [raw_chunks|e]; [|split; reflexivity].
    cbn [fst]. split; [reflexivity|]. split.
    + rewrite length_imap. apply imap_chunk_index. intros i x. reflexivity.
    + rewrite length_imap.
      destruct (merge_small_chunks_sizes raw_chunks MIN_CHUNK_CHARS) as [H1|HF];
        [left; exact H1 | right].
      apply Forall_forall. intros c Hc.
      apply elem_of_lookup_imap in Hc as (i & x & -> & Hx).
      simpl. rewrite Forall_forall in HF. apply HF.
      eapply list_elem_of_lookup_2. exact Hx.
Qed.

(** C5. A record whose text has fewer than [MIN_DOC_CHARS] characters gives
    exactly one chunk, with the whole text, index 0 and the length of the
    text as [char_count]; the log of the splitter calls is unchanged, so the
    splitter is not called. *)
Theorem C5_short_document_single_chunk (record : cleaned_record) (calls : list str) :
  len (get_or (rec_text record) []) < MIN_DOC_CHARS ->
  exists c,
    process_record record calls = (Ok [c], calls)
    /\ text c = get_or (rec_text record) []
    /\ chunk_index c = 0
    /\ char_count c = len (get_or (rec_text record) []).
Proof.
  intros Hlt. unfold Chunker.process_record.
  apply Z.ltb_lt in Hlt. rewrite Hlt.
  eexists. split; [reflexivity|]. simpl. auto.
Qed.

End ChunkerClaims.

(** C5 on a page of ten characters, with a splitter that would raise. *)
Lemma C5_short_document_witness :
  exists c,
    Chunker.process_record (fun _ => []) (fun _ _ => Raise [])
      Scenario.short_record []
    = (Ok [c], [])
    /\ Chunker.text c = lit "short page"
    /\ Chunker.chunk_index c = 0
    /\ Chunker.char_count c = 10.
Proof.
  apply (C5_short_document_single_chunk (fun _ => []) (fun _ _ => Raise [])
           Scenario.short_record []).
  vm_compute. reflexivity.
Defined.

(** C6, as stated, fails on an empty span: the loop takes an empty buffer for
    no buffer, and the separator that followed the empty span is lost. *)
Lemma C6_empty_span_counterexample :
  join Chunker.SEP
       (Chunker.merge_small_chunks [[]; lit "abc"] Chunker.MIN_CHUNK_CHARS)
  ≠ join Chunker.SEP [[]; lit "abc"].
Proof. vm_compute. discriminate. Qed.

(** C6, amended. When no input span is empty, joining the output of
    [merge_small_chunks] with the separator gives the same text as joining
    the input spans: nothing is lost and the order is kept. *)
Theorem C6_merge_preserves_joined_text (chunks : list str) (min_chars : Z) :
  Forall (fun c => c ≠ []) chunks ->
  join Chunker.SEP (Chunker.merge_small_chunks chunks min_chars)
  = join Chunker.SEP chunks.
Proof.
  intros Hne. rewrite ChunkerFacts.merge_small_chunks_pending.
  rewrite ChunkerFacts.merge_fold_pending by assumption. reflexivity.
Qed.

(** C6, amended, on three short spans that the loop merges into one. *)
Lemma C6_merge_witness :
  join Chunker.SEP
       (Chunker.merge_small_chunks [lit "ab"; lit "cd"; lit "e"] 5)
  = join Chunker.SEP [lit "ab"; lit "cd"; lit "e"].
Proof.
  apply (C6_merge_preserves_joined_text [lit "ab"; lit "cd"; lit "e"] 5).
  repeat constructor; vm_compute; discriminate.
Defined.

(** ** The session store *)

Module SessionFacts.

Import Retriever Spec.

Lemma last_n_short {A} (n : nat) (l : list A) :
  (length l <= n)%nat -> last_n n l = l.
Proof.
  intros H. unfold last_n. replace (length l - n)%nat with O by lia. reflexivity.
Qed.

Lemma last_n_length {A} (n : nat) (l : list A) : (length (last_n n l) <= n)%nat.
Proof. unfold last_n. rewrite length_drop. lia. Qed.

Lemma last_n_suffix {A} (n : nat) (l : list A) : last_n n l `suffix_of` l.
Proof. unfold last_n. apply suffix_drop. Qed.

Lemma sessions_append (session_id role content : str) (w : CellAvenueRAG) :
  _append_to_session session_id role content w
  = (Ok tt,
     set_sessions
       (<[session_id :=
            last_n LIMIT (history_of w session_id
                          ++ [{| role := role; content := content |}])]>
          (_sessions w)) w).
Proof.
  unfold _append_to_session, sessions_getitem, history_of.
  set (msg := {| role := role; content := content |}).
  destruct (_sessions w !! session_id) as [h|] eqn:E; cbn [default from_option id].
  - destruct (Z.gtb_spec (len (h ++ [msg])) (MAX_HISTORY_TURNS * 2)) as [Hgt|Hle].
    + rewrite insert_insert_eq. reflexivity.
    + rewrite last_n_short; [reflexivity|]. unfold LIMIT, len in *. lia.
  - destruct (Z.gtb_spec (len ([] ++ [msg])) (MAX_HISTORY_TURNS * 2)) as [Hgt|Hle].
    + rewrite !insert_insert_eq. reflexivity.
    + rewrite insert_insert_eq.
      rewrite last_n_short; [reflexivity|]. unfold LIMIT, len in *. lia.
Qed.

Lemma history_of_insert (session_id : str) (h : list message)
    (s : gmap str (list message)) (w : CellAvenueRAG) :
  history_of (set_sessions (<[session_id := h]> s) w) session_id = h.
Proof. unfold history_of. cbn. rewrite lookup_insert_eq. reflexivity. Qed.

End SessionFacts.

Section SessionClaims.

Import Retriever Spec SessionFacts.

(** C3. After [_append_to_session] the history of the session is the old
    history followed by the new message, cut to its last
    [2 * MAX_HISTORY_TURNS] entries: it has at most 20 messages, it ends the
    untrimmed sequence, so what was dropped is its oldest part, and no other
    session is touched. *)
Theorem C3_append_trims_oldest (session_id role content : str) (w : CellAvenueRAG) :
  let msg := {| role := role; content := content |} in
  let w' := snd (_append_to_session session_id role content w) in
  fst (_append_to_session session_id role content w) = Ok tt
  /\ _sessions w' !! session_id
     = Some (last_n 20 (history_of w session_id ++ [msg]))
  /\ len (history_of w' session_id) <= 2 * MAX_HISTORY_TURNS
  /\ len (history_of w' session_id) <= 20
  /\ history_of w' session_id `suffix_of` (history_of w session_id ++ [msg])
  /\ (forall other, other ≠ session_id ->
        _sessions w' !! other = _sessions w !! other).
Proof.
  intros msg w'. subst w'. rewrite sessions_append. cbn [fst snd].
  rewrite !history_of_insert. fold msg. change LIMIT with 20%nat.
  pose proof (last_n_length 20 (history_of w session_id ++ [msg])) as Hlen.
  split; [reflexivity|]. split.
  { cbn [_sessions set_sessions]. rewrite lookup_insert_eq. reflexivity. }
  split; [unfold MAX_HISTORY_TURNS, len; lia|].
  split; [unfold len; lia|].
  split; [apply last_n_suffix|].
  intros other Hne. cbn [_sessions set_sessions].
  rewrite lookup_insert_ne by congruence. reflexivity.
Qed.

End SessionClaims.

(** ** The query engine *)

Section QueryEngine.

Import Retriever Spec SessionFacts.

Variable uuid4_hex : list call -> str.
Variable llm_invoke : list call -> llm_input -> result str.
Variable llm_stream : list call -> list lc_message -> list str * option str.
Variable retriever_invoke : list call -> str -> result (list Document).
Variable now_isoformat : list call -> str.

Local Abbreviation create_session := (create_session uuid4_hex).
Local Abbreviation resolve_session := (resolve_session uuid4_hex).
Local Abbreviation _rewrite_with_context := (_rewrite_with_context llm_invoke).
Local Abbreviation prepare :=
  (prepare uuid4_hex llm_invoke retriever_invoke).
Local Abbreviation query :=
  (query uuid4_hex llm_invoke retriever_invoke now_isoformat).
Local Abbreviation stream_loop := (stream_loop now_isoformat).
Local Abbreviation gen_next :=
  (gen_next uuid4_hex llm_invoke llm_stream retriever_invoke now_isoformat).
Local Abbreviation consume :=
  (consume uuid4_hex llm_invoke llm_stream retriever_invoke now_isoformat).

Lemma bind_inv {A B} (m : M A) (k : A -> M B) (w w' : CellAvenueRAG)
    (r : result B) :
  bind m k w = (r, w') ->
  (exists a w1, m w = (Ok a, w1) /\ k a w1 = (r, w'))
  \/ (exists e, m w = (Raise e, w') /\ r = Raise e).
Proof.
  unfold bind. destruct (m w) as [[a|e] w1]; intros H.
  - left. eauto.
  - right. inversion H; subst. eauto.
Qed.

(** The session id that a request runs with, and the object after the
    resolution: the id supplied when there is one, else a new id with an
    empty history. *)
Lemma resolve_session_supplied (s : str) (w : CellAvenueRAG) :
  s ≠ [] -> resolve_session (Some s) w = (Ok s, w).
Proof. intros H. apply truthy_true in H. unfold Retriever.resolve_session. rewrite H. reflexivity. Qed.

Lemma create_session_eq (w : CellAvenueRAG) :
  create_session w
  = (Ok (take 12 (uuid4_hex (calls w))),
     {| _sessions := <[take 12 (uuid4_hex (calls w)) := []]> (_sessions w);
        calls := calls w ++ [CallUuid4] |}).
Proof. reflexivity. Qed.

Lemma resolve_session_ok (session_id : option str) (w : CellAvenueRAG) :
  exists k, fst (resolve_session session_id w) = Ok k
            /\ history_of (snd (resolve_session session_id w)) k
               = match session_id with
                 | Some s => if truthy s then history_of w s else []
                 | None => []
                 end.
Proof.
  destruct session_id as [s|]; cbn [Retriever.resolve_session].
  - destruct (truthy s) eqn:E.
    + exists s. split; reflexivity.
    + eexists. rewrite create_session_eq. cbn [fst snd]. split; [reflexivity|].
      unfold history_of. cbn [_sessions]. rewrite lookup_insert_eq. reflexivity.
  - eexists. rewrite create_session_eq. cbn [fst snd]. split; [reflexivity|].
    unfold history_of. cbn [_sessions]. rewrite lookup_insert_eq. reflexivity.
Qed.

Lemma rewrite_sessions (question : str) (history : list message)
    (w : CellAvenueRAG) :
  _sessions (snd (_rewrite_with_context question history w)) = _sessions w.
Proof.
  unfold Retriever._rewrite_with_context.
  destruct (truthy history); cbn [negb]; [|reflexivity].
  unfold bind, external. destruct (llm_invoke _ _); reflexivity.
Qed.

Lemma rewrite_inv (question : str) (history : list message)
    (w w' : CellAvenueRAG) (r : result str) :
  _rewrite_with_context question history w = (r, w') ->
  _sessions w' = _sessions w.
Proof.
  intros H. pose proof (rewrite_sessions question history w) as Hs.
  rewrite H in Hs. exact Hs.
Qed.

(** Up to the call of the chat model, only the resolution of the session
    writes to the store; the session that the request runs with is the
    resolved one. *)
Lemma prepare_inv (question : str) (session_id : option str)
    (w w' : CellAvenueRAG) (r : result prepared) :
  prepare question session_id w = (r, w') ->
  exists k w1,
    resolve_session session_id w = (Ok k, w1)
    /\ _sessions w' = _sessions w1
    /\ forall p, r = Ok p -> p_session_id p = k.
Proof.
  intros H. unfold Retriever.prepare in H.
  apply bind_inv in H as [(k & w1 & Hres & H)|(e & Hres & _)].
  2:{ destruct (resolve_session_ok session_id w) as [k [Hk _]].
      rewrite Hres in Hk. discriminate. }
  exists k, w1. split; [exact Hres|].
  apply bind_inv in H as [(h & w1' & Hget & H)|(e & Hget & _)];
    [|discriminate Hget].
  unfold get_session_history in Hget. inversion Hget; subst h w1'. clear Hget.
  apply bind_inv in H as [(sq & w2 & Hrw & H)|(e & Hrw & ->)].
  - apply rewrite_inv in Hrw.
    apply bind_inv in H as [(docs & w3 & Hret & H)|(e & Hret & ->)].
    + unfold external in Hret. inversion Hret; subst w3. clear Hret.
      unfold ret in H. inversion H; subst. cbn [_sessions].
      split; [exact Hrw|]. intros p Hp. inversion Hp; subst. reflexivity.
    + unfold external in Hret. inversion Hret; subst. cbn [_sessions].
      split; [exact Hrw|]. intros p Hp. discriminate.
  - apply rewrite_inv in Hrw. split; [exact Hrw|]. intros p Hp. discriminate.
Qed.

Lemma last_n_snoc {A} (n : nat) (l : list A) (x : A) :
  (0 < n)%nat -> last_n n (last_n n l ++ [x]) = last_n n (l ++ [x]).
Proof.
  intros Hn. destruct (Nat.le_gt_cases (length l) n) as [Hle|Hgt].
  - rewrite (last_n_short n l) by assumption. reflexivity.
  - unfold last_n. rewrite !length_app, length_drop. cbn [length].
    rewrite !drop_app_le by (rewrite ?length_drop; lia).
    rewrite drop_drop. f_equal. f_equal. lia.
Qed.

Lemma append_twice (w : CellAvenueRAG) (k question reply : str) :
  _sessions
    (snd (_append_to_session k (lit "assistant") reply
            (snd (_append_to_session k (lit "user") question w))))
  = saved w k question reply.
Proof.
  rewrite !sessions_append. cbn [snd].
  rewrite history_of_insert. cbn [_sessions set_sessions].
  rewrite insert_insert_eq. unfold saved. change LIMIT with 20%nat.
  rewrite last_n_snoc by lia. rewrite <- app_assoc. reflexivity.
Qed.

(** The store after the two appends that follow the generation. *)
Lemma save_sessions (w1 w2 : CellAvenueRAG) (k question reply : str) :
  _sessions w2 = _sessions w1 ->
  _sessions
    (snd (_append_to_session k (lit "assistant") reply
            (snd (_append_to_session k (lit "user") question w2))))
  = saved w1 k question reply.
Proof.
  intros Hs. rewrite append_twice. unfold saved, history_of. rewrite Hs.
  reflexivity.
Qed.

(** [query]: an exception leaves the store as the resolution of the session
    left it, and a normal return has made the two appends, in order, on the
    session returned. *)
Lemma query_outcome (question : str) (session_id : option str)
    (w w' : CellAvenueRAG) (r : result response) :
  query question session_id w = (r, w') ->
  exists k w1,
    resolve_session session_id w = (Ok k, w1)
    /\ match r with
       | Raise _ => _sessions w' = _sessions w1
       | Ok resp =>
         Retriever.session_id resp = k
         /\ _sessions w' = saved w1 k question (answer resp)
       end.
Proof.
  intros H. unfold Retriever.query in H.
  apply bind_inv in H as [(p & w2 & Hp & H)|(e & Hp & ->)].
  2:{ apply prepare_inv in Hp as (k & w1 & Hres & Hs & _). eauto. }
  apply prepare_inv in Hp as (k & w1 & Hres & Hs & Hk).
  specialize (Hk p eq_refl). exists k, w1. split; [exact Hres|].
  apply bind_inv in H as [(a & w3 & Hllm & H)|(e & Hllm & ->)].
  2:{ unfold external in Hllm. inversion Hllm; subst. exact Hs. }
  unfold external in Hllm. inversion Hllm as [[Ha Hw3]]. clear Hllm.
  apply bind_inv in H as [(u1 & w4 & Hu & H)|(e & Hu & _)].
  2:{ rewrite sessions_append in Hu. discriminate. }
  apply bind_inv in H as [(u2 & w5 & Ha2 & H)|(e & Ha2 & _)].
  2:{ rewrite sessions_append in Ha2. discriminate. }
  apply bind_inv in H as [(now & w6 & Hn & H)|(e & Hn & _)].
  2:{ unfold external in Hn. discriminate. }
  unfold ret in H. inversion H; subst r w'. clear H. cbn [Retriever.session_id answer].
  split; [exact Hk|].
  unfold external in Hn. inversion Hn; subst w6. cbn [_sessions].
  assert (E4 : w4 = snd (_append_to_session (p_session_id p) (lit "user") question w3))
    by (rewrite Hu; reflexivity).
  assert (E5 : w5 = snd (_append_to_session (p_session_id p) (lit "assistant") a w4))
    by (rewrite Ha2; reflexivity).
  rewrite E5, E4, <- Hk. apply save_sessions.
  rewrite <- Hw3. cbn [_sessions]. exact Hs.
Qed.

(** *** The generator *)

Lemma token_results_no_metadata (chunks : list str) :
  existsb yields_metadata (token_results chunks) = false.
Proof.
  unfold token_results. induction (List.filter truthy chunks); [reflexivity|].
  simpl. assumption.
Qed.

(** A consumer of the generator, from a state inside the loop: either no
    metadata was yielded and the object is untouched, or the stream has
    ended normally, every token was yielded before the metadata, and the
    two appends were made with the whole response. *)
Lemma consume_streaming (question : str) (p : prepared) (ending : option str)
    (pending : list str) :
  forall (n : nat) (full : str) (w w' : CellAvenueRAG)
         (rs : list next_result) (g : gen_state),
    consume n (GenStreaming question p full pending ending) w = (rs, g, w') ->
    (existsb yields_metadata rs = false /\ w' = w)
    \/ (ending = None
        /\ exists m tail,
            rs = token_results pending ++ Yield (Metadata m) :: tail
            /\ (tail = [] \/ tail = [StopIteration])
            /\ meta_session_id m = p_session_id p
            /\ _sessions w'
               = saved w (p_session_id p) question (full ++ concat pending)).
Proof.
  induction pending as [|token pending IH]; intros n full w w' rs g H.
  - destruct n as [|n]; cbn [Retriever.consume] in H.
    { inversion H; subst. left. split; reflexivity. }
    cbn [Retriever.gen_next Retriever.stream_loop] in H.
    destruct ending as [e|].
    { inversion H; subst. left. split; reflexivity. }
    unfold bind at 1 in H. rewrite sessions_append in H. cbv beta iota in H.
    unfold bind at 1 in H. rewrite sessions_append in H. cbv beta iota in H.
    unfold bind, external, ret in H. cbv beta iota in H.
    right. split; [reflexivity|].
    assert (Hs : forall w'', _sessions w'' =
                  _sessions (snd (_append_to_session (p_session_id p) (lit "assistant") full
                     (snd (_append_to_session (p_session_id p) (lit "user") question w)))) ->
                  _sessions w'' = saved w (p_session_id p) question (full ++ concat [])).
    { intros w'' ->. rewrite append_twice. cbn [concat]. rewrite app_nil_r. reflexivity. }
    rewrite !sessions_append in Hs. cbn [snd] in Hs.
    destruct n as [|n]; cbn [Retriever.consume Retriever.gen_next] in H;
      inversion H; subst; eexists; eexists;
      (split; [reflexivity|]); (split; [auto|]); (split; [reflexivity|]);
      apply Hs; reflexivity.
  - destruct n as [|n].
    { cbn [Retriever.consume] in H. inversion H; subst. left. split; reflexivity. }
    destruct (truthy token) eqn:Et.
    + cbn [Retriever.consume Retriever.gen_next Retriever.stream_loop] in H.
      rewrite Et in H.
      destruct (consume n (GenStreaming question p (full ++ token) pending ending) w)
        as [[rs1 g1] w1] eqn:E.
      inversion H; subst. clear H.
      apply IH in E as [[Hno ->]|[-> (m & tail & -> & Htail & Hm & Hs)]].
      * left. split; [exact Hno | reflexivity].
      * right. split; [reflexivity|]. exists m, tail.
        unfold token_results. cbn [List.filter]. rewrite Et. cbn [map concat].
        split; [reflexivity|]. split; [exact Htail|]. split; [exact Hm|].
        rewrite Hs. rewrite <- app_assoc. reflexivity.
    + assert (Hstep : consume (S n) (GenStreaming question p full (token :: pending) ending) w
                      = consume (S n) (GenStreaming question p full pending ending) w).
      { cbn [Retriever.consume Retriever.gen_next Retriever.stream_loop].
        rewrite Et. reflexivity. }
      rewrite Hstep in H.
      apply IH in H as [[Hno ->]|[-> (m & tail & -> & Htail & Hm & Hs)]].
      * left. split; [exact Hno | reflexivity].
      * right. split; [reflexivity|]. exists m, tail.
        unfold token_results. cbn [List.filter]. rewrite Et.
        split; [reflexivity|]. split; [exact Htail|]. split; [exact Hm|].
        apply truthy_false in Et. subst token. rewrite Hs. reflexivity.
Qed.

(** A consumer that reads on after the last token of a stream that ends
    normally receives the metadata. *)
Lemma consume_streaming_drains (question : str) (p : prepared)
    (pending : list str) :
  forall (n : nat) (full : str) (w : CellAvenueRAG),
    (length (List.filter truthy pending) < n)%nat ->
    exists m tail g w',
      consume n (GenStreaming question p full pending None) w
      = (token_results pending ++ Yield (Metadata m) :: tail, g, w').
Proof.
  induction pending as [|token pending IH]; intros n full w Hn.
  - destruct n as [|n]; [cbn in Hn; lia|].
    cbn [Retriever.consume Retriever.gen_next Retriever.stream_loop].
    unfold bind at 1. rewrite sessions_append. cbv beta iota.
    unfold bind at 1. rewrite sessions_append. cbv beta iota.
    unfold bind, external, ret. cbv beta iota.
    destruct n as [|n]; cbn [Retriever.consume Retriever.gen_next];
      eexists _, _, _, _; reflexivity.
  - destruct n as [|n]; [lia|]. destruct (truthy token) eqn:Et.
    + cbn [List.filter] in Hn. rewrite Et in Hn. cbn [length] in Hn.
      destruct (IH n (full ++ token) w) as (m & tail & g & w' & E); [lia|].
      cbn [Retriever.consume Retriever.gen_next Retriever.stream_loop].
      rewrite Et, E. exists m, tail, g, w'.
      unfold token_results. cbn [List.filter]. rewrite Et. reflexivity.
    + cbn [List.filter] in Hn. rewrite Et in Hn.
      destruct (IH (S n) full w Hn) as (m & tail & g & w' & E).
      exists m, tail, g, w'.
      unfold token_results in *. cbn [List.filter]. rewrite Et, <- E.
      cbn [Retriever.consume Retriever.gen_next Retriever.stream_loop].
      rewrite Et. reflexivity.
Qed.

Lemma consume_created_drains (question : str) (session_id : option str)
    (w w2 : CellAvenueRAG) (p : prepared) (chunks : list str) (n : nat) :
  prepare question session_id w = (Ok p, w2) ->
  llm_stream (calls w2) (p_messages p) = (chunks, None) ->
  (length (List.filter truthy chunks) < n)%nat ->
  exists m tail g w',
    consume n (query_stream question session_id) w
    = (token_results chunks ++ Yield (Metadata m) :: tail, g, w').
Proof.
  intros Hp Hstream Hn. destruct n as [|n]; [lia|].
  destruct (consume_streaming_drains question p chunks (S n) []
              {| _sessions := _sessions w2;
                 calls := calls w2 ++ [CallLlmStream (p_messages p)] |} Hn)
    as (m & tail & g & w' & E).
  exists m, tail, g, w'. rewrite <- E. unfold query_stream.
  cbn [Retriever.consume Retriever.gen_next].
  unfold bind at 1. rewrite Hp. unfold bind, external, ret.
  rewrite Hstream. reflexivity.
Qed.

(** [query] returns when the preparation and the chat model do. *)
Lemma query_returns (question : str) (session_id : option str)
    (w w2 : CellAvenueRAG) (p : prepared) (reply : str) :
  prepare question session_id w = (Ok p, w2) ->
  llm_invoke (calls w2) (Messages (p_messages p)) = Ok reply ->
  exists resp w',
    query question session_id w = (Ok resp, w')
    /\ answer resp = reply
    /\ Retriever.session_id resp = p_session_id p.
Proof.
  intros Hp Hllm. unfold Retriever.query.
  unfold bind at 1. rewrite Hp.
  unfold bind at 1. unfold external at 1. rewrite Hllm.
  unfold bind at 1. rewrite sessions_append.
  unfold bind at 1. rewrite sessions_append.
  unfold bind, external, ret. eexists _, _. split; [reflexivity|].
  split; reflexivity.
Qed.

Lemma saved_ext (w v : CellAvenueRAG) (k question reply : str) :
  _sessions w = _sessions v -> saved w k question reply = saved v k question reply.
Proof. intros H. unfold saved, history_of. rewrite H. reflexivity. Qed.

(** The same, from the creation of the generator. *)
Lemma consume_created (question : str) (session_id : option str) (n : nat)
    (w w' : CellAvenueRAG) (rs : list next_result) (g : gen_state) :
  consume n (query_stream question session_id) w = (rs, g, w') ->
  exists k w1,
    resolve_session session_id w = (Ok k, w1)
    /\ ((existsb yields_metadata rs = false
         /\ ((rs = [] /\ w' = w) \/ _sessions w' = _sessions w1))
        \/ (exists p w2 chunks m tail,
              prepare question session_id w = (Ok p, w2)
              /\ llm_stream (calls w2) (p_messages p) = (chunks, None)
              /\ rs = token_results chunks ++ Yield (Metadata m) :: tail
              /\ (tail = [] \/ tail = [StopIteration])
              /\ meta_session_id m = k
              /\ _sessions w' = saved w1 k question (concat chunks))).
Proof.
  intros H. unfold query_stream in H.
  destruct (prepare question session_id w) as [r w2] eqn:Hp.
  destruct (prepare_inv _ _ _ _ _ Hp) as (k & w1 & Hres & Hs & Hk).
  exists k, w1. split; [exact Hres|].
  destruct n as [|n].
  { cbn [Retriever.consume] in H. inversion H; subst. left. split; [reflexivity|].
    left. split; reflexivity. }
  destruct r as [p|e].
  - specialize (Hk p eq_refl).
    destruct (llm_stream (calls w2) (p_messages p)) as [chunks ending] eqn:Hstream.
    set (w3 := {| _sessions := _sessions w2;
                  calls := calls w2 ++ [CallLlmStream (p_messages p)] |}).
    assert (Hstep : consume (S n) (GenCreated question session_id) w
                    = consume (S n) (GenStreaming question p [] chunks ending) w3).
    { cbn [Retriever.consume Retriever.gen_next].
      unfold bind at 1. rewrite Hp. unfold bind, external, ret.
      rewrite Hstream. reflexivity. }
    rewrite Hstep in H.
    apply consume_streaming in H as [[Hno ->]|[-> (m & tail & -> & Htail & Hm & Hsv)]].
    + left. split; [exact Hno|]. right. exact Hs.
    + right. exists p, w2, chunks, m, tail.
      split; [reflexivity|]. split; [exact Hstream|]. split; [reflexivity|].
      split; [exact Htail|]. split; [congruence|].
      rewrite Hsv, Hk. cbn [app]. apply saved_ext. cbn [_sessions]. exact Hs.
  - cbn [Retriever.consume Retriever.gen_next] in H.
    unfold bind at 1 in H. rewrite Hp in H. inversion H; subst.
    left. split; [reflexivity|]. right. exact Hs.
Qed.

(** *** Requests on a session without history *)

(** [query] on a session whose history is empty: no rewrite call is made,
    the retriever receives the question, the chat model receives no history,
    and only the retriever or the chat model can make the request fail. *)
Lemma query_on_empty_history (question : str) (session_id : option str)
    (w w1 : CellAvenueRAG) (k : str) :
  resolve_session session_id w = (Ok k, w1) ->
  history_of w1 k = [] ->
  query question session_id w
  = match retriever_invoke (calls w1) question with
    | Raise e =>
      (Raise e, {| _sessions := _sessions w1;
                   calls := calls w1 ++ [CallRetriever question] |})
    | Ok docs =>
      let input := Messages (fresh_messages docs question) in
      match llm_invoke (calls w1 ++ [CallRetriever question]) input with
      | Raise e =>
        (Raise e,
         {| _sessions := _sessions w1;
            calls := (calls w1 ++ [CallRetriever question])
                     ++ [CallLlmInvoke input] |})
      | Ok reply =>
        (Ok {| answer := reply;
               citations := _extract_citations docs;
               language := detect_language question;
               as_of := now_isoformat ((calls w1 ++ [CallRetriever question])
                                       ++ [CallLlmInvoke input]);
               chunks_used := len docs;
               Retriever.session_id := k |},
         {| _sessions :=
              <[k := [{| role := lit "user"; content := question |};
                      {| role := lit "assistant"; content := reply |}]]>
                (_sessions w1);
            calls := ((calls w1 ++ [CallRetriever question])
                      ++ [CallLlmInvoke input]) ++ [CallNow] |})
      end
    end.
Proof.
  intros Hres Hh. unfold Retriever.query, Retriever.prepare.
  unfold bind at 1. unfold bind at 1. rewrite Hres.
  unfold bind at 1. unfold get_session_history at 1.
  unfold history_of in Hh. rewrite Hh.
  unfold bind at 1. cbn [Retriever._rewrite_with_context truthy negb ret].
  unfold bind at 1. unfold external at 1.
  destruct (retriever_invoke (calls w1) question) as [docs|e]; [|reflexivity].
  cbn [ret p_messages p_session_id p_docs p_citations p_language calls _sessions].
  unfold bind at 1. unfold external at 1. cbn [calls _sessions].
  change ([SystemMessage (SYSTEM_PROMPT (_format_docs docs))]
          ++ map history_msg (last_n 6 []) ++ [HumanMessage question])
    with (fresh_messages docs question).
  destruct (llm_invoke (calls w1 ++ [CallRetriever question])
              (Messages (fresh_messages docs question))) as [reply|e];
    [|reflexivity].
  unfold bind at 1. rewrite sessions_append.
  unfold bind at 1. rewrite sessions_append.
  unfold bind, external, ret. cbn [calls _sessions set_sessions].
  rewrite history_of_insert. unfold history_of. cbn [_sessions]. rewrite Hh.
  rewrite insert_insert_eq. reflexivity.
Qed.

Lemma metadata_not_in (rs : list next_result) (m : stream_metadata) :
  existsb yields_metadata rs = false -> Yield (Metadata m) ∉ rs.
Proof.
  intros H Hin. apply list_elem_of_In in Hin.
  assert (existsb yields_metadata rs = true) as E
    by (apply existsb_exists; exists (Yield (Metadata m)); split; [assumption | reflexivity]).
  congruence.
Qed.

Lemma metadata_unique (chunks : list str) (m m0 : stream_metadata)
    (tail : list next_result) :
  tail = [] \/ tail = [StopIteration] ->
  Yield (Metadata m) ∈ token_results chunks ++ Yield (Metadata m0) :: tail ->
  m = m0.
Proof.
  intros Ht Hin. apply elem_of_app in Hin as [Hin|Hin].
  - exfalso. revert Hin. apply metadata_not_in, token_results_no_metadata.
  - apply elem_of_cons in Hin as [Hin|Hin]; [congruence|].
    destruct Ht as [->| ->].
    + apply elem_of_nil in Hin. contradiction.
    + apply list_elem_of_singleton in Hin. discriminate.
Qed.

Lemma raised_not_in (chunks : list str) (m : stream_metadata) (e : str)
    (tail : list next_result) :
  tail = [] \/ tail = [StopIteration] ->
  Raised e ∉ token_results chunks ++ Yield (Metadata m) :: tail.
Proof.
  intros Ht Hin. apply elem_of_app in Hin as [Hin|Hin].
  - unfold token_results in Hin. apply list_elem_of_fmap in Hin as (t & Ht' & _).
    discriminate.
  - apply elem_of_cons in Hin as [Hin|Hin]; [discriminate|].
    destruct Ht as [->| ->].
    + apply elem_of_nil in Hin. contradiction.
    + apply list_elem_of_singleton in Hin. discriminate.
Qed.

Lemma error_frame_raised (rs : list next_result) (e : str) :
  Api.ErrorFrame e ∈ concat (map Api.frame_of rs) -> Raised e ∈ rs.
Proof.
  induction rs as [|r rs IH]; cbn [map concat]; intros H.
  - apply elem_of_nil in H. contradiction.
  - apply elem_of_app in H as [H|H]; [|right; apply IH; exact H].
    destruct r as [[t|m]| |e']; cbn [Api.frame_of] in H.
    + apply list_elem_of_singleton in H. discriminate.
    + apply list_elem_of_singleton in H. discriminate.
    + apply elem_of_nil in H. contradiction.
    + apply list_elem_of_singleton in H. inversion H; subst. left.
Qed.

(** *** The claims on the query engine *)

(** C1. A request that ends by an exception appends nothing: the store is
    what the resolution of the session left, which for a supplied id is the
    store before the request; for a request without id the resolution has
    set the entry of the new id to the empty history, which empties a
    session of the store if the draw repeats its id. A request that returns, as it does when
    the preparation and the chat model return, has appended the question and
    then the answer to its session. For [query_stream] the same holds at
    every point of the consumption: as long as the metadata item has not
    been yielded, and whenever the generator raises, nothing was appended;
    the metadata comes after every token of a stream that ended normally,
    and the session then holds the question and the whole response; a
    consumer that reads on to the end of such a stream does receive the
    metadata. The handlers of the API inherit this: an answer 500 of [chat]
    and an error frame of [chat_stream] come with a store to which nothing
    was appended. *)
Theorem C1_no_partial_append (question : str) (session_id : option str)
    (w : CellAvenueRAG) :
  let w1 := snd (resolve_session session_id w) in
  let minted := take 12 (uuid4_hex (calls w)) in
  match session_id with
  | Some s => if truthy s then w1 = w
              else _sessions w1 = <[minted := []]> (_sessions w)
  | None => _sessions w1 = <[minted := []]> (_sessions w)
  end
  /\ (forall r w', query question session_id w = (r, w') ->
        match r with
        | Raise _ => _sessions w' = _sessions w1
        | Ok resp =>
          _sessions w'
          = saved w1 (Retriever.session_id resp) question (answer resp)
        end)
  /\ (forall n rs g w',
        consume n (query_stream question session_id) w = (rs, g, w') ->
        (existsb yields_metadata rs = false ->
           (rs = [] /\ w' = w) \/ _sessions w' = _sessions w1)
        /\ (forall e, Raised e ∈ rs -> _sessions w' = _sessions w1)
        /\ (forall m, Yield (Metadata m) ∈ rs ->
              exists p w2 chunks tail,
                prepare question session_id w = (Ok p, w2)
                /\ llm_stream (calls w2) (p_messages p) = (chunks, None)
                /\ rs = token_results chunks ++ Yield (Metadata m) :: tail
                /\ _sessions w'
                   = saved w1 (meta_session_id m) question (concat chunks)))
  /\ (forall p w2 reply,
        prepare question session_id w = (Ok p, w2) ->
        llm_invoke (calls w2) (Messages (p_messages p)) = Ok reply ->
        exists resp w',
          query question session_id w = (Ok resp, w')
          /\ answer resp = reply)
  /\ (forall p w2 chunks n,
        prepare question session_id w = (Ok p, w2) ->
        llm_stream (calls w2) (p_messages p) = (chunks, None) ->
        (length (List.filter truthy chunks) < n)%nat ->
        exists m tail g w',
          consume n (query_stream question session_id) w
          = (token_results chunks ++ Yield (Metadata m) :: tail, g, w'))
  /\ (forall status detail g',
        Api.chat uuid4_hex llm_invoke retriever_invoke now_isoformat (Some w)
                 {| Api.question := question; Api.req_session_id := session_id |}
        = (Api.HTTPException status detail, g') ->
        status = 500
        /\ exists w', g' = Some w' /\ _sessions w' = _sessions w1)
  /\ (forall n frames w' e,
        Api.event_generator uuid4_hex llm_invoke llm_stream retriever_invoke
                            now_isoformat n w
                 {| Api.question := question; Api.req_session_id := session_id |}
        = (frames, w') ->
        Api.ErrorFrame e ∈ frames -> _sessions w' = _sessions w1).
Proof.
  intros w1 minted.
  assert (Hstream : forall n rs g w' e,
             consume n (query_stream question session_id) w = (rs, g, w') ->
             Raised e ∈ rs -> _sessions w' = _sessions w1).
  { intros n rs g w' e H He.
    apply consume_created in H as (k & w1' & Hres & H).
    subst w1. rewrite Hres. cbn [snd].
    destruct H as [[_ [[-> _]|H]]|(p & w2 & chunks & m0 & tail & _ & _ & -> & Ht & _)].
    - apply elem_of_nil in He. contradiction.
    - exact H.
    - exfalso. revert He. apply raised_not_in. exact Ht. }
  assert (Hquery : forall e w', query question session_id w = (Raise e, w') ->
             _sessions w' = _sessions w1).
  { intros e w' H. apply query_outcome in H as (k & w1' & Hres & H).
    subst w1. rewrite Hres. exact H. }
  split; [|split; [|split; [|split; [|split; [|split]]]]].
  - subst w1 minted. destruct session_id as [s|]; cbn [Retriever.resolve_session].
    + destruct (truthy s); reflexivity.
    + reflexivity.
  - intros r w' H. apply query_outcome in H as (k & w1' & Hres & H).
    subst w1. rewrite Hres. cbn [snd].
    destruct r as [resp|e]; [|exact H]. destruct H as [-> H]. exact H.
  - intros n rs g w' H.
    apply consume_created in H as (k & w1' & Hres & H).
    subst w1. rewrite Hres. cbn [snd].
    destruct H as [[Hno H]|(p & w2 & chunks & m0 & tail & Hp & Hst & -> & Ht & Hm & Hs)].
    + split; [intros _; exact H|]. split.
      * intros e He. destruct H as [[-> _]|H]; [|exact H].
        apply elem_of_nil in He. contradiction.
      * intros m Hm. exfalso. revert Hm. apply metadata_not_in. exact Hno.
    + split; [|split].
      * intros Hno. exfalso.
        rewrite existsb_app, token_results_no_metadata in Hno. discriminate.
      * intros e He. exfalso. revert He. apply raised_not_in. exact Ht.
      * intros m Hin. apply metadata_unique in Hin; [|exact Ht]. subst m0.
        exists p, w2, chunks, tail. rewrite Hm. auto.
  - intros p w2 reply Hp Hllm.
    destruct (query_returns _ _ _ _ _ _ Hp Hllm) as (resp & w' & E & Ha & _).
    eauto.
  - intros p w2 chunks n. apply consume_created_drains.
  - intros status detail g' H. unfold Api.chat in H. cbn [Api.question Api.req_session_id] in H.
    destruct (query question session_id w) as [[resp|e] w'] eqn:E;
      inversion H; subst. split; [reflexivity|].
    exists w'. split; [reflexivity|]. exact (Hquery e w' eq_refl).
  - intros n frames w' e H He. unfold Api.event_generator in H.
    cbn [Api.question Api.req_session_id] in H.
    destruct (consume n (query_stream question session_id) w) as [[rs g] w''] eqn:E.
    inversion H; subst. apply error_frame_raised in He.
    eapply Hstream; eassumption.
Qed.

(** C8. With an empty history [_rewrite_with_context] returns the question
    and leaves the object, and so the log of the external calls, as it was:
    the model is not called. With a history, when the model answers, the
    result is the stripped answer, or the question itself when the answer is
    empty or made of white space only; the call returns normally. *)
Theorem C8_rewrite_fallback (question : str) (history : list message)
    (w : CellAvenueRAG) :
  (history = [] -> _rewrite_with_context question history w = (Ok question, w))
  /\ (forall resp,
        history ≠ [] ->
        llm_invoke (calls w)
          (Prompt (REWRITE_PROMPT
                     (_format_history_for_rewrite (last_n 6 history)) question))
        = Ok resp ->
        (strip resp = [] ->
           fst (_rewrite_with_context question history w) = Ok question)
        /\ (strip resp ≠ [] ->
              fst (_rewrite_with_context question history w) = Ok (strip resp))).
Proof.
  split.
  - intros ->. reflexivity.
  - intros resp Hh Hllm. apply truthy_true in Hh.
    unfold Retriever._rewrite_with_context. rewrite Hh. cbn [negb].
    unfold bind, external. rewrite Hllm. cbn [fst ret]. split.
    + intros ->. reflexivity.
    + intros Hne. apply truthy_true in Hne. rewrite Hne. reflexivity.
Qed.

(** C9, amended. A request without session id (or with the empty string)
    runs on the session named by the first 12 characters of the UUID drawn
    for it. The session starts empty: the chat model receives no history,
    and after the request the session holds this turn only. The id is one
    that the store does not hold whenever the draw is not an id of the
    store; the code makes no check of it. *)
Theorem C9_minted_session (question : str) (session_id : option str)
    (w : CellAvenueRAG) (docs : list Document) (reply : str) :
  let minted := take 12 (uuid4_hex (calls w)) in
  let log := calls w ++ [CallUuid4] in
  session_id = None \/ session_id = Some [] ->
  retriever_invoke log question = Ok docs ->
  llm_invoke (log ++ [CallRetriever question])
             (Messages (fresh_messages docs question)) = Ok reply ->
  exists resp w',
    query question session_id w = (Ok resp, w')
    /\ Retriever.session_id resp = minted
    /\ answer resp = reply
    /\ _sessions w'
       = <[minted := [{| role := lit "user"; content := question |};
                      {| role := lit "assistant"; content := reply |}]]>
           (_sessions w)
    /\ (_sessions w !! minted = None ->
        _sessions w !! Retriever.session_id resp = None).
Proof.
  intros minted log Hsid Hret Hllm.
  assert (Hres : resolve_session session_id w
                 = (Ok minted,
                    {| _sessions := <[minted := []]> (_sessions w);
                       calls := log |})).
  { destruct Hsid as [-> | ->]; reflexivity. }
  rewrite (query_on_empty_history question session_id w _ minted Hres).
  2:{ unfold history_of. cbn [_sessions]. rewrite lookup_insert_eq. reflexivity. }
  cbn [calls _sessions]. rewrite Hret. cbv zeta. rewrite Hllm.
  eexists. eexists. split; [reflexivity|]. cbn [Retriever.session_id answer].
  split; [reflexivity|]. split; [reflexivity|].
  split; [apply insert_insert_eq | auto].
Qed.

(** C10. For an id that the store does not hold, [get_session_history]
    returns the empty list and leaves the object as it was, and the first
    [_append_to_session] creates the entry. A request that supplies such an
    id fails only if the retriever or the chat model raises; it runs without
    history, returns the id supplied, and leaves the entry with the two
    messages of this turn. The empty string is no id for [query]: the
    request then runs as one without session id, on a new session. *)
Theorem C10_unknown_session_id (question session_id : str) (w : CellAvenueRAG) :
  _sessions w !! session_id = None ->
  get_session_history session_id w = (Ok [], w)
  /\ (forall role content,
        _append_to_session session_id role content w
        = (Ok tt,
           set_sessions
             (<[session_id := [{| role := role; content := content |}]]>
                (_sessions w)) w))
  /\ (session_id ≠ [] ->
      match retriever_invoke (calls w) question with
      | Raise e => fst (query question (Some session_id) w) = Raise e
      | Ok docs =>
        match llm_invoke (calls w ++ [CallRetriever question])
                         (Messages (fresh_messages docs question)) with
        | Raise e => fst (query question (Some session_id) w) = Raise e
        | Ok reply =>
          exists resp w',
            query question (Some session_id) w = (Ok resp, w')
            /\ Retriever.session_id resp = session_id
            /\ answer resp = reply
            /\ _sessions w'
               = <[session_id :=
                     [{| role := lit "user"; content := question |};
                      {| role := lit "assistant"; content := reply |}]]>
                   (_sessions w)
        end
      end)
  /\ (session_id = [] ->
      query question (Some session_id) w = query question None w).
Proof.
  intros Hnone. split; [|split; [|split]]; [| | |intros ->; reflexivity].
  - unfold get_session_history. rewrite Hnone. reflexivity.
  - intros role content. rewrite sessions_append. unfold history_of.
    rewrite Hnone. reflexivity.
  - intros Hne.
    rewrite (query_on_empty_history question (Some session_id) w w session_id
               (resolve_session_supplied session_id w Hne)).
    2:{ unfold history_of. rewrite Hnone. reflexivity. }
    destruct (retriever_invoke (calls w) question) as [docs|e]; [|reflexivity].
    cbv zeta.
    destruct (llm_invoke (calls w ++ [CallRetriever question])
                (Messages (fresh_messages docs question))) as [reply|e];
      [|reflexivity].
    eexists. eexists. split; [reflexivity|]. auto.
Qed.

End QueryEngine.

(** *** The claims on the query engine, at concrete requests *)

Section QueryWitnesses.

Import Retriever Spec Scenario.

(** C1 on a session that holds one turn: a follow-up whose rewrite call
    raises, and a streamed follow-up whose stream breaks after the first
    token, both leave the store as it was. *)
Lemma C1_failed_request_witness :
  _sessions (snd (query uuid_other llm_down retriever_finds clock
                        FOLLOW_UP (Some KEY) one_turn))
  = _sessions one_turn
  /\ _sessions (snd (consume uuid_other llm_answers stream_broken
                             retriever_finds clock 5
                             (query_stream FOLLOW_UP (Some KEY)) one_turn))
     = _sessions one_turn.
Proof.
  split.
  - pose proof (C1_no_partial_append uuid_other llm_down stream_broken
                  retriever_finds clock FOLLOW_UP (Some KEY) one_turn)
      as (_ & Hq & _).
    specialize (Hq _ _ (surjective_pairing _)).
    vm_compute in Hq. vm_compute. exact Hq.
  - pose proof (C1_no_partial_append uuid_other llm_answers stream_broken
                  retriever_finds clock FOLLOW_UP (Some KEY) one_turn)
      as (_ & _ & Hs & _).
    destruct (consume uuid_other llm_answers stream_broken retriever_finds
                      clock 5 (query_stream FOLLOW_UP (Some KEY)) one_turn)
      as [[rs g] w'] eqn:E.
    destruct (Hs 5%nat rs g w' E) as (_ & Hraised & _). cbn [snd].
    rewrite (Hraised (lit "connection reset")); [reflexivity|].
    vm_compute in E. inversion E; subst.
    apply list_elem_of_In. right. left. reflexivity.
Defined.

(** C1, as stated, fails for a request without session id when the draw
    repeats an id of the store: the store holds the session [KEY] with one
    turn, the retriever raises, and the history of [KEY] is empty
    afterwards. The same with [query_stream]. *)
Lemma C1_reset_by_failed_request_counterexample :
  _sessions one_turn !! KEY
  = Some [{| role := lit "user"; content := QUESTION |};
          {| role := lit "assistant"; content := lit "We have two phones." |}]
  /\ match query uuid_key llm_answers retriever_down clock QUESTION None
                 one_turn with
     | (Raise e, w') =>
       e = lit "index unavailable" /\ _sessions w' !! KEY = Some []
     | (Ok _, _) => False
     end
  /\ match consume uuid_key llm_answers stream_whole retriever_down clock 5
                   (query_stream QUESTION None) one_turn with
     | ([Raised e], _, w') =>
       e = lit "index unavailable" /\ _sessions w' !! KEY = Some []
     | _ => False
     end.
Proof.
  split; [vm_compute; reflexivity|].
  split; vm_compute; split; reflexivity.
Qed.

(** C8 at an empty history, and at a history of one turn with a model that
    answers white space only. *)
Lemma C8_rewrite_fallback_witness :
  _rewrite_with_context llm_blank FOLLOW_UP [] one_turn = (Ok FOLLOW_UP, one_turn)
  /\ fst (_rewrite_with_context llm_blank FOLLOW_UP
            (history_of one_turn KEY) one_turn) = Ok FOLLOW_UP.
Proof.
  split.
  - apply (C8_rewrite_fallback llm_blank FOLLOW_UP [] one_turn). reflexivity.
  - apply (C8_rewrite_fallback llm_blank FOLLOW_UP (history_of one_turn KEY)
             one_turn) with (resp := [SP; NL; TAB]).
    + vm_compute. discriminate.
    + reflexivity.
    + vm_compute. reflexivity.
Defined.

(** C9, as stated, fails when the draw repeats an id of the store: the store
    holds the session [KEY], with one turn, and the request without id is
    given this same id. *)
Lemma C9_collision_counterexample :
  match query uuid_key llm_answers retriever_finds clock QUESTION None one_turn with
  | (Ok resp, _) =>
    _sessions one_turn !! Retriever.session_id resp
    = Some [{| role := lit "user"; content := QUESTION |};
            {| role := lit "assistant"; content := lit "We have two phones." |}]
  | (Raise _, _) => False
  end.
Proof. vm_compute. reflexivity. Qed.

(** C9, amended, on a draw that is not an id of the store. *)
Lemma C9_minted_session_witness :
  exists resp w',
    query uuid_other llm_answers retriever_finds clock QUESTION None one_turn
    = (Ok resp, w')
    /\ Retriever.session_id resp = lit "fedcba987654"
    /\ answer resp = lit "We have two phones."
    /\ _sessions w'
       = <[lit "fedcba987654" :=
             [{| role := lit "user"; content := QUESTION |};
              {| role := lit "assistant"; content := lit "We have two phones." |}]]>
           (_sessions one_turn)
    /\ (_sessions one_turn !! lit "fedcba987654" = None ->
        _sessions one_turn !! Retriever.session_id resp = None).
Proof.
  apply (C9_minted_session uuid_other llm_answers retriever_finds clock
           QUESTION None one_turn [phones_page] (lit "We have two phones.")).
  - left. reflexivity.
  - reflexivity.
  - reflexivity.
Defined.

(** C10 on the empty store and an id that a client made up. *)
Lemma C10_unknown_session_id_witness :
  get_session_history KEY empty_rag = (Ok [], empty_rag)
  /\ exists resp w',
       query uuid_other llm_answers retriever_finds clock
             QUESTION (Some KEY) empty_rag = (Ok resp, w')
       /\ Retriever.session_id resp = KEY
       /\ answer resp = lit "We have two phones."
       /\ _sessions w'
          = <[KEY := [{| role := lit "user"; content := QUESTION |};
                      {| role := lit "assistant";
                         content := lit "We have two phones." |}]]> ∅.
Proof.
  destruct (C10_unknown_session_id uuid_other llm_answers retriever_finds clock
              QUESTION KEY empty_rag) as (Hget & _ & Hq & _).
  - reflexivity.
  - split; [exact Hget|]. apply Hq. vm_compute. discriminate.
Defined.

End QueryWitnesses.

(** ** The cleaner *)

Module StripFacts.

Lemma dropwhile_suffix {A} (p : A -> bool) (l : list A) :
  exists a, l = a ++ dropwhile p l.
Proof.
  induction l as [|x l [a IH]]; [exists []; reflexivity|].
  simpl. destruct (p x).
  - exists (x :: a). simpl. f_equal. exact IH.
  - exists []. reflexivity.
Qed.

Lemma dropwhile_idem {A} (p : A -> bool) (l : list A) :
  dropwhile p (dropwhile p l) = dropwhile p l.
Proof.
  induction l as [|x l IH]; [reflexivity|].
  simpl. destruct (p x) eqn:E; [exact IH|]. simpl. rewrite E. reflexivity.
Qed.

(** The stripped text is a factor of the text. *)
Lemma rstrip_prefix (s : str) : exists b, s = rstrip s ++ b.
Proof.
  unfold rstrip. destruct (dropwhile_suffix isspace (rev s)) as [a Ha].
  exists (rev a). rewrite <- rev_app_distr, <- Ha, rev_involutive. reflexivity.
Qed.

Lemma strip_factor (s : str) : exists a b, s = a ++ strip s ++ b.
Proof.
  unfold strip. destruct (dropwhile_suffix isspace s) as [a Ha].
  destruct (rstrip_prefix (lstrip s)) as [b Hb].
  exists a, b. rewrite <- Hb. exact Ha.
Qed.

Lemma rstrip_idem (s : str) : rstrip (rstrip s) = rstrip s.
Proof. unfold rstrip. rewrite rev_involutive, dropwhile_idem. reflexivity. Qed.

Lemma lstrip_rstrip (t : str) : lstrip t = t -> lstrip (rstrip t) = rstrip t.
Proof.
  intros Ht. destruct (rstrip_prefix t) as [b Hb].
  destruct (rstrip t) as [|x u] eqn:E; [reflexivity|].
  unfold lstrip in *. rewrite Hb in Ht. simpl in Ht |- *.
  destruct (isspace x) eqn:Ex; [|reflexivity].
  exfalso. destruct (dropwhile_suffix isspace (u ++ b)) as [a Ha].
  rewrite Ht in Ha. apply (f_equal length) in Ha.
  rewrite !length_app in Ha. simpl in Ha. rewrite length_app in Ha. lia.
Qed.

Lemma strip_idem (s : str) : strip (strip s) = strip s.
Proof.
  unfold strip. rewrite (lstrip_rstrip (lstrip s)).
  - apply rstrip_idem.
  - apply dropwhile_idem.
Qed.

End StripFacts.

Module CleanerFacts.

Import Cleaner Spec StripFacts.

(** *** Carriage returns *)

Lemma replace_cr_no_cr (s : str) : no_cr (replace_cr s).
Proof.
  unfold no_cr, replace_cr. induction s as [|c s IH]; [constructor|].
  simpl. constructor; [|exact IH].
  destruct (N.eqb_spec c CR) as [->|Hc]; [discriminate | exact Hc].
Qed.

Lemma replace_cr_fix (s : str) : no_cr s -> replace_cr s = s.
Proof.
  unfold no_cr, replace_cr. induction 1 as [|c s Hc _ IH]; [reflexivity|].
  simpl. rewrite IH. destruct (N.eqb_spec c CR); [contradiction | reflexivity].
Qed.

Lemma replace_crlf_fix (s : str) : no_cr s -> replace_crlf s = s.
Proof.
  unfold no_cr. induction 1 as [|c s Hc Hs IH]; [reflexivity|].
  simpl. destruct s as [|d r]; [reflexivity|].
  destruct (N.eqb_spec c CR) as [->|_]; [contradiction|].
  simpl andb. cbv iota. rewrite IH. reflexivity.
Qed.

Lemma collapse_no_cr (b : bool) (s : str) : no_cr s -> no_cr (collapse_blanks b s).
Proof.
  unfold no_cr. intros H. revert b. induction H as [|c s Hc _ IH]; intros b;
    [constructor|].
  simpl. destruct ((c =? SP) || (c =? TAB))%N.
  - destruct b; [apply IH|]. constructor; [discriminate | apply IH].
  - constructor; [exact Hc | apply IH].
Qed.

Lemma squeeze_no_cr (k : nat) (s : str) : no_cr s -> no_cr (squeeze_newlines k s).
Proof.
  unfold no_cr. intros H. revert k. induction H as [|c s Hc _ IH]; intros k;
    [constructor|].
  simpl. destruct (c =? NL)%N.
  - destruct (k <? 2)%nat; [constructor; [discriminate | apply IH] | apply IH].
  - constructor; [exact Hc | apply IH].
Qed.

Lemma no_cr_factor (a s b : str) : no_cr (a ++ s ++ b) -> no_cr s.
Proof.
  unfold no_cr. intros H. apply Forall_app in H as [_ H].
  apply Forall_app in H as [H _]. exact H.
Qed.

(** *** Runs of spaces and tabs *)

Lemma collapse_collapsed (b : bool) (s : str) :
  collapsed b (collapse_blanks b s) = true.
Proof.
  revert b. induction s as [|c s IH]; intros b; [reflexivity|].
  simpl. destruct ((c =? SP) || (c =? TAB))%N eqn:E.
  - destruct b; [apply IH|]. simpl. apply IH.
  - simpl. rewrite E. apply IH.
Qed.

Lemma collapsed_fix (b : bool) (s : str) :
  collapsed b s = true -> collapse_blanks b s = s.
Proof.
  revert b. induction s as [|c s IH]; intros b H; [reflexivity|].
  simpl in H |- *. destruct ((c =? SP) || (c =? TAB))%N.
  - apply andb_prop in H as [H H3]. apply andb_prop in H as [H1 H2].
    apply N.eqb_eq in H1. subst c. destruct b; [discriminate|].
    rewrite (IH true H3). reflexivity.
  - rewrite (IH false H). reflexivity.
Qed.

Lemma collapsed_weaken (b : bool) (s : str) :
  collapsed b s = true -> collapsed false s = true.
Proof.
  destruct s as [|c s]; [reflexivity|]. simpl.
  destruct ((c =? SP) || (c =? TAB))%N; [|auto].
  intros H. apply andb_prop in H as [H H3]. apply andb_prop in H as [H1 _].
  rewrite H1, H3. reflexivity.
Qed.

Lemma collapsed_tail (b : bool) (c : N) (s : str) :
  collapsed b (c :: s) = true -> collapsed false s = true.
Proof.
  simpl. destruct ((c =? SP) || (c =? TAB))%N; [|auto].
  intros H. apply andb_prop in H as [_ H]. eapply collapsed_weaken. exact H.
Qed.

Lemma collapsed_prefix (b : bool) (s t : str) :
  collapsed b (s ++ t) = true -> collapsed b s = true.
Proof.
  revert b. induction s as [|c s IH]; intros b H; [reflexivity|].
  simpl in H |- *. destruct ((c =? SP) || (c =? TAB))%N.
  - apply andb_prop in H as [H H3]. rewrite H. simpl. eapply IH. exact H3.
  - eapply IH. exact H.
Qed.

Lemma collapsed_factor (a s b : str) :
  collapsed false (a ++ s ++ b) = true -> collapsed false s = true.
Proof.
  induction a as [|c a IH]; simpl app; intros H.
  - eapply collapsed_prefix. exact H.
  - apply IH. eapply collapsed_tail. exact H.
Qed.

(** The squeeze removes newlines only: it puts no two spaces side by
    side. After a newline that was kept, the state of the run is [false]. *)
Lemma squeeze_collapsed (k : nat) (b : bool) (s : str) :
  (k ≠ O -> b = false) ->
  collapsed b s = true -> collapsed b (squeeze_newlines k s) = true.
Proof.
  revert k b. induction s as [|c s IH]; intros k b Hk H; [reflexivity|].
  simpl squeeze_newlines. destruct (N.eqb_spec c NL) as [->|Hc].
  - change (collapsed b (NL :: s)) with (collapsed false s) in H.
    destruct (k <? 2)%nat eqn:E.
    + change (collapsed false (squeeze_newlines (S k) s) = true).
      apply IH; [reflexivity | exact H].
    + assert (b = false) as -> by (apply Hk; intros ->; discriminate).
      apply IH; [reflexivity | exact H].
  - simpl in H |- *. destruct ((c =? SP) || (c =? TAB))%N.
    + apply andb_prop in H as [H H3]. rewrite H. simpl.
      apply IH; [congruence | exact H3].
    + apply IH; [congruence | exact H].
Qed.

(** *** Runs of newlines *)

Lemma squeeze_squeezed (k : nat) (s : str) :
  squeezed k (squeeze_newlines k s) = true.
Proof.
  revert k. induction s as [|c s IH]; intros k; [reflexivity|].
  simpl. destruct (c =? NL)%N eqn:E.
  - destruct (k <? 2)%nat eqn:Ek; [|apply IH].
    simpl. rewrite Ek. apply IH.
  - simpl. rewrite E. apply IH.
Qed.

Lemma squeezed_fix (k : nat) (s : str) :
  squeezed k s = true -> squeeze_newlines k s = s.
Proof.
  revert k. induction s as [|c s IH]; intros k H; [reflexivity|].
  simpl in H |- *. destruct (c =? NL)%N eqn:E.
  - apply andb_prop in H as [H1 H2]. rewrite H1, (IH _ H2).
    apply N.eqb_eq in E. subst c. reflexivity.
  - rewrite (IH _ H). reflexivity.
Qed.

Lemma squeezed_weaken (k k' : nat) (s : str) :
  (k' <= k)%nat -> squeezed k s = true -> squeezed k' s = true.
Proof.
  revert k k'. induction s as [|c s IH]; intros k k' Hle H; [reflexivity|].
  simpl in H |- *. destruct (c =? NL)%N; [|exact H].
  apply andb_prop in H as [H1 H2]. apply Nat.ltb_lt in H1.
  apply andb_true_intro. split; [apply Nat.ltb_lt; lia|].
  apply (IH (S k)); [lia | exact H2].
Qed.

Lemma squeezed_prefix (k : nat) (s t : str) :
  squeezed k (s ++ t) = true -> squeezed k s = true.
Proof.
  revert k. induction s as [|c s IH]; intros k H; [reflexivity|].
  simpl in H |- *. destruct (c =? NL)%N.
  - apply andb_prop in H as [H1 H2]. rewrite H1. simpl. eapply IH. exact H2.
  - eapply IH. exact H.
Qed.

Lemma squeezed_factor (a s b : str) :
  squeezed O (a ++ s ++ b) = true -> squeezed O s = true.
Proof.
  induction a as [|c a IH]; simpl app; intros H.
  - eapply squeezed_prefix. exact H.
  - apply IH. simpl in H. destruct (c =? NL)%N; [|exact H].
    apply (squeezed_weaken 1); [lia | exact H].
Qed.

(** *** The normal form *)

Lemma normal_fix (s : str) : normal s -> normalize_whitespace s = s.
Proof.
  intros (Hcr & Hc & Hs & Hst). unfold normalize_whitespace.
  rewrite (replace_crlf_fix s Hcr), (replace_cr_fix s Hcr).
  rewrite (collapsed_fix false s Hc), (squeezed_fix O s Hs). exact Hst.
Qed.

Lemma normalize_normal (s : str) : normal (normalize_whitespace s).
Proof.
  unfold normalize_whitespace.
  set (z := squeeze_newlines O
              (collapse_blanks false (replace_cr (replace_crlf s)))).
  assert (Hcr : no_cr z)
    by (apply squeeze_no_cr, collapse_no_cr, replace_cr_no_cr).
  assert (Hc : collapsed false z = true)
    by (apply squeeze_collapsed; [congruence | apply collapse_collapsed]).
  assert (Hs : squeezed O z = true) by apply squeeze_squeezed.
  destruct (strip_factor z) as (a & b & Hz).
  rewrite Hz in Hcr, Hc, Hs.
  split; [eapply no_cr_factor; exact Hcr|].
  split; [eapply collapsed_factor; exact Hc|].
  split; [eapply squeezed_factor; exact Hs|].
  apply strip_idem.
Qed.

Lemma normalize_whitespace_idem (s : str) :
  normalize_whitespace (normalize_whitespace s) = normalize_whitespace s.
Proof. apply normal_fix, normalize_normal. Qed.

Lemma filter_keeps_all (lines : list str) :
  Forall (fun line => should_drop_line line = false) lines ->
  List.filter (fun line => negb (should_drop_line line)) lines = lines.
Proof.
  induction 1 as [|l lines Hl _ IH]; [reflexivity|].
  simpl. rewrite Hl, IH. reflexivity.
Qed.

(** A whitespace-normal text in which the cleaner finds nothing to remove
    is left as it is. *)
Lemma clean_markdown_fix (text page_type : str) :
  normalize_whitespace text = text ->
  already_clean text page_type ->
  clean_markdown text page_type = text.
Proof.
  intros Hn (Hcut & Hkeep & Hdedupe). unfold clean_markdown.
  rewrite Hn, Hcut, (filter_keeps_all _ Hkeep), Hdedupe, join_split.
  exact Hn.
Qed.

(** *** The loop of [process_file] *)

Lemma process_lines_written (cleaned_at : str) (all src : list raw_line) :
  forall (dst : list (gmap str json)) (c : counters),
    (forall l, l ∈ src -> l ∈ all) ->
    Forall (written_for cleaned_at all) dst ->
    Forall (written_for cleaned_at all)
           (fst (process_lines cleaned_at src dst c)).
Proof.
  induction src as [|line src IH]; intros dst c Hsub Hdst; [exact Hdst|].
  assert (Hsub' : forall l, l ∈ src -> l ∈ all)
    by (intros l Hl; apply Hsub; right; exact Hl).
  destruct line as [|e|obj]; cbn [process_lines].
  - apply IH; assumption.
  - exact Hdst.
  - destruct (default (JStr []) (obj !! lit "markdown")) as [raw_text|n|repr] eqn:Em;
      [|exact Hdst|exact Hdst].
    cbv zeta. fold (cleaned_text obj raw_text).
    destruct (Z.ltb_spec (len (cleaned_text obj raw_text)) 40) as [Hlt|Hge].
    + apply IH; assumption.
    + apply IH; [assumption|]. apply Forall_app. split; [exact Hdst|].
      constructor; [|constructor].
      exists obj, raw_text. split; [apply Hsub; left|].
      split; [exact Em|]. split; [reflexivity|]. split; [|exact Hge].
      unfold out_record.
      rewrite !lookup_insert_ne by (vm_compute; discriminate).
      apply lookup_insert_eq.
Qed.

End CleanerFacts.

(** C2. Every record that [process_file] writes, also when the run ends by
    an exception, was written for an object of the input whose cleaned text
    has at least 40 characters, and carries this text. An object whose
    cleaned text has fewer than 40 characters adds nothing to the output:
    the loop goes on with what was written before. *)
Theorem C2_short_records_not_written (cleaned_at : str)
    (src : list Cleaner.raw_line) :
  Forall (Spec.written_for cleaned_at src)
         (fst (Cleaner.process_file cleaned_at src))
  /\ (forall obj raw_text rest dst c,
        default (Cleaner.JStr []) (obj !! lit "markdown") = Cleaner.JStr raw_text ->
        len (Spec.cleaned_text obj raw_text) < 40 ->
        exists c',
          Cleaner.process_lines cleaned_at (Cleaner.Object obj :: rest) dst c
          = Cleaner.process_lines cleaned_at rest dst c').
Proof.
  split.
  - apply CleanerFacts.process_lines_written; [auto | constructor].
  - intros obj raw_text rest dst c Hm Hlt. cbn [Cleaner.process_lines].
    rewrite Hm. cbv zeta. fold (Spec.cleaned_text obj raw_text).
    apply Z.ltb_lt in Hlt. rewrite Hlt. eexists. reflexivity.
Qed.

(** C2 on a shard of two pages: the page that cleans to nothing is not
    written, the other is. *)
Lemma C2_short_records_witness :
  length (fst (Cleaner.process_file Scenario.clock_text Scenario.raw_shard)) = 1%nat
  /\ Forall (Spec.written_for Scenario.clock_text Scenario.raw_shard)
            (fst (Cleaner.process_file Scenario.clock_text Scenario.raw_shard)).
Proof.
  split.
  - vm_compute. reflexivity.
  - apply (C2_short_records_not_written Scenario.clock_text Scenario.raw_shard).
Defined.

(** C7, as stated, fails: the first pass drops the line [x], and its final
    strip makes the two lines before it equal; only a second pass removes
    the repeated line. *)
Lemma C7_not_idempotent_counterexample :
  Cleaner.clean_markdown
    (Cleaner.clean_markdown Scenario.TWICE (lit "other")) (lit "other")
  ≠ Cleaner.clean_markdown Scenario.TWICE (lit "other").
Proof. vm_compute. discriminate. Qed.

(** C7, amended. The normalisation of white space is idempotent, and the
    cleaner leaves its own output as it is whenever this output holds
    nothing that the cleaner removes: no related-products tail, no line that
    [should_drop_line] drops and no line that repeats the one before. *)
Theorem C7_clean_fixes_clean_text (x page_type : str) :
  Cleaner.normalize_whitespace (Cleaner.normalize_whitespace x)
  = Cleaner.normalize_whitespace x
  /\ (Spec.already_clean (Cleaner.clean_markdown x page_type) page_type ->
      Cleaner.clean_markdown (Cleaner.clean_markdown x page_type) page_type
      = Cleaner.clean_markdown x page_type).
Proof.
  split; [apply CleanerFacts.normalize_whitespace_idem|].
  intros H. apply CleanerFacts.clean_markdown_fix; [|exact H].
  unfold Cleaner.clean_markdown.
  apply CleanerFacts.normalize_whitespace_idem.
Qed.

(** C7, amended, on a product page of two plain lines. *)
Lemma C7_clean_fixes_clean_text_witness :
  Cleaner.clean_markdown
    (Cleaner.clean_markdown Scenario.PLAIN (lit "product")) (lit "product")
  = Cleaner.clean_markdown Scenario.PLAIN (lit "product").
Proof.
  apply (C7_clean_fixes_clean_text Scenario.PLAIN (lit "product")).
  unfold Spec.already_clean. split; [|split].
  - vm_compute. reflexivity.
  - repeat constructor.
  - vm_compute. reflexivity.
Defined.

(** ** Runs of the embedding *)

Section Runs.

Import Cleaner Chunker Retriever Api Spec Scenario.

Example lit_decodes_utf8 :
  lit "x✕—ع" = [120; 10005; 8212; 1593]%N.
Proof. vm_compute. reflexivity. Qed.

Example should_drop_line_samples :
  map should_drop_line
      [lit "Dear Customers,"; lit "dear customers, hello";
       lit "![phone](https://cdn.example/p.png)";
       lit "- [Phones](https://cellavenue.example/phones)";
       lit "[Terms](https://cellavenue.example/terms)";
       lit "[Phones](https://cellavenue.example/phones)";
       lit "| --- | :--: |"; lit "[vc_row]"; lit "Add to Wishlist";
       lit "Menu"; lit "x"; lit "Size: X"; lit "العملاء الأعزاء"]
  = [true; false; true; true; true; false; true; true; true; true; true;
     false; true].
Proof. vm_compute. reflexivity. Qed.

Example normalize_whitespace_sample :
  normalize_whitespace
    ([SP; TAB] ++ lit "a" ++ [SP; SP; TAB] ++ lit "b"
     ++ [CR; NL; CR; NL; NL; CR] ++ lit "c" ++ [NL; SP])
  = lit "a b" ++ [NL; NL] ++ lit "c".
Proof. vm_compute. reflexivity. Qed.

Example related_products_cut :
  clean_markdown
    (lit "Phone A" ++ [NL] ++ lit "99 KWD" ++ [NL]
     ++ lit "### Related products" ++ [NL] ++ lit "Phone B")
    (lit "product")
  = lit "Phone A" ++ [NL] ++ lit "99 KWD".
Proof. vm_compute. reflexivity. Qed.

Example merge_small_chunks_sample :
  merge_small_chunks [lit "ab"; lit "cde"; lit "f"; lit "ghijk"; lit "l"] 5
  = [lit "ab" ++ SEP ++ lit "cde";
     lit "f" ++ SEP ++ lit "ghijk" ++ SEP ++ lit "l"].
Proof. vm_compute. reflexivity. Qed.

(** The second turn of a conversation is answered on the same session,
    which then holds both turns. *)
Example memory_two_turns :
  match query uuid_other llm_answers retriever_finds clock
              FOLLOW_UP (Some KEY) one_turn with
  | (Ok resp, w') =>
    Retriever.session_id resp = KEY
    /\ citations resp = [lit "https://cellavenue.example/phones"]
    /\ map content (history_of w' KEY)
       = [QUESTION; lit "We have two phones."; FOLLOW_UP;
          lit "We have two phones."]
  | (Raise _, _) => False
  end.
Proof. vm_compute. repeat split; reflexivity. Qed.

(** A streamed answer: the tokens, without the empty one, then the
    metadata; the session holds the whole response. *)
Example streamed_answer :
  match event_generator uuid_other llm_answers stream_whole retriever_finds
                        clock 10 empty_rag
                        {| question := QUESTION; req_session_id := Some KEY |} with
  | ([TextFrame t1; TextFrame t2; DataFrame m], w') =>
    t1 = lit "We have " /\ t2 = lit "two phones."
    /\ meta_session_id m = KEY
    /\ map content (history_of w' KEY) = [QUESTION; lit "We have two phones."]
  | _ => False
  end.
Proof. vm_compute. repeat split; reflexivity. Qed.

(** A client that stops reading after the first token leaves no trace in
    the session. *)
Example stream_abandoned :
  event_generator uuid_other llm_answers stream_whole retriever_finds
                  clock 1 one_turn
                  {| question := FOLLOW_UP; req_session_id := Some KEY |}
  = ([TextFrame (lit "We have ")],
     {| _sessions := _sessions one_turn;
        calls := calls (snd (consume uuid_other llm_answers stream_whole
                                     retriever_finds clock 1
                                     (query_stream FOLLOW_UP (Some KEY))
                                     one_turn)) |}).
Proof. vm_compute. reflexivity. Qed.

Example chat_before_startup :
  fst (chat uuid_other llm_answers retriever_finds clock None
            {| question := QUESTION; req_session_id := None |})
  = HTTPException 503 (lit "RAG chain not initialized").
Proof. reflexivity. Qed.

Example chat_retriever_down :
  chat uuid_other llm_answers retriever_down clock (Some one_turn)
       {| question := QUESTION; req_session_id := Some KEY |}
  = (HTTPException 500 (lit "Error processing query: index unavailable"),
     Some {| _sessions := _sessions one_turn;
             calls := calls one_turn
                      ++ [CallLlmInvoke
                            (Prompt (REWRITE_PROMPT
                                       (_format_history_for_rewrite
                                          (history_of one_turn KEY))
                                       QUESTION));
                          CallRetriever (lit "We have two phones.")] |}).
Proof. vm_compute. reflexivity. Qed.

End Runs.

(** ** More on the cleaner *)

Module CleanerMore.

Import Cleaner Spec Notions StripFacts CleanerFacts ReFacts.

Lemma dropwhile_fix_head {A} (p : A -> bool) (x : A) (l : list A) :
  dropwhile p (x :: l) = x :: l -> p x = false.
Proof.
  simpl. destruct (p x) eqn:E; [|reflexivity]. intros H.
  destruct (dropwhile_suffix p l) as [a Ha]. rewrite H in Ha.
  apply (f_equal length) in Ha. rewrite length_app in Ha. simpl in Ha. lia.
Qed.

Lemma strip_fix_ends (t : str) :
  strip t = t ->
  (forall c r, t = c :: r -> isspace c = false)
  /\ (forall r c, t = r ++ [c] -> isspace c = false).
Proof.
  intros Ht.
  assert (Hl : lstrip t = t).
  { rewrite <- Ht. unfold strip. apply lstrip_rstrip, dropwhile_idem. }
  assert (Hr : rstrip t = t).
  { rewrite <- Ht. unfold strip. apply rstrip_idem. }
  split.
  - intros c r ->. eapply dropwhile_fix_head. exact Hl.
  - intros r c ->. unfold rstrip in Hr.
    apply (f_equal (@rev N)) in Hr. rewrite rev_involutive in Hr.
    rewrite rev_app_distr in Hr. simpl in Hr.
    eapply dropwhile_fix_head. exact Hr.
Qed.

Lemma collapsed_no_tab (b : bool) (t : str) : collapsed b t = true -> TAB ∉ t.
Proof.
  revert b. induction t as [|c t IH]; intros b H Hin.
  - apply elem_of_nil in Hin. contradiction.
  - apply elem_of_cons in Hin as [<-|Hin].
    + simpl in H. discriminate.
    + simpl in H. destruct ((c =? SP) || (c =? TAB))%N.
      * apply andb_prop in H as [_ H]. exact (IH _ H Hin).
      * exact (IH _ H Hin).
Qed.

Lemma normal_tidy (t : str) : normal t -> tidy t.
Proof.
  intros (Hcr & Hc & Hs & Hst). unfold tidy.
  split; [|split; [|split; [|split]]].
  - intros Hin. unfold no_cr in Hcr. rewrite Forall_forall in Hcr.
    exact (Hcr _ Hin eq_refl).
  - eapply collapsed_no_tab. exact Hc.
  - intros (a & b & ->). apply collapsed_factor in Hc. discriminate.
  - intros (a & b & ->). apply squeezed_factor in Hs. discriminate.
  - apply strip_fix_ends. exact Hst.
Qed.

(** *** White space around a line *)

Lemma lstrip_spaces (a s : str) :
  Forall (fun c => isspace c = true) a -> lstrip (a ++ s) = lstrip s.
Proof.
  unfold lstrip. induction 1 as [|c a Hc _ IH]; [reflexivity|].
  simpl. rewrite Hc. exact IH.
Qed.

Lemma rstrip_spaces (s b : str) :
  Forall (fun c => isspace c = true) b -> rstrip (s ++ b) = rstrip s.
Proof.
  intros Hb. unfold rstrip. rewrite rev_app_distr.
  f_equal. apply (lstrip_spaces (rev b) (rev s)).
  apply Forall_rev. exact Hb.
Qed.

Lemma lstrip_all_spaces (a : str) :
  Forall (fun c => isspace c = true) a -> lstrip a = [].
Proof. intros H. rewrite <- (app_nil_r a). rewrite lstrip_spaces by assumption. reflexivity. Qed.

Lemma lstrip_app (s b : str) :
  lstrip s ≠ [] -> lstrip (s ++ b) = lstrip s ++ b.
Proof.
  unfold lstrip. induction s as [|c s IH]; [intros H; destruct H; reflexivity|].
  simpl. destruct (isspace c); [exact IH | reflexivity].
Qed.

Lemma lstrip_spaces_only (s : str) :
  lstrip s = [] -> Forall (fun c => isspace c = true) s.
Proof.
  unfold lstrip. induction s as [|c s IH]; [constructor|].
  simpl. destruct (isspace c) eqn:E; [|discriminate].
  intros H. constructor; [exact E | exact (IH H)].
Qed.

Lemma strip_padding (a s b : str) :
  Forall (fun c => isspace c = true) a ->
  Forall (fun c => isspace c = true) b ->
  strip (a ++ s ++ b) = strip s.
Proof.
  intros Ha Hb. unfold strip. rewrite lstrip_spaces by assumption.
  destruct (lstrip s) as [|c r] eqn:E.
  - apply lstrip_spaces_only in E.
    rewrite lstrip_all_spaces by (apply Forall_app; split; assumption).
    reflexivity.
  - rewrite lstrip_app by (rewrite E; discriminate). rewrite E.
    apply rstrip_spaces. exact Hb.
Qed.

(** *** [dedupe_consecutive] *)

Lemma dedupe_fold (lines : list str) (out : list str) (prev : option str) :
  fst (fold_left dedupe_step lines (out, prev)) = out ++ dedupe_from prev lines.
Proof.
  revert out prev. induction lines as [|line lines IH]; intros out prev.
  - simpl. rewrite app_nil_r. reflexivity.
  - cbn [fold_left dedupe_from]. unfold dedupe_step at 2.
    destruct (bool_decide (Some line = prev) && truthy (strip line)).
    + apply IH.
    + rewrite IH, <- app_assoc. reflexivity.
Qed.

Lemma dedupe_consecutive_from (lines : list str) :
  dedupe_consecutive lines = dedupe_from None lines.
Proof. unfold dedupe_consecutive. apply dedupe_fold. Qed.

Lemma dedupe_from_sublist (prev : option str) (lines : list str) :
  dedupe_from prev lines `sublist_of` lines.
Proof.
  revert prev. induction lines as [|line lines IH]; intros prev; [constructor|].
  simpl. destruct (bool_decide (Some line = prev) && truthy (strip line)).
  - apply sublist_cons, IH.
  - apply sublist_skip, IH.
Qed.

Lemma dedupe_from_deduped (prev : option str) (lines : list str) :
  deduped prev (dedupe_from prev lines) = true.
Proof.
  revert prev. induction lines as [|line lines IH]; intros prev; [reflexivity|].
  simpl. destruct (bool_decide (Some line = prev) && truthy (strip line)) eqn:E.
  - apply IH.
  - simpl. rewrite E. apply IH.
Qed.

Lemma deduped_fix (prev : option str) (lines : list str) :
  deduped prev lines = true -> dedupe_from prev lines = lines.
Proof.
  revert prev. induction lines as [|line lines IH]; intros prev H; [reflexivity|].
  simpl in H |- *. apply andb_prop in H as [H1 H2].
  apply negb_true_iff in H1. rewrite H1, (IH _ H2). reflexivity.
Qed.

Lemma deduped_twice (prev : option str) (a b : list str) (line : str) :
  deduped prev (a ++ [line; line] ++ b) = true -> strip line = [].
Proof.
  revert prev. induction a as [|x a IH]; intros prev H.
  - simpl in H. apply andb_prop in H as [_ H]. apply andb_prop in H as [H _].
    rewrite bool_decide_eq_true_2 in H by reflexivity. simpl in H.
    apply negb_true_iff, truthy_false in H. exact H.
  - simpl in H. apply andb_prop in H as [_ H]. exact (IH _ H).
Qed.

(** *** The related-products cut *)

Lemma matches_extend (r : Re.re) (s t : str) :
  Re.matches r s = true -> Re.matches r (s ++ t) = true.
Proof.
  intros H. apply matches_spec in H as (p & u & -> & H).
  apply matches_spec. exists p, (u ++ t). rewrite app_assoc. auto.
Qed.

Lemma search_none (r : Re.re) (s : str) :
  Re.search r s = None <->
  forall j, (j <= length s)%nat -> Re.matches r (drop j s) = false.
Proof.
  induction s as [|c s IH].
  - cbn [Re.search]. destruct (Re.matches r []) eqn:E; split.
    + discriminate.
    + intros H. specialize (H O (Nat.le_refl _)). cbn [drop] in H. congruence.
    + intros _ j Hj. rewrite drop_nil. exact E.
    + reflexivity.
  - cbn [Re.search]. destruct (Re.matches r (c :: s)) eqn:E; split.
    + discriminate.
    + intros H. specialize (H O (Nat.le_0_l _)). cbn [drop] in H. congruence.
    + intros H [|j] Hj; [exact E|]. cbn [drop length] in Hj |- *.
      apply fmap_None in H. apply IH; [exact H | lia].
    + intros H. apply fmap_None, IH. intros j Hj.
      apply (H (S j)). cbn [length]. lia.
Qed.

(** A pattern that does not match the empty string and has no match in [s]
    before position [i] has no match in a prefix of [s] of length [i] or
    less. *)
Lemma search_prefix_none (r : Re.re) (s t : str) (i : nat) :
  Re.nullable r = false ->
  t `prefix_of` s -> (length t <= i)%nat ->
  (forall j, (j < i)%nat -> Re.matches r (drop j s) = false) ->
  Re.search r t = None.
Proof.
  intros Hn [u ->] Hlen Hleast. apply search_none. intros j Hj.
  destruct (Re.matches r (drop j t)) eqn:E; [|reflexivity].
  destruct (Nat.eq_dec j (length t)) as [->|Hne].
  - rewrite drop_all in E. simpl in E. rewrite Hn in E. discriminate.
  - apply (matches_extend r _ u) in E.
    rewrite <- drop_app_le in E by lia.
    rewrite Hleast in E by lia. discriminate.
Qed.

Lemma rstrip_take_prefix (i : nat) (s : str) : rstrip (take i s) `prefix_of` s.
Proof.
  destruct (rstrip_prefix (take i s)) as [b Hb].
  exists (b ++ drop i s). rewrite app_assoc, <- Hb. symmetry. apply take_drop.
Qed.

Lemma rstrip_length (s : str) : (length (rstrip s) <= length s)%nat.
Proof.
  destruct (rstrip_prefix s) as [b Hb]. rewrite Hb at 2.
  rewrite length_app. lia.
Qed.

(** The loop over two patterns keeps the leftmost start. *)
Lemma cut_two (p q : Re.re) (text : str) :
  fold_left (cut_step text) [p; q] None
  = match Re.search p text, Re.search q text with
    | None, None => None
    | Some i, None => Some i
    | None, Some j => Some j
    | Some i, Some j => Some (Nat.min i j)
    end.
Proof.
  cbn [fold_left]. unfold cut_step.
  destruct (Re.search p text), (Re.search q text); reflexivity.
Qed.

(** The result of the cut, from the leftmost starts of the two headings. *)
Lemma strip_related_product (text : str) :
  strip_related_products_block text (lit "product")
  = match Re.search related_en text, Re.search related_ar text with
    | None, None => text
    | Some i, None => rstrip (take i text)
    | None, Some j => rstrip (take j text)
    | Some i, Some j => rstrip (take (Nat.min i j) text)
    end.
Proof.
  unfold strip_related_products_block.
  replace (str_eqb (lit "product") (lit "product")) with true
    by (symmetry; apply bool_decide_eq_true_2; reflexivity).
  cbn [negb]. change RELATED_PATTERNS with [related_en; related_ar].
  rewrite cut_two.
  destruct (Re.search related_en text), (Re.search related_ar text); reflexivity.
Qed.

Lemma strip_related_other (text page_type : str) :
  page_type ≠ lit "product" ->
  strip_related_products_block text page_type = text.
Proof.
  intros H. unfold strip_related_products_block, str_eqb.
  rewrite bool_decide_eq_false_2 by exact H. reflexivity.
Qed.

(** *** The loop of [process_file] *)

Lemma process_lines_counts (cleaned_at : str) (src : list raw_line) :
  forall dst c dst' c',
    process_lines cleaned_at src dst c = (dst', Ok c') ->
    written_records c' - written_records c = len dst' - len dst
    /\ read_records c' - read_records c = objects src
    /\ 40 * (written_records c' - written_records c)
       <= clean_chars c' - clean_chars c
    /\ 0 <= len dst' - len dst <= objects src
    /\ raw_chars c <= raw_chars c'.
Proof.
  induction src as [|line src IH]; intros dst c dst' c' H.
  - cbn [process_lines] in H. inversion H; subst. unfold objects, len. simpl. lia.
  - destruct line as [|e|obj]; cbn [process_lines] in H.
    + apply IH in H. unfold objects in *. cbn [List.filter]. exact H.
    + discriminate.
    + destruct (default (JStr []) (obj !! lit "markdown")) as [raw_text|n|repr];
        [|discriminate|discriminate].
      cbv zeta in H.
      assert (Ho : objects (Object obj :: src) = 1 + objects src).
      { unfold objects, len. cbn [List.filter length]. lia. }
      pose proof (len_nonneg raw_text) as Hraw.
      destruct (Z.ltb_spec (len (clean_markdown raw_text (get_page_type obj))) 40)
        as [Hlt|Hge].
      * apply IH in H. cbn [read_records written_records raw_chars clean_chars] in H.
        pose proof (len_nonneg (clean_markdown raw_text (get_page_type obj))).
        rewrite Ho. lia.
      * apply IH in H. cbn [read_records written_records raw_chars clean_chars] in H.
        rewrite len_app in H. change (len [_]) with 1 in H.
        rewrite Ho. lia.
Qed.

End CleanerMore.

Section CleanerExtras.

Import Cleaner Spec Notions StripFacts CleanerFacts CleanerMore ReFacts.

(** X1. Whatever the input, [normalize_whitespace] returns tidy text: no
    carriage return, no tab, no two spaces in a row, no three newlines in a
    row and no white space at either end; so does [clean_markdown], whose
    last step it is. *)
Theorem normalize_whitespace_tidy (s page_type : str) :
  tidy (normalize_whitespace s) /\ tidy (clean_markdown s page_type).
Proof.
  split; [apply normal_tidy, normalize_normal|].
  unfold clean_markdown. apply normal_tidy, normalize_normal.
Qed.

(** X2. [dedupe_consecutive] only removes lines and keeps the order of the
    others; in its result no line with text repeats the line before it; and
    applying it twice changes nothing more. *)
Theorem dedupe_consecutive_keeps_order (lines : list str) :
  dedupe_consecutive lines `sublist_of` lines
  /\ (forall a line b,
        dedupe_consecutive lines = a ++ [line; line] ++ b -> strip line = [])
  /\ dedupe_consecutive (dedupe_consecutive lines) = dedupe_consecutive lines.
Proof.
  rewrite !dedupe_consecutive_from.
  pose proof (dedupe_from_deduped None lines) as Hd.
  split; [apply dedupe_from_sublist|]. split.
  - intros a line b E. rewrite E in Hd. eapply deduped_twice. exact Hd.
  - apply deduped_fix. exact Hd.
Qed.

(** X3. [strip_related_products_block] returns a prefix of the text, and
    the text itself unless the page is a product page. After it neither
    related-products heading is left in the text, so that a second
    application changes nothing. *)
Theorem strip_related_cut_complete (text page_type : str) :
  let cut := strip_related_products_block text page_type in
  cut `prefix_of` text
  /\ (page_type ≠ lit "product" -> cut = text)
  /\ (page_type = lit "product" ->
      Re.search related_en cut = None /\ Re.search related_ar cut = None)
  /\ strip_related_products_block cut page_type = cut.
Proof.
  intros cut. subst cut.
  destruct (decide (page_type = lit "product")) as [->|Hne].
  2:{ rewrite !strip_related_other by exact Hne.
      split; [reflexivity|]. split; [reflexivity|]. split; [contradiction | reflexivity]. }
  assert (Hen : Re.nullable related_en = false) by reflexivity.
  assert (Har : Re.nullable related_ar = false) by reflexivity.
  assert (Hcut : forall i,
             (forall j, (j < i)%nat -> Re.matches related_en (drop j text) = false) ->
             (forall j, (j < i)%nat -> Re.matches related_ar (drop j text) = false) ->
             Re.search related_en (rstrip (take i text)) = None
             /\ Re.search related_ar (rstrip (take i text)) = None).
  { intros i H1 H2.
    assert (Hlen : (length (rstrip (take i text)) <= i)%nat).
    { pose proof (rstrip_length (take i text)) as H. rewrite length_take in H. lia. }
    split; eapply search_prefix_none;
      eauto using rstrip_take_prefix. }
  assert (Hmain : Re.search related_en
                    (strip_related_products_block text (lit "product")) = None
                  /\ Re.search related_ar
                       (strip_related_products_block text (lit "product")) = None).
  { rewrite strip_related_product.
    destruct (Re.search related_en text) as [i|] eqn:E1;
      destruct (Re.search related_ar text) as [j|] eqn:E2.
    - apply search_spec in E1 as [_ L1]. apply search_spec in E2 as [_ L2].
      apply Hcut; intros k Hk; [apply L1 | apply L2]; lia.
    - apply search_spec in E1 as [_ L1].
      apply Hcut; [exact L1|]. intros k Hk.
      destruct (Nat.le_gt_cases k (length text)) as [Hle|Hgt].
      + apply (proj1 (search_none _ _) E2). exact Hle.
      + rewrite drop_ge by lia. cbn [Re.matches]. rewrite Har. reflexivity.
    - apply search_spec in E2 as [_ L2].
      apply Hcut; [|exact L2]. intros k Hk.
      destruct (Nat.le_gt_cases k (length text)) as [Hle|Hgt].
      + apply (proj1 (search_none _ _) E1). exact Hle.
      + rewrite drop_ge by lia. cbn [Re.matches]. rewrite Hen. reflexivity.
    - split; assumption. }
  split; [|split; [|split]].
  - rewrite strip_related_product.
    destruct (Re.search related_en text); destruct (Re.search related_ar text);
      try apply rstrip_take_prefix. reflexivity.
  - intros H. destruct H. reflexivity.
  - intros _. exact Hmain.
  - destruct Hmain as [H1 H2].
    rewrite (strip_related_product (strip_related_products_block _ _)).
    rewrite H1, H2. reflexivity.
Qed.

(** X4. Leading and trailing white space never changes what
    [should_drop_line] decides, and a line without text is never dropped. *)
Theorem should_drop_line_padding (a line b : str) :
  Forall (fun c => isspace c = true) a ->
  Forall (fun c => isspace c = true) b ->
  should_drop_line (a ++ line ++ b) = should_drop_line line
  /\ should_drop_line (a ++ b) = false.
Proof.
  intros Ha Hb. split.
  - unfold should_drop_line. rewrite strip_padding by assumption. reflexivity.
  - unfold should_drop_line. rewrite <- (app_nil_l b) at 1.
    rewrite strip_padding by assumption. reflexivity.
Qed.

Lemma should_drop_line_padding_witness :
  should_drop_line ([SP; TAB] ++ lit "Add to Wishlist" ++ [SP])
  = should_drop_line (lit "Add to Wishlist")
  /\ should_drop_line ([SP; TAB] ++ [SP]) = false.
Proof.
  apply (should_drop_line_padding [SP; TAB] (lit "Add to Wishlist") [SP]);
    repeat constructor.
Defined.

(** X5. A page of which every line is one that [should_drop_line] drops
    cleans to the empty text, and [process_file] writes no record for it. *)
Theorem boilerplate_page_not_written (raw page_type cleaned_at : str)
    (obj : gmap str json) (rest : list raw_line) (dst : list (gmap str json))
    (c : counters) :
  Forall (fun line => should_drop_line line = true)
         (split NL (strip_related_products_block
                      (normalize_whitespace raw) page_type)) ->
  obj !! lit "markdown" = Some (JStr raw) ->
  get_page_type obj = page_type ->
  clean_markdown raw page_type = []
  /\ exists c',
       process_lines cleaned_at (Object obj :: rest) dst c
       = process_lines cleaned_at rest dst c'.
Proof.
  intros Hall Hm Hp.
  assert (Hclean : clean_markdown raw page_type = []).
  { unfold clean_markdown.
    replace (List.filter _ _) with (@nil str); [reflexivity|].
    symmetry. induction Hall as [|l ls Hl _ IH]; [reflexivity|].
    simpl. rewrite Hl. exact IH. }
  split; [exact Hclean|].
  cbn [process_lines]. rewrite Hm. cbn [default from_option id]. cbv zeta.
  rewrite Hp, Hclean. eexists. reflexivity.
Qed.

Lemma boilerplate_page_witness :
  clean_markdown NAVIGATION_PAGE (lit "other") = []
  /\ exists c',
       process_lines [] [Object {[ lit "markdown" := JStr NAVIGATION_PAGE ]}] []
         {| read_records := 0; written_records := 0;
            raw_chars := 0; clean_chars := 0 |}
       = process_lines [] [] [] c'.
Proof.
  apply (boilerplate_page_not_written NAVIGATION_PAGE (lit "other") []
           {[ lit "markdown" := JStr NAVIGATION_PAGE ]} [] []).
  - apply List.Forall_forall, List.forallb_forall. vm_compute. reflexivity.
  - vm_compute. reflexivity.
  - vm_compute. reflexivity.
Defined.

(** X6. When [process_file] returns, its counters agree with what it did:
    [read_records] counts the JSON objects of the input, [written_records]
    the records written, which are no more than those read, and
    [clean_chars] is at least 40 times [written_records]. *)
Theorem process_file_counters (cleaned_at : str) (src : list raw_line)
    (dst : list (gmap str json)) (c : counters) :
  process_file cleaned_at src = (dst, Ok c) ->
  written_records c = len dst
  /\ read_records c = objects src
  /\ written_records c <= read_records c
  /\ 40 * written_records c <= clean_chars c
  /\ 0 <= raw_chars c.
Proof.
  intros H. unfold process_file in H. apply process_lines_counts in H.
  cbn [read_records written_records raw_chars clean_chars] in H.
  change (len []) with 0 in H. lia.
Qed.

Lemma process_file_counters_witness :
  exists dst c,
    process_file Scenario.clock_text Scenario.raw_shard = (dst, Ok c)
    /\ written_records c = len dst
    /\ read_records c = objects Scenario.raw_shard
    /\ written_records c <= read_records c
    /\ 40 * written_records c <= clean_chars c
    /\ 0 <= raw_chars c.
Proof.
  destruct (process_file Scenario.clock_text Scenario.raw_shard) as [dst r] eqn:E.
  assert (Hr : exists c, r = Ok c).
  { apply (f_equal snd) in E. vm_compute in E. subst r. eexists. reflexivity. }
  destruct Hr as [c ->]. exists dst, c. split; [reflexivity|].
  exact (process_file_counters _ _ _ _ E).
Defined.

End CleanerExtras.

(** ** More on the chunker *)

Module ChunkerMore.

Import Chunker Spec Notions ChunkerFacts.

Lemma merge_fold_big (m : Z) (chunks merged : list str) :
  Forall (fun c => m <= len c) chunks ->
  fold_left (merge_step m) chunks (merged, []) = (merged ++ chunks, []).
Proof.
  intros H. revert merged. induction H as [|c chunks Hc _ IH]; intros merged.
  - simpl. rewrite app_nil_r. reflexivity.
  - cbn [fold_left]. unfold merge_step at 2. cbn [truthy].
    destruct (Z.geb_spec (len c) m) as [_|Hlt]; [|lia].
    rewrite IH, <- app_assoc. reflexivity.
Qed.

Lemma merge_fold_weight (m : Z) (chunks : list str) (st : list str * str) :
  (weight (fold_left (merge_step m) chunks st) <= weight st + length chunks)%nat.
Proof.
  revert st. induction chunks as [|c chunks IH]; intros st; [simpl; lia|].
  cbn [fold_left length]. etransitivity; [apply IH|].
  enough (weight (merge_step m st c) <= S (weight st))%nat by lia.
  destruct st as [merged buf]. unfold merge_step, weight.
  destruct (len (if truthy buf then buf ++ SEP ++ c else c) >=? m); cbn [fst snd].
  - rewrite length_app. cbn [length truthy]. destruct (truthy buf); lia.
  - destruct (truthy (if truthy buf then buf ++ SEP ++ c else c));
      destruct (truthy buf); lia.
Qed.

Lemma attach_to_last_length (merged : list str) (buf : str) :
  length (attach_to_last merged buf) = length merged.
Proof.
  unfold attach_to_last. destruct (last merged); [apply length_insert | reflexivity].
Qed.

(** *** Decimal numbers *)

Lemma utf8_decode_ascii (bs : list N) :
  Forall (fun b => (b < 128)%N) bs -> utf8_decode bs = bs.
Proof.
  induction 1 as [|b bs Hb _ IH]; [reflexivity|].
  simpl. apply N.ltb_lt in Hb. rewrite Hb, IH. reflexivity.
Qed.

Lemma pretty_N_char_ascii (x : N) :
  (Ascii.N_of_ascii (pretty_N_char x) < 128)%N.
Proof. unfold pretty_N_char. repeat case_match; reflexivity. Qed.

Lemma pretty_N_go_ascii (x : N) (s : string) :
  ascii_string s -> ascii_string (pretty_N_go x s).
Proof.
  revert s. induction (N.lt_wf_0 x) as [x _ IH]; intros s Hs.
  destruct (N.eq_dec x 0%N) as [->|Hx].
  - rewrite pretty_N_go_0. exact Hs.
  - rewrite pretty_N_go_step by lia. apply IH.
    + apply N.div_lt; lia.
    + constructor; [apply pretty_N_char_ascii | exact Hs].
Qed.

Lemma pretty_N_ascii (x : N) : ascii_string (pretty x).
Proof.
  unfold pretty, pretty_N. destruct (decide (x = 0%N)).
  - repeat constructor.
  - apply pretty_N_go_ascii. constructor.
Qed.

Lemma pretty_Z_ascii (x : Z) : ascii_string (pretty x).
Proof.
  destruct x as [|p|p]; unfold pretty, pretty_Z.
  - repeat constructor.
  - apply (pretty_N_ascii (Npos p)).
  - constructor; [reflexivity | apply (pretty_N_ascii (Npos p))].
Qed.

Lemma list_ascii_of_string_inj (s t : string) :
  String.list_ascii_of_string s = String.list_ascii_of_string t -> s = t.
Proof.
  intros H. rewrite <- (String.string_of_list_ascii_of_string s),
    <- (String.string_of_list_ascii_of_string t), H. reflexivity.
Qed.

Lemma N_of_ascii_inj (a b : Ascii.ascii) :
  Ascii.N_of_ascii a = Ascii.N_of_ascii b -> a = b.
Proof.
  intros H. rewrite <- (Ascii.ascii_N_embedding a), <- (Ascii.ascii_N_embedding b), H.
  reflexivity.
Qed.

Lemma str_of_int_inj (a b : Z) : str_of_int a = str_of_int b -> a = b.
Proof.
  unfold str_of_int, lit. intros H.
  rewrite !utf8_decode_ascii in H by apply pretty_Z_ascii.
  apply (inj pretty). apply list_ascii_of_string_inj.
  revert H. generalize (String.list_ascii_of_string (pretty a)).
  generalize (String.list_ascii_of_string (pretty b)).
  intros l2 l1. revert l2. induction l1 as [|x l1 IH]; intros [|y l2] H;
    try discriminate; [reflexivity|].
  simpl in H. inversion H as [[Hx Hl]]. f_equal; [apply N_of_ascii_inj, Hx | apply IH, Hl].
Qed.

End ChunkerMore.

Section ChunkerExtras.

Import Chunker Spec Notions ChunkerFacts ChunkerMore.

Variable sha256_hexdigest : str -> str.
Variable create_documents : list str -> str -> result (list str).

Local Abbreviation process_record := (process_record sha256_hexdigest create_documents).

(** X7. Spans that all reach [min_chars] are returned as they are: nothing
    is merged. *)
Theorem merge_keeps_large_spans (chunks : list str) (min_chars : Z) :
  Forall (fun c => min_chars <= len c) chunks ->
  merge_small_chunks chunks min_chars = chunks.
Proof.
  intros H. unfold merge_small_chunks. destruct chunks as [|c chunks]; [reflexivity|].
  cbn [truthy negb]. rewrite merge_fold_big by exact H. reflexivity.
Qed.

(** X8. [merge_small_chunks] never returns more chunks than it was given
    spans. *)
Theorem merge_never_more_chunks (chunks : list str) (min_chars : Z) :
  (length (merge_small_chunks chunks min_chars) <= length chunks)%nat.
Proof.
  unfold merge_small_chunks. destruct chunks as [|c chunks]; [reflexivity|].
  cbn [truthy negb].
  pose proof (merge_fold_weight min_chars (c :: chunks) ([], [])) as H.
  destruct (fold_left (merge_step min_chars) (c :: chunks) ([], []))
    as [merged buf].
  unfold weight in H. cbn [fst snd truthy length] in H.
  destruct (truthy buf).
  - destruct (truthy merged).
    + rewrite attach_to_last_length. cbn [length]. lia.
    + rewrite length_app. cbn [length] in *. lia.
  - cbn [length]. lia.
Qed.

Lemma imap_chunk_id {A} (f : nat -> A -> chunk_record) (g : nat -> str)
    (l : list A) (k : nat) :
  (forall i x, chunk_id (f i x) = g (k + i)%nat) ->
  map chunk_id (imap f l) = map g (seq k (length l)).
Proof.
  revert f k. induction l as [|x l IH]; intros f k Hf; [reflexivity|].
  simpl. rewrite Hf, Nat.add_0_r. f_equal.
  apply IH. intros i y. unfold compose. rewrite Hf. f_equal. lia.
Qed.

(** X9. The chunks of one document have pairwise distinct [chunk_id]s; each
    id is the [doc_id] of the document followed by [_c] and the index of the
    chunk, and [char_count] is the length of the text. *)
Theorem chunk_ids_unique (record : cleaned_record) (calls calls' : list str)
    (chunks : list chunk_record) :
  process_record record calls = (Ok chunks, calls') ->
  NoDup (map chunk_id chunks)
  /\ Forall (fun c =>
               doc_id c = make_doc_id sha256_hexdigest
                            (get_or (rec_page_type record) (lit "other"))
                            (get_or (rec_url record) [])
               /\ chunk_id c = doc_id c ++ lit "_c" ++ str_of_int (chunk_index c)
               /\ char_count c = len (text c))
            chunks.
Proof.
  unfold Chunker.process_record.
  destruct (len (get_or (rec_text record) []) <? MIN_DOC_CHARS).
  - intros H. inversion H; subst. split.
    + apply NoDup_singleton.
    + constructor; [|constructor]. repeat split.
  - destruct (create_documents calls (get_or (rec_text record) []))
      as [raw_chunks|e]; [|discriminate].
    intros H. inversion H; subst. clear H. split.
    + rewrite (imap_chunk_id _
                 (fun i => make_doc_id sha256_hexdigest
                             (get_or (rec_page_type record) (lit "other"))
                             (get_or (rec_url record) [])
                           ++ lit "_c" ++ str_of_int (Z.of_nat i)) _ 0)
        by (intros i x; reflexivity).
      apply NoDup_fmap_2; [|apply NoDup_seq].
      intros i j E. apply app_inv_head in E. apply app_inv_head in E.
      apply str_of_int_inj in E. lia.
    + apply Forall_forall. intros c Hc.
      apply elem_of_lookup_imap in Hc as (i & x & -> & _). repeat split.
Qed.

End ChunkerExtras.

(** X7 on two spans of five characters and a threshold of five. *)
Lemma merge_keeps_large_spans_witness :
  Chunker.merge_small_chunks [lit "abcde"; lit "fghij"] 5
  = [lit "abcde"; lit "fghij"].
Proof.
  apply (merge_keeps_large_spans [lit "abcde"; lit "fghij"] 5).
  repeat constructor; vm_compute; discriminate.
Defined.

(** X9 on a page of 120 characters that the splitter cuts in two: the two
    chunks have different ids. *)
Lemma chunk_ids_unique_witness :
  exists c0 c1,
    fst (Chunker.process_record (fun _ => lit "0f3a9c1d77") Notions.in_two
                                Notions.ABOUT_PAGE [])
    = Ok [c0; c1]
    /\ Chunker.chunk_id c0 = lit "policy_support_0f3a9c1d_c0"
    /\ Chunker.chunk_id c1 = lit "policy_support_0f3a9c1d_c1"
    /\ NoDup (map Chunker.chunk_id [c0; c1]).
Proof.
  destruct (Chunker.process_record (fun _ => lit "0f3a9c1d77") Notions.in_two
                                   Notions.ABOUT_PAGE [])
    as [r calls'] eqn:E.
  assert (Hr : exists c0 c1,
             r = Ok [c0; c1]
             /\ Chunker.chunk_id c0 = lit "policy_support_0f3a9c1d_c0"
             /\ Chunker.chunk_id c1 = lit "policy_support_0f3a9c1d_c1").
  { apply (f_equal fst) in E. vm_compute in E. subst r.
    eexists _, _. split; [reflexivity|]. split; vm_compute; reflexivity. }
  destruct Hr as (c0 & c1 & -> & H0 & H1). exists c0, c1.
  split; [reflexivity|]. split; [exact H0|]. split; [exact H1|].
  exact (proj1 (chunk_ids_unique _ _ _ _ _ _ E)).
Defined.

(** ** The record loop of the chunker *)

Module LoopFacts.

Import Chunker ChunkerMain Spec Notions ChunkerFacts ChunkerMore.

Lemma encodable_app (a b : str) :
  encodable (a ++ b) = encodable a && encodable b.
Proof. apply forallb_app. Qed.

Lemma encodable_take (n : nat) (s : str) :
  encodable s = true -> encodable (take n s) = true.
Proof.
  intros H. rewrite <- (take_drop n s), encodable_app in H.
  apply andb_true_iff in H. apply H.
Qed.

Lemma encodable_ascii (s : str) :
  Forall (fun b => (b < 128)%N) s -> encodable s = true.
Proof.
  induction 1 as [|c s Hc _ IH]; [reflexivity|].
  cbn [encodable forallb]. fold (encodable s). rewrite IH, andb_true_r.
  destruct (N.leb_spec 55296 c) as [H|H]; [lia | reflexivity].
Qed.

Lemma encodable_str_of_int (n : Z) : encodable (str_of_int n) = true.
Proof.
  unfold str_of_int, lit. pose proof (pretty_Z_ascii n) as H.
  rewrite utf8_decode_ascii by exact H. apply encodable_ascii, H.
Qed.

Lemma encodable_get_or (field : option str) (d : str) :
  field_ok field = true -> encodable d = true ->
  encodable (get_or field d) = true.
Proof. destruct field; intros H1 H2; [exact H1 | exact H2]. Qed.

(** *** Merging keeps the text encodable *)

Lemma merge_fold_encodable (m : Z) (chunks : list str) :
  Forall (fun c => encodable c = true) chunks ->
  forall st,
    Forall (fun c => encodable c = true) (fst st) -> encodable (snd st) = true ->
    Forall (fun c => encodable c = true) (fst (fold_left (merge_step m) chunks st))
    /\ encodable (snd (fold_left (merge_step m) chunks st)) = true.
Proof.
  induction 1 as [|c chunks Hc _ IH]; intros [merged buf] Hm Hb;
    cbn [fold_left]; [split; assumption|].
  cbn [fst snd] in Hm, Hb. apply IH.
  - unfold merge_step.
    destruct (len (if truthy buf then buf ++ SEP ++ c else c) >=? m); cbn [fst];
      [|exact Hm].
    apply Forall_app. split; [exact Hm|]. constructor; [|constructor].
    destruct (truthy buf); [|exact Hc].
    rewrite !encodable_app, Hb, Hc. reflexivity.
  - unfold merge_step.
    destruct (len (if truthy buf then buf ++ SEP ++ c else c) >=? m); cbn [snd];
      [reflexivity|].
    destruct (truthy buf); [|exact Hc].
    rewrite !encodable_app, Hb, Hc. reflexivity.
Qed.

Lemma merge_encodable (chunks : list str) (m : Z) :
  Forall (fun c => encodable c = true) chunks ->
  Forall (fun c => encodable c = true) (merge_small_chunks chunks m).
Proof.
  intros H. unfold merge_small_chunks.
  destruct (truthy chunks); cbn [negb]; [|exact H].
  destruct (merge_fold_encodable m chunks H ([], [])) as [Hm Hb];
    [constructor | reflexivity |].
  destruct (fold_left (merge_step m) chunks ([], [])) as [merged buf].
  cbn [fst snd] in Hm, Hb.
  destruct (truthy buf); [|exact Hm].
  destruct (truthy merged).
  - unfold attach_to_last. destruct (last merged) as [l|] eqn:El; [|exact Hm].
    apply Forall_insert; [exact Hm|].
    apply last_Some in El as [l' ->]. apply Forall_app in Hm as [_ Hl].
    inversion Hl; subst. rewrite !encodable_app.
    rewrite Hb. replace (encodable l) with true by (symmetry; assumption).
    reflexivity.
  - apply Forall_app. split; [exact Hm|]. constructor; [exact Hb | constructor].
Qed.

(** *** Writing *)

Lemma write_chunks_spec (chunks : list chunk_record) :
  forall out_f file_chunks,
    exists written,
      (write_chunks chunks out_f file_chunks).1.1 = out_f ++ written
      /\ (write_chunks chunks out_f file_chunks).1.2 = file_chunks + len written
      /\ ((write_chunks chunks out_f file_chunks).2 = None -> written = chunks).
Proof.
  induction chunks as [|c chunks IH]; intros out_f file_chunks;
    cbn [write_chunks].
  - exists []. cbn [fst snd]. rewrite app_nil_r. unfold len. cbn [length].
    split; [reflexivity|]. split; [lia | reflexivity].
  - destruct (writable c).
    + destruct (IH (out_f ++ [c]) (file_chunks + 1)) as (written & H1 & H2 & H3).
      exists (c :: written). rewrite H1, H2, <- app_assoc.
      split; [reflexivity|]. split.
      * unfold len. cbn [length]. lia.
      * intros H. rewrite (H3 H). reflexivity.
    + exists []. cbn [fst snd]. rewrite app_nil_r. unfold len. cbn [length].
      split; [reflexivity|]. split; [lia | discriminate].
Qed.

Lemma write_chunks_all (chunks : list chunk_record) :
  Forall (fun c => writable c = true) chunks ->
  forall out_f file_chunks,
    write_chunks chunks out_f file_chunks
    = (out_f ++ chunks, file_chunks + len chunks, None).
Proof.
  induction 1 as [|c chunks Hc _ IH]; intros out_f file_chunks;
    cbn [write_chunks].
  - rewrite app_nil_r. unfold len. cbn [length]. f_equal. f_equal. lia.
  - rewrite Hc, IH, <- app_assoc. unfold len. cbn [length app].
    f_equal. f_equal. lia.
Qed.

End LoopFacts.

Section ChunkerLoop.

Import Chunker ChunkerMain Spec Notions ChunkerFacts ChunkerMore LoopFacts.

Variable sha256_hexdigest : str -> str.
Variable create_documents : list str -> str -> result (list str).
Variable encode_error : str -> str.
Variable print_raises : str -> option str.

Local Abbreviation process_record := (process_record sha256_hexdigest create_documents).
Local Abbreviation try_process_record :=
  (try_process_record sha256_hexdigest create_documents encode_error).
Local Abbreviation process_source :=
  (process_source sha256_hexdigest create_documents encode_error print_raises).

Lemma try_process_record_calls (record : cleaned_record) (calls : list str) :
  snd (try_process_record record calls)
  = calls ++ split_texts [Rec record].
Proof.
  unfold ChunkerMain.try_process_record, split_texts. cbn [omap list_omap].
  destruct (encodable (get_or (rec_url record) [])); cbn [andb];
    [|rewrite app_nil_r; reflexivity].
  unfold Chunker.process_record.
  destruct (len (get_or (rec_text record) []) <? MIN_DOC_CHARS); cbn [negb].
  - rewrite app_nil_r. reflexivity.
  - destruct (create_documents calls (get_or (rec_text record) [])); reflexivity.
Qed.

Lemma split_texts_cons (l : line) (lines : list line) :
  split_texts (l :: lines) = split_texts [l] ++ split_texts lines.
Proof.
  unfold split_texts. cbn [omap list_omap].
  destruct l as [| | |record]; try reflexivity.
  destruct (_ && _); reflexivity.
Qed.

Lemma process_source_run (lines : list line) :
  forall line_no out_f calls fr fc out_f' calls' fr' fc',
    process_source lines line_no out_f calls fr fc
    = (out_f', calls', Finished fr' fc') ->
    calls' = calls ++ split_texts lines
    /\ fr' - fr = records lines
    /\ fc' - fc = len out_f' - len out_f
    /\ out_f `prefix_of` out_f'.
Proof.
  induction lines as [|l lines IH];
    intros line_no out_f calls fr fc out_f' calls' fr' fc' H.
  - cbn [ChunkerMain.process_source] in H. inversion H; subst.
    unfold split_texts, records, len. cbn. rewrite app_nil_r.
    repeat split; [lia | lia | reflexivity].
  - rewrite split_texts_cons.
    destruct l as [|e|e|record]; cbn [ChunkerMain.process_source] in H;
      try discriminate.
    + apply IH in H. exact H.
    + assert (Hr : records (Rec record :: lines) = 1 + records lines).
      { unfold records, len. cbn [List.filter length]. lia. }
      rewrite Hr. cbv zeta in H.
      pose proof (try_process_record_calls record calls) as Hc.
      destruct (try_process_record record calls) as [[chunks|e] calls1];
        cbn [snd] in Hc; subst calls1.
      * destruct (write_chunks_spec chunks out_f fc) as (written & W1 & W2 & W3).
        destruct (write_chunks chunks out_f fc) as [[out1 fc1] [c|]];
          [discriminate|].
        cbn [fst snd] in W1, W2, W3. subst out1 fc1.
        assert (H' : process_source lines (line_no + 1) (out_f ++ written)
                       (calls ++ split_texts [Rec record]) (fr + 1)
                       (fc + len written)
                     = (out_f', calls', Finished fr' fc')).
        { destruct ((fr + 1) mod 10 =? 0); [|exact H].
          destruct (print_raises _); [discriminate | exact H]. }
        apply IH in H' as (H1 & H2 & H3 & H4).
        rewrite app_assoc. split; [exact H1|]. split; [lia|].
        rewrite len_app in H3. split; [lia|].
        etransitivity; [|exact H4]. apply prefix_app_r. reflexivity.
      * destruct (print_raises _); [discriminate|].
        apply IH in H as (H1 & H2 & H3 & H4).
        rewrite app_assoc. split; [exact H1|]. split; [lia|].
        split; assumption.
Qed.

(** The chunks of a record whose strings can be encoded can be written,
    when the digest and the spans of the splitter can. *)
Lemma process_record_writable (record : cleaned_record) (calls calls' : list str)
    (chunks : list chunk_record) :
  (forall u, encodable (sha256_hexdigest u) = true) ->
  (forall cs t spans,
     encodable t = true -> create_documents cs t = Ok spans ->
     Forall (fun c => encodable c = true) spans) ->
  well_formed (Rec record) = true ->
  process_record record calls = (Ok chunks, calls') ->
  Forall (fun c => writable c = true) chunks.
Proof.
  intros Hsha Hsplit Hwf H. cbn [well_formed] in Hwf.
  repeat (apply andb_true_iff in Hwf as [Hwf ?]).
  assert (Hmk : forall idx t,
             encodable t = true ->
             writable (mk_chunk record
                         (make_doc_id sha256_hexdigest
                            (get_or (rec_page_type record) (lit "other"))
                            (get_or (rec_url record) []))
                         (get_or (rec_url record) [])
                         (get_or (rec_page_type record) (lit "other")) idx t)
             = true).
  { intros idx t Ht. unfold writable, mk_chunk, make_doc_id.
    cbn [doc_id chunk_id url language page_type source_title crawled_at text].
    rewrite !encodable_app, encodable_str_of_int, Ht.
    rewrite (encodable_take 8 _ (Hsha _)).
    rewrite !encodable_get_or by (assumption || reflexivity).
    reflexivity. }
  unfold Chunker.process_record in H.
  destruct (len (get_or (rec_text record) []) <? MIN_DOC_CHARS).
  - inversion H; subst. constructor; [|constructor].
    apply Hmk, encodable_get_or; [assumption | reflexivity].
  - destruct (create_documents calls (get_or (rec_text record) []))
      as [spans|e] eqn:E; [|discriminate].
    inversion H; subst. clear H.
    apply Hsplit in E; [|apply encodable_get_or; [assumption | reflexivity]].
    apply (merge_encodable _ MIN_CHUNK_CHARS) in E.
    apply Forall_forall. intros c Hc.
    apply elem_of_lookup_imap in Hc as (i & t & -> & Hi).
    apply Hmk. eapply Forall_lookup_1 in E; [exact E | exact Hi].
Qed.

Lemma process_source_total (lines : list line) :
  (forall s, print_raises s = None) ->
  (forall u, encodable (sha256_hexdigest u) = true) ->
  (forall cs t spans,
     encodable t = true -> create_documents cs t = Ok spans ->
     Forall (fun c => encodable c = true) spans) ->
  Forall (fun l => well_formed l = true) lines ->
  forall line_no out_f calls fr fc,
    exists out_f' calls' fr' fc',
      process_source lines line_no out_f calls fr fc
      = (out_f', calls', Finished fr' fc').
Proof.
  intros Hprint Hsha Hsplit. induction 1 as [|l lines Hl _ IH];
    intros line_no out_f calls fr fc.
  - eexists _, _, _, _. reflexivity.
  - destruct l as [|e|e|record]; try discriminate Hl;
      cbn [ChunkerMain.process_source]; [apply IH|].
    cbv zeta.
    assert (Henc : encodable (get_or (rec_url record) []) = true).
    { cbn [well_formed] in Hl. repeat (apply andb_true_iff in Hl as [Hl ?]).
      apply encodable_get_or; [assumption | reflexivity]. }
    unfold ChunkerMain.try_process_record. rewrite Henc.
    destruct (process_record record calls) as [[chunks|e] calls1] eqn:E.
    + rewrite (write_chunks_all chunks
                 (process_record_writable _ _ _ _ Hsha Hsplit Hl E)).
      destruct ((fr + 1) mod 10 =? 0); [rewrite Hprint|]; apply IH.
    + rewrite Hprint. apply IH.
Qed.

(** X10. The record loop of [main], on the lines of one file. Whenever it
    reaches the end of the file, the splitter has been called once for each
    record that has a url that can be encoded and a text of [MIN_DOC_CHARS]
    characters or more, in the order of the file, and for no other record;
    [file_records] counts the records and [file_chunks] the chunks written,
    and what was written before stays. And it does reach the end of the
    file, whatever else the splitter does (a record on which it raises is
    skipped with a warning), when every line is empty or an object whose
    strings can be encoded, the console takes what is printed, and the
    digest and the spans that the splitter returns can be encoded. *)
Theorem chunker_loop_contains_failures (lines : list line) (line_no : Z)
    (out_f : list chunk_record) (calls : list str) :
  (forall out_f' calls' file_records file_chunks,
     process_source lines line_no out_f calls 0 0
     = (out_f', calls', Finished file_records file_chunks) ->
     calls' = calls ++ split_texts lines
     /\ file_records = records lines
     /\ file_chunks = len out_f' - len out_f
     /\ out_f `prefix_of` out_f')
  /\ ((forall s, print_raises s = None) ->
      (forall u, encodable (sha256_hexdigest u) = true) ->
      (forall cs t spans,
         encodable t = true -> create_documents cs t = Ok spans ->
         Forall (fun c => encodable c = true) spans) ->
      Forall (fun l => well_formed l = true) lines ->
      exists out_f' file_records file_chunks,
        process_source lines line_no out_f calls 0 0
        = (out_f', calls ++ split_texts lines,
           Finished file_records file_chunks)).
Proof.
  assert (Hrun : forall out_f' calls' file_records file_chunks,
             process_source lines line_no out_f calls 0 0
             = (out_f', calls', Finished file_records file_chunks) ->
             calls' = calls ++ split_texts lines
             /\ file_records = records lines
             /\ file_chunks = len out_f' - len out_f
             /\ out_f `prefix_of` out_f').
  { intros out_f' calls' fr' fc' E.
    destruct (process_source_run _ _ _ _ _ _ _ _ _ _ E) as (H1 & H2 & H3 & H4).
    split; [exact H1|]. split; [lia|]. split; [lia | exact H4]. }
  split; [exact Hrun|].
  intros Hprint Hsha Hsplit Hwf.
  destruct (process_source_total lines Hprint Hsha Hsplit Hwf line_no out_f calls 0 0)
    as (out_f' & calls' & fr' & fc' & E).
  exists out_f', fr', fc'. rewrite E.
  destruct (Hrun _ _ _ _ E) as (-> & _). reflexivity.
Qed.

End ChunkerLoop.

(** X10 on a shard of a short page, an empty line and a page of 120
    characters, with a splitter that fails: the loop reaches the end of the
    file, the long page is skipped, and the short page is written. *)
Lemma chunker_loop_witness :
  exists out_f',
    ChunkerMain.process_source (fun _ => lit "0f3a9c1d77") Notions.splitter_down
      (fun _ => []) Notions.console Notions.SHARD 1 [] [] 0 0
    = (out_f', [replicate 120 120%N], ChunkerMain.Finished 2 1)
    /\ length out_f' = 1%nat.
Proof.
  destruct (chunker_loop_contains_failures (fun _ => lit "0f3a9c1d77")
              Notions.splitter_down (fun _ => []) Notions.console
              Notions.SHARD 1 [] [])
    as [Hrun Hends].
  destruct Hends as (out_f' & fr & fc & E).
  - reflexivity.
  - intros u. vm_compute. reflexivity.
  - intros cs t spans _ H. discriminate H.
  - repeat constructor.
  - destruct (Hrun _ _ _ _ E) as (_ & Hfr & Hfc & _).
    assert (Hout : length out_f' = 1%nat).
    { apply (f_equal (fun x => length x.1.1)) in E. vm_compute in E.
      symmetry. exact E. }
    exists out_f'. split; [|exact Hout].
    assert (Hcalls : [] ++ Notions.split_texts Notions.SHARD
                     = [replicate 120 120%N]) by (vm_compute; reflexivity).
    assert (Hrecords : fr = 2) by (rewrite Hfr; vm_compute; reflexivity).
    assert (Hchunks : fc = 1) by (rewrite Hfc; unfold len; rewrite Hout; reflexivity).
    rewrite E, Hcalls, Hrecords, Hchunks. reflexivity.
Defined.

(** ** More on the retriever and the API *)

Module RetrieverMore.

Import Retriever Spec Notions SessionFacts.

(** *** Citations *)

Lemma citation_step_eq (seen : gset str) (urls : list str) (doc : Document) :
  citation_step (seen, urls) doc
  = if truthy (url_of doc) && negb (bool_decide (url_of doc ∈ seen))
    then ({[url_of doc]} ∪ seen, urls ++ [url_of doc])
    else (seen, urls).
Proof. reflexivity. Qed.

Lemma citation_fold (docs : list Document) :
  forall (seen : gset str) (urls : list str),
    (forall u, u ∈ seen <-> u ∈ urls) -> NoDup urls ->
    let st := fold_left citation_step docs (seen, urls) in
    (forall u, u ∈ fst st <-> u ∈ snd st)
    /\ NoDup (snd st)
    /\ urls `prefix_of` snd st
    /\ (forall u, u ∈ snd st
                  <-> u ∈ urls \/ (u ≠ [] /\ exists doc, doc ∈ docs /\ url_of doc = u))
    /\ (length (snd st) <= length urls + length docs)%nat.
Proof.
  induction docs as [|doc docs IH]; intros seen urls Hseen Hnd; cbn [fold_left];
    cbv zeta.
  - cbn [fst snd]. split; [exact Hseen|]. split; [exact Hnd|].
    split; [reflexivity|]. split; [|cbn [length]; lia].
    intros u. split; [tauto|]. intros [H|(_ & doc & Hd & _)]; [exact H|].
    apply elem_of_nil in Hd. destruct Hd.
  - rewrite citation_step_eq. cbv zeta in IH.
    destruct (truthy (url_of doc)) eqn:Et; cbn [andb].
    + destruct (bool_decide (url_of doc ∈ seen)) eqn:Es; cbn [negb].
      * apply bool_decide_eq_true_1 in Es.
        destruct (IH seen urls Hseen Hnd) as (H1 & H2 & H3 & H4 & H5).
        split; [exact H1|]. split; [exact H2|]. split; [exact H3|].
        split; [|cbn [length]; lia].
        intros u. rewrite H4. split.
        -- intros [H|(Hu & d & Hd & E)]; [left; exact H|].
           right. split; [exact Hu|]. exists d. split; [right; exact Hd | exact E].
        -- intros [H|(Hu & d & Hd & E)]; [left; exact H|].
           apply elem_of_cons in Hd as [->|Hd].
           ++ left. apply Hseen. rewrite <- E. exact Es.
           ++ right. split; [exact Hu|]. exists d. split; assumption.
      * apply bool_decide_eq_false_1 in Es.
        assert (Hseen' : forall u, u ∈ ({[url_of doc]} ∪ seen : gset str)
                                   <-> u ∈ urls ++ [url_of doc]).
        { intros u. rewrite elem_of_union, elem_of_singleton, elem_of_app,
            list_elem_of_singleton, Hseen. tauto. }
        assert (Hnd' : NoDup (urls ++ [url_of doc])).
        { apply NoDup_app. split; [exact Hnd|]. split; [|apply NoDup_singleton].
          intros u Hu Hu'. apply list_elem_of_singleton in Hu'. subst u.
          apply Es, Hseen, Hu. }
        destruct (IH _ _ Hseen' Hnd') as (H1 & H2 & H3 & H4 & H5).
        split; [exact H1|]. split; [exact H2|].
        split; [etransitivity; [apply prefix_app_r; reflexivity | exact H3]|].
        split; [|rewrite length_app in H5; cbn [length] in *; lia].
        intros u. rewrite H4, elem_of_app, list_elem_of_singleton. split.
        -- intros [[H| ->]|(Hu & d & Hd & E)].
           ++ left. exact H.
           ++ right. split; [apply truthy_true; exact Et|].
              exists doc. split; [left | reflexivity].
           ++ right. split; [exact Hu|]. exists d. split; [right; exact Hd | exact E].
        -- intros [H|(Hu & d & Hd & E)]; [left; left; exact H|].
           apply elem_of_cons in Hd as [->|Hd].
           ++ left. right. symmetry. exact E.
           ++ right. split; [exact Hu|]. exists d. split; assumption.
    + apply truthy_false in Et.
      destruct (IH seen urls Hseen Hnd) as (H1 & H2 & H3 & H4 & H5).
      split; [exact H1|]. split; [exact H2|]. split; [exact H3|].
      split; [|cbn [length]; lia].
      intros u. rewrite H4. split.
      * intros [H|(Hu & d & Hd & E)]; [left; exact H|].
        right. split; [exact Hu|]. exists d. split; [right; exact Hd | exact E].
      * intros [H|(Hu & d & Hd & E)]; [left; exact H|].
        apply elem_of_cons in Hd as [->|Hd].
        -- congruence.
        -- right. split; [exact Hu|]. exists d. split; assumption.
Qed.

End RetrieverMore.

Section RetrieverExtras.

Import Retriever Spec Notions SessionFacts RetrieverMore.

Variable uuid4_hex : list call -> str.
Variable llm_invoke : list call -> llm_input -> result str.
Variable llm_stream : list call -> list lc_message -> list str * option str.
Variable retriever_invoke : list call -> str -> result (list Document).
Variable now_isoformat : list call -> str.

Local Abbreviation create_session := (create_session uuid4_hex).
Local Abbreviation resolve_session := (resolve_session uuid4_hex).
Local Abbreviation query :=
  (query uuid4_hex llm_invoke retriever_invoke now_isoformat).
Local Abbreviation consume :=
  (consume uuid4_hex llm_invoke llm_stream retriever_invoke now_isoformat).
Local Abbreviation chat :=
  (Api.chat uuid4_hex llm_invoke retriever_invoke now_isoformat).
Local Abbreviation resolved := (resolved uuid4_hex).


(** *** The store across a request *)

Lemma touches_only_refl (k : str) (s : gmap str (list message)) :
  touches_only k s s.
Proof. split; auto. Qed.

Lemma touches_only_insert (k : str) (h : list message)
    (s0 s : gmap str (list message)) :
  touches_only k s0 s -> touches_only k s0 (<[k := h]> s).
Proof.
  intros [H1 H2]. split.
  - intros k' Hne. rewrite lookup_insert_ne by congruence. apply H1, Hne.
  - intros k' Hk'. destruct (decide (k = k')) as [->|Hne].
    + rewrite lookup_insert_eq. eauto.
    + rewrite lookup_insert_ne by exact Hne. apply H2, Hk'.
Qed.

Lemma bounded_insert (k : str) (h : list message) (s : gmap str (list message)) :
  bounded s -> (length h <= 20)%nat -> bounded (<[k := h]> s).
Proof.
  intros Hb Hh k' h' H. destruct (decide (k = k')) as [->|Hne].
  - rewrite lookup_insert_eq in H. inversion H; subst. exact Hh.
  - rewrite lookup_insert_ne in H by exact Hne. eapply Hb, H.
Qed.

Lemma bounded_saved (w1 : CellAvenueRAG) (k question reply : str) :
  bounded (_sessions w1) -> bounded (saved w1 k question reply).
Proof. intros H. apply bounded_insert; [exact H | apply last_n_length]. Qed.

(** The resolution of the session: the id, and the store after it. *)
Lemma resolve_session_resolved (session_id : option str) (w : CellAvenueRAG) :
  exists w1,
    resolve_session session_id w = (Ok (resolved session_id w), w1)
    /\ (_sessions w1 = _sessions w
        \/ _sessions w1 = <[resolved session_id w := []]> (_sessions w)).
Proof.
  destruct session_id as [s|]; cbn [Retriever.resolve_session Notions.resolved].
  - destruct (truthy s).
    + exists w. split; [reflexivity | left; reflexivity].
    + eexists. split; [apply create_session_eq | right; reflexivity].
  - eexists. split; [apply create_session_eq | right; reflexivity].
Qed.

(** The store that [query] leaves: the one that the resolution of the
    session left, with the turn saved when it returns. *)
Lemma query_store (question : str) (session_id : option str)
    (w : CellAvenueRAG) :
  exists w1,
    (_sessions w1 = _sessions w
     \/ _sessions w1 = <[resolved session_id w := []]> (_sessions w))
    /\ match query question session_id w with
       | (Ok resp, w') =>
         Retriever.session_id resp = resolved session_id w
         /\ _sessions w'
            = saved w1 (resolved session_id w) question (answer resp)
       | (Raise _, w') => _sessions w' = _sessions w1
       end.
Proof.
  destruct (resolve_session_resolved session_id w) as (w1 & Hres & Hw1).
  exists w1. split; [exact Hw1|].
  destruct (query question session_id w) as [r w'] eqn:E.
  apply query_outcome in E as (k & w1' & Hres' & H).
  rewrite Hres in Hres'. inversion Hres'; subst k w1'. exact H.
Qed.

Lemma stream_store (question : str) (session_id : option str) (n : nat)
    (w : CellAvenueRAG) :
  exists w1,
    (_sessions w1 = _sessions w
     \/ _sessions w1 = <[resolved session_id w := []]> (_sessions w))
    /\ match consume n (query_stream question session_id) w with
       | (rs, _, w') =>
         (existsb yields_metadata rs = false
          /\ (_sessions w' = _sessions w \/ _sessions w' = _sessions w1))
         \/ (exists chunks m tail,
               rs = token_results chunks ++ Yield (Metadata m) :: tail
               /\ (tail = [] \/ tail = [StopIteration])
               /\ meta_session_id m = resolved session_id w
               /\ _sessions w'
                  = saved w1 (resolved session_id w) question (concat chunks))
       end.
Proof.
  destruct (resolve_session_resolved session_id w) as (w1 & Hres & Hw1).
  exists w1. split; [exact Hw1|].
  destruct (consume n (query_stream question session_id) w) as [[rs g] w'] eqn:E.
  apply consume_created in E as (k & w1' & Hres' & H).
  rewrite Hres in Hres'. inversion Hres'; subst k w1'.
  destruct H as [[Hno [[_ ->]|H]]
                |(p & w2 & chunks & m & tail & _ & _ & Hrs & Htail & Hm & Hs)].
  - left. split; [exact Hno | left; reflexivity].
  - left. split; [exact Hno | right; exact H].
  - right. exists chunks, m, tail. repeat split; assumption.
Qed.



(** *** The turn that a request saves *)

Lemma last_n_keeps {A} (n : nat) (l t : list A) :
  (length t <= n)%nat -> exists older, last_n n (l ++ t) = older ++ t.
Proof.
  intros H. unfold last_n. exists (drop (length (l ++ t) - n) l).
  apply drop_app_le. rewrite length_app. lia.
Qed.

Lemma saved_turn (w1 w' : CellAvenueRAG) (k question reply : str) :
  _sessions w' = saved w1 k question reply ->
  exists older, history_of w' k = older ++ turn question reply.
Proof.
  intros H. unfold history_of. rewrite H. unfold saved.
  rewrite lookup_insert_eq. cbn [default from_option id].
  apply last_n_keeps. unfold turn. cbn [length]. lia.
Qed.

Lemma concat_truthy (chunks : list str) :
  concat (List.filter truthy chunks) = concat chunks.
Proof.
  induction chunks as [|c chunks IH]; [reflexivity|].
  cbn [List.filter]. destruct (truthy c) eqn:E; cbn [concat].
  - rewrite IH. reflexivity.
  - apply truthy_false in E. subst c. exact IH.
Qed.

Lemma tokens_of_stream (chunks : list str) (m : stream_metadata)
    (tail : list next_result) :
  tail = [] \/ tail = [StopIteration] ->
  tokens_of (token_results chunks ++ Yield (Metadata m) :: tail)
  = List.filter truthy chunks.
Proof.
  intros Htail. unfold token_results.
  induction (List.filter truthy chunks) as [|t ts IH].
  - destruct Htail as [->| ->]; reflexivity.
  - unfold tokens_of in *. cbn [map app omap list_omap]. f_equal. exact IH.
Qed.


End RetrieverExtras.

Section RetrieverRuns.

Import Retriever Spec Notions Scenario.



End RetrieverRuns.

Section RequestExtras.

Import Retriever Spec Notions SessionFacts.

Variable uuid4_hex : list call -> str.
Variable llm_invoke : list call -> llm_input -> result str.
Variable llm_stream : list call -> list lc_message -> list str * option str.
Variable retriever_invoke : list call -> str -> result (list Document).
Variable now_isoformat : list call -> str.

Local Abbreviation _rewrite_with_context := (_rewrite_with_context llm_invoke).
Local Abbreviation prepare :=
  (prepare uuid4_hex llm_invoke retriever_invoke).
Local Abbreviation query :=
  (query uuid4_hex llm_invoke retriever_invoke now_isoformat).
Local Abbreviation stream_loop := (stream_loop now_isoformat).
Local Abbreviation gen_next :=
  (gen_next uuid4_hex llm_invoke llm_stream retriever_invoke now_isoformat).
Local Abbreviation consume :=
  (consume uuid4_hex llm_invoke llm_stream retriever_invoke now_isoformat).
Local Abbreviation event_generator :=
  (Api.event_generator uuid4_hex llm_invoke llm_stream retriever_invoke
                       now_isoformat).

(** *** The part of the history that a request reads *)

Lemma last_n_truthy {A} (n : nat) (l : list A) :
  (0 < n)%nat -> truthy (last_n n l) = truthy l.
Proof.
  intros Hn. destruct l as [|x l]; [reflexivity|].
  cbn [truthy]. apply truthy_true. intros H.
  apply (f_equal length) in H. unfold last_n in H.
  rewrite length_drop in H. cbn [length] in H. lia.
Qed.

(** The rewriting of the question reads the log of the calls and the last
    six messages of the history. *)
Lemma rewrite_window (question : str) (h h' : list message)
    (w v : CellAvenueRAG) :
  calls w = calls v -> last_n 6 h = last_n 6 h' ->
  fst (_rewrite_with_context question h w)
  = fst (_rewrite_with_context question h' v)
  /\ calls (snd (_rewrite_with_context question h w))
     = calls (snd (_rewrite_with_context question h' v)).
Proof.
  intros Hc Hl.
  assert (Ht : truthy h = truthy h').
  { rewrite <- (last_n_truthy 6 h), <- (last_n_truthy 6 h'), Hl by lia.
    reflexivity. }
  unfold Retriever._rewrite_with_context. rewrite Ht, Hl.
  destruct (truthy h'); cbn [negb].
  - unfold bind, external, ret. rewrite Hc.
    destruct (llm_invoke (calls v) _); cbn [fst snd calls];
      split; reflexivity.
  - unfold ret. cbn [fst snd]. split; [reflexivity | exact Hc].
Qed.

Lemma prepare_supplied (question s : str) (w : CellAvenueRAG) :
  s ≠ [] ->
  prepare question (Some s) w
  = match _rewrite_with_context question (history_of w s) w with
    | (Ok search_query, w2) =>
      match retriever_invoke (calls w2) search_query with
      | Ok docs =>
        (Ok {| p_session_id := s; p_docs := docs;
               p_citations := _extract_citations docs;
               p_language := detect_language question;
               p_messages :=
                 [SystemMessage (SYSTEM_PROMPT (_format_docs docs))]
                 ++ map history_msg (last_n 6 (history_of w s))
                 ++ [HumanMessage question] |},
         {| _sessions := _sessions w2;
            calls := calls w2 ++ [CallRetriever search_query] |})
      | Raise e =>
        (Raise e,
         {| _sessions := _sessions w2;
            calls := calls w2 ++ [CallRetriever search_query] |})
      end
    | (Raise e, w2) => (Raise e, w2)
    end.
Proof.
  intros Hs. unfold Retriever.prepare.
  unfold bind at 1. rewrite (resolve_session_supplied uuid4_hex s w Hs).
  unfold bind at 1. unfold get_session_history at 1.
  unfold history_of. unfold bind at 1.
  destruct (_rewrite_with_context question (default [] (_sessions w !! s)) w)
    as [[search_query|e] w2]; [|reflexivity].
  unfold bind, external, ret.
  destruct (retriever_invoke (calls w2) search_query); reflexivity.
Qed.

Lemma query_result (question : str) (session_id : option str)
    (w : CellAvenueRAG) :
  fst (query question session_id w)
  = match prepare question session_id w with
    | (Ok p, w2) =>
      match llm_invoke (calls w2) (Messages (p_messages p)) with
      | Ok reply =>
        Ok {| answer := reply;
              citations := p_citations p;
              language := p_language p;
              as_of := now_isoformat
                         (calls w2 ++ [CallLlmInvoke (Messages (p_messages p))]);
              chunks_used := len (p_docs p);
              Retriever.session_id := p_session_id p |}
      | Raise e => Raise e
      end
    | (Raise e, _) => Raise e
    end.
Proof.
  unfold Retriever.query. unfold bind at 1.
  destruct (prepare question session_id w) as [[p|e] w2]; [|reflexivity].
  unfold bind at 1. unfold external at 1.
  destruct (llm_invoke (calls w2) (Messages (p_messages p))); [|reflexivity].
  unfold bind at 1. rewrite sessions_append.
  unfold bind at 1. rewrite sessions_append.
  unfold bind, external, ret. reflexivity.
Qed.


(** *** The frames of a stream *)

Lemma stream_loop_cases (question : str) (p : prepared) (ending : option str)
    (pending : list str) :
  forall (full : str) (w : CellAvenueRAG),
    (exists t full' pending' w',
       stream_loop question p full pending ending w
       = (Yield (Token t), GenStreaming question p full' pending' ending, w')
       /\ t ≠ [])
    \/ (exists m w',
          stream_loop question p full pending ending w
          = (Yield (Metadata m), GenYieldedMetadata, w'))
    \/ (exists e w',
          stream_loop question p full pending ending w
          = (Raised e, GenFinished, w')).
Proof.
  induction pending as [|token pending IH]; intros full w;
    cbn [Retriever.stream_loop].
  - destruct ending as [e|].
    + right. right. eexists _, _. reflexivity.
    + right. left.
      unfold bind at 1. rewrite sessions_append. cbv beta iota.
      unfold bind at 1. rewrite sessions_append. cbv beta iota.
      unfold bind, external, ret. cbv beta iota.
      eexists _, _. reflexivity.
  - destruct (truthy token) eqn:Et.
    + left. eexists _, _, _, _. split; [reflexivity|].
      apply truthy_true. exact Et.
    + apply IH.
Qed.

Lemma gen_next_cases (g : gen_state) (w : CellAvenueRAG) :
  (exists t question p full pending ending w',
     gen_next g w
     = (Yield (Token t), GenStreaming question p full pending ending, w')
     /\ t ≠ [])
  \/ (exists m w', gen_next g w = (Yield (Metadata m), GenYieldedMetadata, w'))
  \/ (exists e w', gen_next g w = (Raised e, GenFinished, w'))
  \/ (exists w', gen_next g w = (StopIteration, GenFinished, w')
                 /\ (g = GenYieldedMetadata \/ g = GenFinished)).
Proof.
  destruct g as [question session_id|question p full pending ending| |];
    cbn [Retriever.gen_next].
  - match goal with
    | |- context [match ?start w with _ => _ end] =>
      destruct (start w) as [[[p [chunks ending]]|e] w1]
    end.
    + destruct (stream_loop_cases question p ending chunks [] w1)
        as [(t & full' & pending' & w' & -> & Ht)|[(m & w' & ->)|(e & w' & ->)]].
      * left. eexists _, _, _, _, _, _, _. split; [reflexivity | exact Ht].
      * right. left. eexists _, _. reflexivity.
      * right. right. left. eexists _, _. reflexivity.
    + right. right. left. eexists _, _. reflexivity.
  - destruct (stream_loop_cases question p ending pending full w)
      as [(t & full' & pending' & w' & -> & Ht)|[(m & w' & ->)|(e & w' & ->)]].
    + left. eexists _, _, _, _, _, _, _. split; [reflexivity | exact Ht].
    + right. left. eexists _, _. reflexivity.
    + right. right. left. eexists _, _. reflexivity.
  - right. right. right. eexists. split; [reflexivity | left; reflexivity].
  - right. right. right. eexists. split; [reflexivity | right; reflexivity].
Qed.

Lemma consume_done (n : nat) (g : gen_state) (w : CellAvenueRAG) :
  g = GenYieldedMetadata \/ g = GenFinished ->
  concat (map Api.frame_of (consume n g w).1.1) = [].
Proof.
  intros Hg. destruct n as [|n]; [reflexivity|].
  destruct Hg as [->| ->]; reflexivity.
Qed.

Lemma consume_frames (n : nat) :
  forall (g : gen_state) (w : CellAvenueRAG),
    exists tokens last,
      concat (map Api.frame_of (consume n g w).1.1)
      = map Api.TextFrame tokens ++ last
      /\ Forall (fun t => t ≠ []) tokens
      /\ terminal last.
Proof.
  induction n as [|n IH]; intros g w.
  { exists [], []. split; [reflexivity|].
    split; [constructor | left; reflexivity]. }
  cbn [Retriever.consume].
  destruct (gen_next_cases g w)
    as [(t & question & p & full & pending & ending & w' & -> & Ht)
       |[(m & w' & ->)|[(e & w' & ->)|(w' & -> & Hg)]]].
  - destruct (IH (GenStreaming question p full pending ending) w')
      as (tokens & last & E & Hts & Hlast).
    destruct (consume n (GenStreaming question p full pending ending) w')
      as [[rs g''] w''].
    cbn [fst map concat Api.frame_of app] in *.
    exists (t :: tokens), last. rewrite E. split; [reflexivity|].
    split; [constructor; assumption | exact Hlast].
  - pose proof (consume_done n GenYieldedMetadata w' (or_introl eq_refl)) as Hnil.
    destruct (consume n GenYieldedMetadata w') as [[rs g''] w''].
    cbn [fst map concat Api.frame_of app] in *. rewrite Hnil.
    exists [], [Api.DataFrame m]. split; [reflexivity|].
    split; [constructor | right; left; eexists; reflexivity].
  - cbn [fst map concat Api.frame_of app].
    exists [], [Api.ErrorFrame e]. split; [reflexivity|].
    split; [constructor | right; right; eexists; reflexivity].
  - cbn [fst map concat Api.frame_of app].
    exists [], []. split; [reflexivity|].
    split; [constructor | left; reflexivity].
Qed.


End RequestExtras.

Section WindowRuns.

Import Retriever Spec Notions Scenario.


End WindowRuns.
